(** * png_color_converter: a shallow embedding and its verified properties

    The development follows [src/png_color_converter.py]:
    - [parse_color]        (lines 13-41), over strings of Latin-1 code points;
    - the recolouring core (lines 67-87), over 8-bit RGBA grids, with the
      floating-point steps evaluated by the IEEE-754 operations of
      [SpecFloat] at binary32 and binary64;
    - [convert_png_color]  (lines 44-91), as a state-and-error computation
      over a file system;
    - [main]               (lines 155-165), from the parsed arguments on.

    Beside the code stands the tolerance region as the specification words
    it, over the real numbers; the mask of the code is compared with it.  *)

From Stdlib Require Import ZArith Bool List Ascii String Lia.
From Stdlib Require Import Floats.SpecFloat.
From Stdlib Require Reals Lra.
From stdpp Require Import base option strings gmap.

Open Scope Z_scope.

(* ===================================================================== *)
(** * Part 1: the colour parser                                            *)
(* ===================================================================== *)

Module Parser.

(** A colour as the code returns it: a tuple of three Python integers. *)
Definition rgb : Type := (Z * Z * Z)%type.

(** The three [argparse.ArgumentTypeError]s of [parse_color], one per
    message. *)
Inductive color_error : Type :=
  | BadShape       (* "Color must be in #RRGGBB or 'R,G,B' (0-255) format" *)
  | NotIntegers    (* "Color components must be integers between 0 and 255" *)
  | OutOfRange.    (* "Color components must be in the range 0-255" *)

(** The error names of the specification. *)
Inductive spec_error : Type := InvalidColorFormat | InvalidColorRange.

Definition error_class (e : color_error) : spec_error :=
  match e with
  | BadShape => InvalidColorFormat
  | NotIntegers | OutOfRange => InvalidColorRange
  end.

(** ** Character classes *)

(** [str.isspace] on the code points below 256. *)
Definition is_space (c : ascii) : bool :=
  let n := nat_of_ascii c in
  ((9 <=? n) && (n <=? 13))%nat || ((28 <=? n) && (n <=? 32))%nat
  || (n =? 133)%nat || (n =? 160)%nat.

Definition is_digit (c : ascii) : bool :=
  let n := nat_of_ascii c in ((48 <=? n) && (n <=? 57))%nat.

Definition digit_val (c : ascii) : Z := Z.of_nat (nat_of_ascii c) - 48.

(** [c in "0123456789abcdefABCDEF"] for a one-character [c]. *)
Definition is_hex (c : ascii) : bool :=
  let n := nat_of_ascii c in
  ((48 <=? n) && (n <=? 57))%nat || ((97 <=? n) && (n <=? 102))%nat
  || ((65 <=? n) && (n <=? 70))%nat.

Definition hex_val (c : ascii) : Z :=
  let n := Z.of_nat (nat_of_ascii c) in
  if n <=? 57 then n - 48 else if n <=? 70 then n - 55 else n - 87.

(** ** String primitives of the Python runtime *)

Fixpoint lstrip (s : string) : string :=
  match s with
  | String c r => if is_space c then lstrip r else s
  | EmptyString => EmptyString
  end.

Fixpoint all_space (s : string) : bool :=
  match s with
  | String c r => is_space c && all_space r
  | EmptyString => true
  end.

Fixpoint rstrip (s : string) : string :=
  match s with
  | String c r => if all_space s then EmptyString else String c (rstrip r)
  | EmptyString => EmptyString
  end.

(** [s.strip()] *)
Definition strip (s : string) : string := rstrip (lstrip s).

Fixpoint all_hex (s : string) : bool :=
  match s with
  | String c r => is_hex c && all_hex r
  | EmptyString => true
  end.

(** ["," in s] *)
Fixpoint has_comma (s : string) : bool :=
  match s with
  | String c r => Ascii.eqb c "," || has_comma r
  | EmptyString => false
  end.

(** [s.split(",")]: every comma separates, empty pieces are kept. *)
Fixpoint split_comma_aux (cur : string) (s : string) : list string :=
  match s with
  | EmptyString => [cur]
  | String c r =>
      if Ascii.eqb c "," then cur :: split_comma_aux EmptyString r
      else split_comma_aux (cur +:+ String c EmptyString) r
  end.

Definition split_comma (s : string) : list string :=
  split_comma_aux EmptyString s.

(** [s.split()]: runs of whitespace separate, no empty piece is produced. *)
Fixpoint split_ws_aux (cur : string) (s : string) : list string :=
  match s with
  | EmptyString => if String.eqb cur EmptyString then [] else [cur]
  | String c r =>
      if is_space c
      then (if String.eqb cur EmptyString then split_ws_aux EmptyString r
            else cur :: split_ws_aux EmptyString r)
      else split_ws_aux (cur +:+ String c EmptyString) r
  end.

Definition split_ws (s : string) : list string :=
  split_ws_aux EmptyString s.

(** [int(s[i:i+2], 16)] on two hexadecimal characters. *)
Definition hex_pair (a b : ascii) : Z := 16 * hex_val a + hex_val b.

(** The digits of a base-10 literal: a digit, then digits each optionally
    preceded by one underscore.  [acc] is the value read so far and
    [after_digit] tells whether the previous character was a digit. *)
Fixpoint int_digits (after_digit : bool) (acc : Z) (s : string) : option Z :=
  match s with
  | EmptyString => if after_digit then Some acc else None
  | String c r =>
      if is_digit c then int_digits true (10 * acc + digit_val c) r
      else if Ascii.eqb c "_" && after_digit then
             match r with
             | String d _ => if is_digit d then int_digits false acc r else None
             | EmptyString => None
             end
      else None
  end.

(** [int(s)]: [None] stands for [ValueError]. *)
Definition py_int (s : string) : option Z :=
  match strip s with
  | String "+" r => int_digits false 0 r
  | String "-" r => Z.opp <$> int_digits false 0 r
  | t => int_digits false 0 t
  end.

Definition in_byte_range (v : Z) : bool := (0 <=? v) && (v <=? 255).

(** ** [parse_color] (lines 13-41) *)

Definition strip_hash (s : string) : string :=
  match s with
  | String "#" r => r
  | _ => s
  end.

Definition tokens (s : string) : list string :=
  if has_comma s then map strip (split_comma s) else split_ws s.

Definition parse_color (color_str : string) : color_error + rgb :=
  let s := strip color_str in
  let s := strip_hash s in
  if all_hex s && (String.length s =? 6)%nat then
    match s with
    | String a (String b (String c (String d (String e (String f _))))) =>
        inr (hex_pair a b, hex_pair c d, hex_pair e f)
    | _ => inl BadShape
    end
  else
    match tokens s with
    | [p0; p1; p2] =>
        match py_int p0, py_int p1, py_int p2 with
        | Some r, Some g, Some b =>
            if in_byte_range r && in_byte_range g && in_byte_range b
            then inr (r, g, b)
            else inl OutOfRange
        | _, _, _ => inl NotIntegers
        end
    | _ => inl BadShape
    end.

End Parser.

(* ===================================================================== *)
(** * Part 2: IEEE-754 arithmetic as NumPy and Python use it               *)
(* ===================================================================== *)

Module Ieee.

(** binary32 ([np.float32]) and binary64 (Python [float], [np.float64]). *)
Definition prec32 : Z := 24.
Definition emax32 : Z := 128.
Definition prec64 : Z := 53.
Definition emax64 : Z := 1024.

(** An integer converted to binary32 / binary64 (round to nearest even). *)
Definition b32_of_Z (n : Z) : spec_float := binary_normalize prec32 emax32 n 0 false.
Definition b64_of_Z (n : Z) : spec_float := binary_normalize prec64 emax64 n 0 false.

(** Conversion of a float to binary32 (rounding) and to binary64. *)
Definition to_b32 (x : spec_float) : spec_float :=
  match x with
  | S754_finite s m e => binary_round prec32 emax32 s m e
  | _ => x
  end.

Definition to_b64 (x : spec_float) : spec_float :=
  match x with
  | S754_finite s m e => binary_round prec64 emax64 s m e
  | _ => x
  end.

Definition b32_sub := SFsub prec32 emax32.
Definition b32_add := SFadd prec32 emax32.
Definition b32_mul := SFmul prec32 emax32.
Definition b32_div := SFdiv prec32 emax32.
Definition b32_sqrt := SFsqrt prec32 emax32.
Definition b64_mul := SFmul prec64 emax64.
Definition b64_div := SFdiv prec64 emax64.
Definition b64_sqrt := SFsqrt prec64 emax64.

(** A float that is a value of the given format. *)
Definition is_b64 (x : spec_float) : Prop := valid_binary prec64 emax64 x = true.
Definition is_b32 (x : spec_float) : Prop := valid_binary prec32 emax32 x = true.

Definition zero : spec_float := S754_zero false.

End Ieee.

(* ===================================================================== *)
(** * Part 3: the recolouring core (lines 67-87)                           *)
(* ===================================================================== *)

Module Recolor.
Import Ieee.

(** One element of the [h x w x 4] [uint8] array [arr]. *)
Record rgba : Type := Rgba { chR : Z; chG : Z; chB : Z; chA : Z }.

(** [arr]: a list of rows. *)
Abbreviation image := (list (list rgba)).

Definition color : Type := (Z * Z * Z)%type.

(** Lines 9-10. *)
Definition DEFAULT_SOURCE : color := (0, 0, 0).
Definition DEFAULT_TARGET : color := (6, 145, 15).

Definition valid_channel (v : Z) : Prop := 0 <= v <= 255.
Definition valid_color (c : color) : Prop :=
  valid_channel c.1.1 /\ valid_channel c.1.2 /\ valid_channel c.2.
Definition valid_pixel (p : rgba) : Prop :=
  valid_channel (chR p) /\ valid_channel (chG p) /\ valid_channel (chB p)
  /\ valid_channel (chA p).
Definition valid_image (im : image) : Prop :=
  Forall (Forall valid_pixel) im.

(** How NumPy types [float32_array (op) scalar].  Before NumPy 2 a scalar
    never widens an array of the same kind, so [dist / max_dist] and
    [norm <= tolerance] are binary32 operations; since NumPy 2 (NEP 50) the
    [np.float64] scalar [max_dist] widens the quotient to binary64, while a
    Python [float] still adopts the array's type. *)
Inductive promotion : Type := ValueBased | Nep50.

(** [diff = rgb - src] for one channel, [rgb] and [src] being binary32. *)
Definition diff (v s : Z) : spec_float := b32_sub (b32_of_Z v) (b32_of_Z s).

(** [np.linalg.norm(diff, axis=-1)]:
    [sqrt(add.reduce((x.conj() * x).real, axis))] in binary32. *)
Definition sum_sq (src : color) (p : rgba) : spec_float :=
  let dr := diff (chR p) src.1.1 in
  let dg := diff (chG p) src.1.2 in
  let db := diff (chB p) src.2 in
  b32_add (b32_add (b32_mul dr dr) (b32_mul dg dg)) (b32_mul db db).

Definition dist (src : color) (p : rgba) : spec_float := b32_sqrt (sum_sq src p).

(** [max_dist = np.sqrt(3.0) * 255.0], a binary64 scalar. *)
Definition max_dist : spec_float := b64_mul (b64_sqrt (b64_of_Z 3)) (b64_of_Z 255).

(** [norm = dist / max_dist] *)
Definition norm (pr : promotion) (src : color) (p : rgba) : spec_float :=
  match pr with
  | ValueBased => b32_div (dist src p) (to_b32 max_dist)
  | Nep50 => b64_div (to_b64 (dist src p)) max_dist
  end.

(** [norm <= float(tolerance)] *)
Definition close_euclidean (pr : promotion) (tol : spec_float) (src : color)
    (p : rgba) : bool :=
  match pr with
  | ValueBased => SFleb (norm pr src p) (to_b32 tol)
  | Nep50 => SFleb (norm pr src p) tol
  end.

(** [thr = float(tolerance) * 255.0] *)
Definition thr (tol : spec_float) : spec_float := b64_mul tol (b64_of_Z 255).

(** [np.all(np.abs(diff) <= thr, axis=-1)] *)
Definition close_channel (tol : spec_float) (src : color) (p : rgba) : bool :=
  let t := to_b32 (thr tol) in
  SFleb (SFabs (diff (chR p) src.1.1)) t
  && SFleb (SFabs (diff (chG p) src.1.2)) t
  && SFleb (SFabs (diff (chB p) src.2)) t.

(** The metric selector is a Python string. *)
Inductive metric_kind : Type := Euclidean | Channel.

Definition metric_of_string (m : string) : option metric_kind :=
  if String.eqb m "euclidean" then Some Euclidean
  else if String.eqb m "channel" then Some Channel
  else None.

Definition close (pr : promotion) (m : metric_kind) (tol : spec_float)
    (src : color) (p : rgba) : bool :=
  match m with
  | Euclidean => close_euclidean pr tol src p
  | Channel => close_channel tol src p
  end.

(** [mask & (alpha > 0)] at one pixel. *)
Definition mask_at (pr : promotion) (m : metric_kind) (tol : spec_float)
    (src : color) (p : rgba) : bool :=
  close pr m tol src p && (0 <? chA p).

(** The whole mask, a grid of booleans of the shape of the image. *)
Definition mask (pr : promotion) (m : metric_kind) (tol : spec_float)
    (src : color) (arr : image) : list (list bool) :=
  map (map (mask_at pr m tol src)) arr.

(** [arr[mask, :3] = target_color] at one pixel, for a target of 8-bit
    components, which is what [parse_color] returns.  The array is [uint8]:
    what NumPy stores for a component outside 0..255 depends on its version
    (a wrapped value, or an [OverflowError]) and is not modelled; the
    properties that read a painted pixel take [valid_color target]. *)
Definition paint (target : color) (b : bool) (p : rgba) : rgba :=
  if b then Rgba target.1.1 target.1.2 target.2 (chA p) else p.

Definition recolor_with (pr : promotion) (m : metric_kind) (tol : spec_float)
    (src target : color) (arr : image) : image :=
  map (map (fun p => paint target (mask_at pr m tol src p) p)) arr.

(** Lines 67-87; [None] is the [ValueError] of line 82. *)
Definition recolor (pr : promotion) (arr : image) (src target : color)
    (tol : spec_float) (metric : string) : option image :=
  m ← metric_of_string metric;
  Some (recolor_with pr m tol src target arr).

End Recolor.

(* ===================================================================== *)
(** * Part 4: [convert_png_color] (lines 44-91) over a file system         *)
(* ===================================================================== *)

Module Converter.
Import Ieee Recolor.

(** ** [os.path.splitext] (POSIX) *)

(** [p.rfind(c)], [-1] when [c] does not occur; [i] is the index of the head
    of [s] in [p]. *)
Fixpoint rfind_from (c : ascii) (i : Z) (s : string) (found : Z) : Z :=
  match s with
  | EmptyString => found
  | String a r => rfind_from c (i + 1) r (if Ascii.eqb a c then i else found)
  end.

Definition rfind (c : ascii) (p : string) : Z := rfind_from c 0 p (-1).

(** [p[i:]] and [p[:i]] for [0 <= i]. *)
Definition drop_str (i : Z) (p : string) : string :=
  String.substring (Z.to_nat i) (String.length p - Z.to_nat i) p.
Definition take_str (i : Z) (p : string) : string :=
  String.substring 0 (Z.to_nat i) p.

(** The [while] loop of [genericpath._splitext], which skips leading dots;
    [n] bounds the iterations by [dotIndex - filenameIndex]. *)
Fixpoint splitext_loop (n : nat) (p : string) (filenameIndex dotIndex : Z)
    : string * string :=
  match n with
  | O => (p, EmptyString)
  | S n' =>
      if filenameIndex <? dotIndex then
        match String.get (Z.to_nat filenameIndex) p with
        | Some "."%char => splitext_loop n' p (filenameIndex + 1) dotIndex
        | _ => (take_str dotIndex p, drop_str dotIndex p)
        end
      else (p, EmptyString)
  end.

Definition splitext (p : string) : string * string :=
  let sepIndex := rfind "/" p in
  let dotIndex := rfind "." p in
  if sepIndex <? dotIndex
  then splitext_loop (Z.to_nat (dotIndex - (sepIndex + 1))) p (sepIndex + 1) dotIndex
  else (p, EmptyString).

(** Lines 55-57. *)
Definition default_output (input_path : string) : string :=
  (splitext input_path).1 +:+ "_converted.png".

Definition resolve_output (input_path : string) (output_path : option string)
    : string :=
  match output_path with
  | None => default_output input_path
  | Some o => o
  end.

(** ** Files *)

(** What Pillow decodes from a file: its mode and pixels.  For a mode other
    than RGB and RGBA the file carries the grid that [im.convert("RGBA")]
    yields, Pillow's conversion being outside this repository. *)
Inductive picture : Type :=
  | PicRGBA (px : image)
  | PicRGB (px : list (list color))
  | PicOther (mode : string) (as_rgba : image).

Inductive node : Type :=
  | Directory
  | Regular (content : option picture).   (* [None]: not a decodable image *)

Inductive exn : Type :=
  | FileNotFoundError          (* line 53 *)
  | ValueError                 (* line 82 *)
  | UnidentifiedImageError     (* raised by [Image.open] *)
  | IsADirectoryError.         (* raised by [out.save] *)

(** The error names of the specification. *)
Inductive spec_error : Type := FileNotFound | UnsupportedMetric | CodecFailure.

Definition error_class (e : exn) : spec_error :=
  match e with
  | FileNotFoundError => FileNotFound
  | ValueError => UnsupportedMetric
  | UnidentifiedImageError | IsADirectoryError => CodecFailure
  end.

Inductive io_event : Type :=
  | EvIsFile (p : string)
  | EvOpen (p : string)
  | EvSave (p : string).

Record world : Type := World { files : gmap string node; trace : list io_event }.

(** ** The state-and-error monad of the embedding *)

Definition M (A : Type) : Type := world -> (exn + A) * world.

Definition ret {A} (a : A) : M A := fun w => (inr a, w).
Definition raise {A} (e : exn) : M A := fun w => (inl e, w).
Definition bind {A B} (c : M A) (k : A -> M B) : M B :=
  fun w => match c w with
           | (inr a, w') => k a w'
           | (inl e, w') => (inl e, w')
           end.

Notation "'do' x <- c 'then' k" := (bind c (fun x => k))
  (at level 10, x name, c at level 100, k at level 200).
Notation "'run' c 'then' k" := (bind c (fun _ => k))
  (at level 10, c at level 100, k at level 200).

Definition emit (e : io_event) : M unit :=
  fun w => (inr tt, World (files w) (trace w ++ [e])).

(** [os.path.isfile] *)
Definition isfile (p : string) : M bool :=
  run emit (EvIsFile p) then
  fun w => (inr match files w !! p with Some (Regular _) => true | _ => false end, w).

(** Lines 60-65: the array of the image in mode RGBA. *)
Definition to_rgba (pic : picture) : image :=
  match pic with
  | PicRGBA px => px
  | PicRGB px => map (map (fun c : color => Rgba c.1.1 c.1.2 c.2 255)) px
  | PicOther _ px => px
  end.

(** Lines 59-65: [Image.open], the conversion and [np.array(im)]. *)
Definition load_rgba (p : string) : M image :=
  run emit (EvOpen p) then
  fun w => match files w !! p with
           | Some (Regular (Some pic)) => (inr (to_rgba pic), w)
           | _ => (inl UnidentifiedImageError, w)
           end.

(** Lines 89-90: the array written as an RGBA PNG, replacing what the path
    held.  Of the ways [out.save] can fail the model has one, a path that is
    a directory; a missing parent directory, permissions and the like are
    outside it, and so are two paths that name one file (links).  The
    properties of a written image therefore speak of calls that succeed and
    of the output path alone. *)
Definition save_png (p : string) (arr : image) : M unit :=
  run emit (EvSave p) then
  fun w => match files w !! p with
           | Some Directory => (inl IsADirectoryError, w)
           | _ => (inr tt, World (<[p := Regular (Some (PicRGBA arr))]> (files w)) (trace w))
           end.

Definition convert_png_color (pr : promotion) (input_path : string)
    (output_path : option string) (source_color target_color : color)
    (tolerance : spec_float) (metric : string) : M string :=
  do ok <- isfile input_path then
  if negb ok then raise FileNotFoundError
  else
    let output_path := resolve_output input_path output_path in
    do arr <- load_rgba input_path then
    match recolor pr arr source_color target_color tolerance metric with
    | None => raise ValueError
    | Some arr' =>
        run save_png output_path arr' then
        ret output_path
    end.

End Converter.

(** ** [main] (lines 155-165) *)

Module Cli.
Import Ieee Recolor Converter.

(** The [argparse.Namespace] that [parse_args] returns: one attribute for
    each argument declared on lines 111-151. *)
Record Namespace : Type := Args {
  input : string;
  output : option string;
  source : color;
  target : color;
  tolerance : spec_float;
  metric : string
}.

(** The [choices] of [--metric] (line 145). *)
Definition metric_choices : list string := ["euclidean"; "channel"]%string.

(** A process: the file system and the lines written to standard output. *)
Record process : Type := Process { disk : world; stdout : list string }.

(** Lines 156-165, from the parsed arguments on.  An exception of
    [convert_png_color] leaves [main] before the [print]. *)
Definition main (pr : promotion) (args : Namespace) (p : process)
    : (exn + unit) * process :=
  match convert_png_color pr (input args) (output args) (source args)
          (target args) (tolerance args) (metric args) (disk p) with
  | (inr out_path, w') =>
      (inr tt,
       Process w' (stdout p ++ ["Saved converted image to: " +:+ out_path]))
  | (inl e, w') => (inl e, Process w' (stdout p))
  end.

End Cli.

(** ** The tolerance region in the words of the specification *)

Module Spec.
Import Stdlib.Reals.Reals.
Import Recolor.
Local Open Scope R_scope.





End Spec.

(* ===================================================================== *)
(** * Part 5: rounding to nearest even, as [SpecFloat] computes it         *)
(* ===================================================================== *)

(** [binary_round_aux] shifts a mantissa to the exponent of the format,
    keeping the lost bits in a round bit and a sticky bit, and rounds.  The
    mantissa with its two bits is read here as one integer, the sticky
    code, on which the shift and the rounding are monotone. *)

Module Rounding.

(** Sticky code of a shift record: 4m + 2r + s. *)
Definition code (mrs : shr_record) : Z :=
  4 * shr_m mrs + 2 * Z.b2z (shr_r mrs) + Z.b2z (shr_s mrs).

Definition loc_bits (l : location) : Z :=
  match l with
  | loc_Exact => 0
  | loc_Inexact Lt => 1
  | loc_Inexact Eq => 2
  | loc_Inexact Gt => 3
  end.

(** One sticky shift: halve, keeping a lost bit in the lowest position. *)
Definition st1 (c : Z) : Z := c / 2 + (if Z.odd c && Z.even (c / 2) then 1 else 0).

Fixpoint stk (k : nat) (c : Z) : Z :=
  match k with O => c | S k' => st1 (stk k' c) end.

Definition rne (c : Z) : Z :=
  let m := c / 4 in
  let t := c mod 4 in
  if t <=? 1 then m
  else if t =? 2 then (if Z.even m then m else m + 1)
  else m + 1.

Lemma odd_div2 c : c = 2 * (c / 2) + Z.b2z (Z.odd c).
Proof.
  rewrite Z.add_comm. rewrite <- Z.bit0_odd. rewrite Z.bit0_mod.
  rewrite Z.add_comm. apply Z.div_mod. lia.
Qed.

Lemma st1_bounds c : c / 2 <= st1 c <= c / 2 + 1.
Proof. unfold st1. destruct (_ && _); lia. Qed.

Lemma st1_mono c c' : c <= c' -> st1 c <= st1 c'.
Proof.
  intros H. unfold st1.
  pose proof (odd_div2 c) as Hc. pose proof (odd_div2 c') as Hc'.
  set (b := Z.odd c) in *. set (b' := Z.odd c') in *.
  destruct (Z.eq_dec (c / 2) (c' / 2)) as [Heq|Hne].
  - rewrite <- Heq in *.
    destruct b, b', (Z.even (c / 2)); cbn [Z.b2z andb] in *; lia.
  - destruct b, b', (Z.even (c / 2)), (Z.even (c' / 2));
      cbn [Z.b2z andb] in *; lia.
Qed.

Lemma st1_double c : st1 (2 * c) = c.
Proof.
  unfold st1. rewrite Z.odd_mul. change (Z.odd 2) with false. cbn [andb].
  rewrite (Z.mul_comm 2 c), Z.div_mul by lia. lia.
Qed.

Lemma st1_nonneg c : 0 <= c -> 0 <= st1 c.
Proof. intros H. pose proof (st1_bounds c). pose proof (Z.div_pos c 2). lia. Qed.

Lemma stk_mono k c c' : c <= c' -> stk k c <= stk k c'.
Proof. induction k; simpl; auto using st1_mono. Qed.

Lemma stk_nonneg k c : 0 <= c -> 0 <= stk k c.
Proof. induction k; simpl; auto using st1_nonneg. Qed.

Lemma stk_succ_r k c : stk (S k) c = stk k (st1 c).
Proof. induction k; simpl in *; congruence. Qed.

Lemma stk_add j k c : stk (j + k) c = stk j (stk k c).
Proof. induction j; simpl; congruence. Qed.

Lemma stk_shift k c : stk k (2 ^ Z.of_nat k * c) = c.
Proof.
  revert c. induction k; intros c.
  - cbn [stk Z.of_nat]. rewrite Z.pow_0_r. lia.
  - rewrite stk_succ_r. rewrite Nat2Z.inj_succ, Z.pow_succ_r by lia.
    rewrite <- Z.mul_assoc, st1_double. apply IHk.
Qed.

(** Shifting records. *)
Lemma st1_split q (b : bool) :
  st1 (2 * q + Z.b2z b) = q + Z.b2z (b && Z.even q).
Proof.
  unfold st1.
  assert (Hq : (2 * q + Z.b2z b) / 2 = q).
  { destruct b; cbn [Z.b2z]; [|rewrite Z.add_0_r, Z.mul_comm; apply Z.div_mul; lia].
    rewrite Z.mul_comm, Z.div_add_l by lia. change (1 / 2) with 0. lia. }
  assert (Ho : Z.odd (2 * q + Z.b2z b) = b).
  { rewrite Z.odd_add, Z.odd_mul. destruct b; reflexivity. }
  rewrite Hq, Ho. destruct (b && Z.even q); reflexivity.
Qed.

Lemma shr_1_nonneg m r s :
  0 <= m ->
  shr_1 (Build_shr_record m r s) = Build_shr_record (m / 2) (Z.odd m) (r || s).
Proof.
  intros Hm. rewrite <- Z.div2_div.
  destruct m as [|[p|p|]|p]; try reflexivity. lia.
Qed.

Lemma code_shr_1 mrs :
  0 <= shr_m mrs ->
  code (shr_1 mrs) = st1 (code mrs) /\ 0 <= shr_m (shr_1 mrs).
Proof.
  destruct mrs as [m r s]. cbn [shr_m]. intros Hm.
  rewrite shr_1_nonneg by assumption. unfold code. cbn [shr_m shr_r shr_s].
  split; [|apply Z.div_pos; lia].
  replace (4 * m + 2 * Z.b2z r + Z.b2z s) with (2 * (2 * m + Z.b2z r) + Z.b2z s) by lia.
  rewrite st1_split.
  assert (He : Z.even (2 * m + Z.b2z r) = negb r).
  { rewrite Z.even_add, Z.even_mul. destruct r; reflexivity. }
  rewrite He. pose proof (odd_div2 m) as Hd.
  destruct (Z.odd m), r, s; cbn [Z.b2z andb orb negb] in *; lia.
Qed.

Lemma iter_pos_nat {A} (f : A -> A) p x :
  SpecFloat.iter_pos f p x = Nat.iter (Pos.to_nat p) f x.
Proof.
  revert x. induction p as [p IH|p IH|]; intros x; cbn [SpecFloat.iter_pos].
  - rewrite !IH. rewrite Pos2Nat.inj_xI.
    replace (S (2 * Pos.to_nat p))%nat with (Pos.to_nat p + (Pos.to_nat p + 1))%nat by lia.
    rewrite !Nat.iter_add. reflexivity.
  - rewrite !IH. rewrite Pos2Nat.inj_xO.
    replace (2 * Pos.to_nat p)%nat with (Pos.to_nat p + Pos.to_nat p)%nat by lia.
    rewrite Nat.iter_add. reflexivity.
  - reflexivity.
Qed.

Lemma code_iter_shr k mrs :
  0 <= shr_m mrs ->
  code (Nat.iter k shr_1 mrs) = stk k (code mrs)
  /\ 0 <= shr_m (Nat.iter k shr_1 mrs).
Proof.
  intros Hm. induction k as [|k [IH1 IH2]].
  - auto.
  - change (Nat.iter (S k) shr_1 mrs) with (shr_1 (Nat.iter k shr_1 mrs)).
    cbn [stk]. destruct (code_shr_1 _ IH2) as [H1 H2]. rewrite H1, IH1. auto.
Qed.

(** A record is determined by its code. *)
Lemma code_parts mrs :
  0 <= shr_m mrs ->
  shr_m mrs = code mrs / 4
  /\ loc_bits (loc_of_shr_record mrs) = code mrs mod 4.
Proof.
  destruct mrs as [m r s]. unfold code. cbn [shr_m shr_r shr_s]. intros Hm.
  assert (H : 0 <= 2 * Z.b2z r + Z.b2z s < 4) by (destruct r, s; cbn; lia).
  replace (4 * m + 2 * Z.b2z r + Z.b2z s) with (2 * Z.b2z r + Z.b2z s + m * 4) by lia.
  rewrite Z.div_add, Z.mod_add by lia.
  rewrite Z.div_small, Z.mod_small by lia.
  split; [lia|]. destruct r, s; reflexivity.
Qed.

Lemma code_of_loc m l :
  code (shr_record_of_loc m l) = 4 * m + loc_bits l
  /\ shr_m (shr_record_of_loc m l) = m.
Proof.
  destruct l as [|[| |]]; (split; [|reflexivity]);
    unfold code; cbn [shr_record_of_loc shr_m shr_r shr_s Z.b2z loc_bits]; lia.
Qed.

Lemma rne_round mrs :
  0 <= shr_m mrs ->
  round_nearest_even (shr_m mrs) (loc_of_shr_record mrs) = rne (code mrs).
Proof.
  intros Hm. destruct (code_parts mrs Hm) as [H1 H2]. unfold rne.
  rewrite <- H1, <- H2.
  destruct mrs as [m [|] [|]]; reflexivity.
Qed.

Lemma rne_bounds c : c / 4 <= rne c <= c / 4 + 1.
Proof.
  unfold rne. destruct (_ <=? 1); [lia|]. destruct (_ =? 2); [|lia].
  destruct (Z.even _); lia.
Qed.

Lemma rne_exact m : rne (4 * m) = m.
Proof.
  unfold rne. rewrite Z.mul_comm, Z.mod_mul, Z.div_mul by lia. reflexivity.
Qed.

Lemma rne_mono c c' : c <= c' -> rne c <= rne c'.
Proof.
  intros H. unfold rne.
  pose proof (Z.div_mod c 4 ltac:(lia)) as Hc.
  pose proof (Z.div_mod c' 4 ltac:(lia)) as Hc'.
  pose proof (Z.mod_pos_bound c 4 ltac:(lia)).
  pose proof (Z.mod_pos_bound c' 4 ltac:(lia)).
  destruct (Z.eq_dec (c / 4) (c' / 4)) as [Heq|Hne].
  - rewrite <- Heq in *.
    destruct (Z.leb_spec (c mod 4) 1), (Z.leb_spec (c' mod 4) 1),
      (Z.eqb_spec (c mod 4) 2), (Z.eqb_spec (c' mod 4) 2),
      (Z.even (c / 4)); lia.
  - destruct (Z.leb_spec (c mod 4) 1), (Z.leb_spec (c' mod 4) 1),
      (Z.eqb_spec (c mod 4) 2), (Z.eqb_spec (c' mod 4) 2),
      (Z.even (c / 4)), (Z.even (c' / 4)); lia.
Qed.

(** ** Digits *)

Lemma digits2_pos_bounds p :
  2 ^ (Zpos (digits2_pos p) - 1) <= Zpos p < 2 ^ Zpos (digits2_pos p).
Proof.
  induction p as [p IH|p IH|]; cbn [digits2_pos].
  - rewrite Pos2Z.inj_succ. replace (Z.succ (Zpos (digits2_pos p)) - 1) with (Zpos (digits2_pos p)) by lia.
    rewrite Z.pow_succ_r by lia.
    replace (Zpos (digits2_pos p)) with (Z.succ (Zpos (digits2_pos p) - 1)) at 1 by lia.
    rewrite Z.pow_succ_r by lia. lia.
  - rewrite Pos2Z.inj_succ. replace (Z.succ (Zpos (digits2_pos p)) - 1) with (Zpos (digits2_pos p)) by lia.
    rewrite Z.pow_succ_r by lia.
    replace (Zpos (digits2_pos p)) with (Z.succ (Zpos (digits2_pos p) - 1)) at 1 by lia.
    rewrite Z.pow_succ_r by lia. lia.
  - cbn. lia.
Qed.

Lemma Zdigits2_bounds m :
  0 < m -> 0 < Zdigits2 m /\ 2 ^ (Zdigits2 m - 1) <= m < 2 ^ Zdigits2 m.
Proof.
  destruct m as [|p|p]; try lia. intros _. cbn [Zdigits2].
  split; [lia | apply digits2_pos_bounds].
Qed.

Lemma pow2_lt_le a b : 0 <= a -> 0 <= b -> 2 ^ a < 2 ^ (b + 1) -> a <= b.
Proof.
  intros Ha Hb H. destruct (Z_le_gt_dec a b) as [|Hgt]; [assumption|].
  exfalso. assert (2 ^ (b + 1) <= 2 ^ a) by (apply Z.pow_le_mono_r; lia). lia.
Qed.

Lemma Zdigits2_unique m d :
  0 < m -> 2 ^ (d - 1) <= m < 2 ^ d -> Zdigits2 m = d.
Proof.
  intros Hm [H1 H2]. destruct (Zdigits2_bounds m Hm) as (Hd & H3 & H4).
  assert (0 < d).
  { destruct (Z_lt_le_dec 0 d); [assumption|].
    exfalso. assert (2 ^ d <= 2 ^ 0) by (apply Z.pow_le_mono_r; lia).
    change (2 ^ 0) with 1 in *. lia. }
  assert (Zdigits2 m - 1 <= d - 1).
  { apply pow2_lt_le; try lia. replace (d - 1 + 1) with d by lia. lia. }
  assert (d - 1 <= Zdigits2 m - 1).
  { apply pow2_lt_le; try lia. replace (Zdigits2 m - 1 + 1) with (Zdigits2 m) by lia. lia. }
  lia.
Qed.

Lemma Zdigits2_nonneg m : 0 <= Zdigits2 m.
Proof. destruct m; cbn; lia. Qed.

Lemma Zdigits2_mono m m' : 0 <= m <= m' -> Zdigits2 m <= Zdigits2 m'.
Proof.
  intros [H0 H]. destruct (Z.eq_dec m 0) as [->|Hn].
  - apply Zdigits2_nonneg.
  - destruct (Zdigits2_bounds m ltac:(lia)) as (Hd & H1 & H2).
    destruct (Zdigits2_bounds m' ltac:(lia)) as (Hd' & H1' & H2').
    assert (Zdigits2 m - 1 <= Zdigits2 m' - 1); [|lia].
    apply pow2_lt_le; try lia.
    replace (Zdigits2 m' - 1 + 1) with (Zdigits2 m') by lia. lia.
Qed.

Lemma Zdigits2_shift m j :
  0 < m -> 0 <= j -> Zdigits2 (m * 2 ^ j) = Zdigits2 m + j.
Proof.
  intros Hm Hj. destruct (Zdigits2_bounds m Hm) as (Hd & H1 & H2).
  assert (0 < 2 ^ j) by (apply Z.pow_pos_nonneg; lia).
  apply Zdigits2_unique; [nia|].
  replace (Zdigits2 m + j - 1) with (Zdigits2 m - 1 + j) by lia.
  rewrite !Z.pow_add_r by lia. nia.
Qed.

(** ** The order of [SFcompare] *)

(** A key whose lexicographic order is the order of [SFcompare]. *)
Definition key (x : spec_float) : option (Z * Z * Z) :=
  match x with
  | S754_nan => None
  | S754_infinity true => Some (-2, 0, 0)
  | S754_finite true m e => Some (-1, - e, - Zpos m)
  | S754_zero _ => Some (0, 0, 0)
  | S754_finite false m e => Some (1, e, Zpos m)
  | S754_infinity false => Some (2, 0, 0)
  end.

Definition lex_le (a b : Z * Z * Z) : Prop :=
  let '(a1, a2, a3) := a in
  let '(b1, b2, b3) := b in
  a1 < b1 \/ (a1 = b1 /\ (a2 < b2 \/ (a2 = b2 /\ a3 <= b3))).

Definition key_le (x y : spec_float) : Prop :=
  match key x, key y with
  | Some a, Some b => lex_le a b
  | _, _ => False
  end.

Lemma cont_compare m1 m2 : Pos.compare_cont Eq m1 m2 = (Zpos m1 ?= Zpos m2).
Proof. reflexivity. Qed.

Lemma SFleb_key x y : SFleb x y = true <-> key_le x y.
Proof.
  unfold SFleb, key_le.
  destruct x as [sx|sx| |sx mx ex], y as [sy|sy| |sy my ey];
    try destruct sx; try destruct sy; cbn [SFcompare key lex_le];
    try (split; [intros; lia | reflexivity]);
    try (split; [discriminate | intros; lia]);
    try (split; [discriminate | intros []]).
  all: rewrite cont_compare.
  all: destruct (Z.compare_spec ex ey); try destruct (Z.compare_spec (Zpos mx) (Zpos my));
    cbn [CompOpp]; split; intros; try discriminate; try reflexivity; lia.
Qed.

Lemma SFltb_leb x y : SFltb x y = true -> SFleb x y = true.
Proof. unfold SFltb, SFleb. destruct (SFcompare x y) as [[| |]|]; auto. Qed.

Lemma SFleb_trans x y z :
  SFleb x y = true -> SFleb y z = true -> SFleb x z = true.
Proof.
  rewrite !SFleb_key. unfold key_le.
  destruct (key x) as [[[a1 a2] a3]|], (key y) as [[[b1 b2] b3]|],
    (key z) as [[[c1 c2] c3]|]; cbn [lex_le]; try tauto. lia.
Qed.

Lemma SFleb_opp x y : SFleb (SFopp x) (SFopp y) = SFleb y x.
Proof.
  apply eq_true_iff_eq. rewrite !SFleb_key. unfold key_le.
  destruct x as [[]|[]| |[] mx ex], y as [[]|[]| |[] my ey];
    cbn [SFopp negb key lex_le]; try tauto; lia.
Qed.

(** ** Rounding to a format *)

Section Format.
Variables prec emax : Z.
Hypothesis Hprec : 0 < prec.

Local Abbreviation fexp := (SpecFloat.fexp prec emax).
Local Abbreviation emin := (SpecFloat.emin prec emax).

Lemma fexp_ge_emin e : emin <= fexp e.
Proof. unfold SpecFloat.fexp. lia. Qed.

Lemma fexp_mono e e' : e <= e' -> fexp e <= fexp e'.
Proof. unfold SpecFloat.fexp. lia. Qed.

Lemma shr_code m l e n :
  0 <= m ->
  code (fst (shr (shr_record_of_loc m l) e n)) = stk (Z.to_nat n) (4 * m + loc_bits l)
  /\ snd (shr (shr_record_of_loc m l) e n) = e + Z.max n 0
  /\ 0 <= shr_m (fst (shr (shr_record_of_loc m l) e n)).
Proof.
  intros Hm. destruct (code_of_loc m l) as [Hc Hs].
  destruct n as [|p|p]; cbn [shr fst snd Z.to_nat stk].
  - rewrite Hc, Hs. repeat split; lia.
  - rewrite iter_pos_nat.
    destruct (code_iter_shr (Pos.to_nat p) (shr_record_of_loc m l)) as [H1 H2];
      [rewrite Hs; assumption|].
    rewrite H1, Hc. split; [reflexivity|]. split; [lia | assumption].
  - rewrite Hc, Hs. repeat split; lia.
Qed.

(** The float of mantissa [M] at exponent [E], where [M] may be [2^prec]. *)
Definition pack (sx : bool) (M E : Z) : spec_float :=
  if M =? 0 then S754_zero sx
  else if M <? 2 ^ prec then
         (if E <=? emax - prec then S754_finite sx (Z.to_pos M) E
          else S754_infinity sx)
       else
         (if E + 1 <=? emax - prec then S754_finite sx (Z.to_pos (2 ^ (prec - 1))) (E + 1)
          else S754_infinity sx).

(** Mantissa and exponent of a rounded number. *)
Definition canon (M E : Z) : Prop :=
  0 <= M <= 2 ^ prec /\ emin <= E /\ (emin < E -> 2 ^ (prec - 1) <= M).

Definition rnd_exp (m e : Z) : Z := fexp (Zdigits2 m + e).
Definition rnd_man (m e : Z) (l : location) : Z :=
  rne (stk (Z.to_nat (rnd_exp m e - e)) (4 * m + loc_bits l)).

Lemma loc_bits_range l : 0 <= loc_bits l <= 3.
Proof. destruct l as [|[| |]]; cbn; lia. Qed.

Lemma stk_le_pow k c C :
  c <= 2 ^ Z.of_nat k * C -> stk k c <= C.
Proof. intros H. rewrite <- (stk_shift k C). apply stk_mono, H. Qed.

Lemma stk_ge_pow k c C :
  2 ^ Z.of_nat k * C <= c -> C <= stk k c.
Proof. intros H. rewrite <- (stk_shift k C). apply stk_mono, H. Qed.

Lemma rne_le c C : c <= 4 * C -> rne c <= C.
Proof. intros H. rewrite <- (rne_exact C). apply rne_mono, H. Qed.

Lemma rne_ge c C : 4 * C <= c -> C <= rne c.
Proof. intros H. rewrite <- (rne_exact C). apply rne_mono, H. Qed.

Lemma rnd_canon m e l :
  0 < m -> e <= rnd_exp m e -> canon (rnd_man m e l) (rnd_exp m e).
Proof.
  intros Hm Hk. unfold canon, rnd_man.
  set (fe := rnd_exp m e) in *. set (k := Z.to_nat (fe - e)).
  assert (Hkz : Z.of_nat k = fe - e) by (unfold k; lia).
  destruct (Zdigits2_bounds m Hm) as (Hd & H1 & H2).
  pose proof (loc_bits_range l) as Hl.
  set (d := Zdigits2 m) in *.
  assert (Hfe : fe = Z.max (d + e - prec) emin) by reflexivity.
  assert (Hpk : 0 < 2 ^ Z.of_nat k) by (apply Z.pow_pos_nonneg; lia).
  split; [split|split].
  - apply rne_ge. apply stk_ge_pow. lia.
  - apply rne_le. apply stk_le_pow.
    (* c < 4 * 2^d <= 2^k * 4 * 2^prec since d <= k + prec *)
    assert (2 ^ d <= 2 ^ (Z.of_nat k + prec)) by (apply Z.pow_le_mono_r; lia).
    rewrite Z.pow_add_r in * by lia. nia.
  - rewrite Hfe. lia.
  - intros Hn. apply rne_ge. apply stk_ge_pow.
    assert (Hk' : Z.of_nat k = d - prec) by lia.
    assert (2 ^ (d - 1) = 2 ^ Z.of_nat k * 2 ^ (prec - 1)).
    { rewrite <- Z.pow_add_r by lia. f_equal. lia. }
    nia.
Qed.

Lemma shr_nonpos mrs e n : n <= 0 -> shr mrs e n = (mrs, e).
Proof. destruct n; try reflexivity. lia. Qed.

Theorem round_aux_pack sx m e l :
  0 < m -> e <= rnd_exp m e ->
  binary_round_aux prec emax sx m e l = pack sx (rnd_man m e l) (rnd_exp m e).
Proof.
  intros Hm Hk. pose proof (rnd_canon m e l Hm Hk) as ((HM0 & HM1) & HE & HN).
  unfold binary_round_aux, shr_fexp.
  destruct (shr_code m l e (fexp (Zdigits2 m + e) - e) ltac:(lia)) as (Hc & He & Hs).
  destruct (shr (shr_record_of_loc m l) e (fexp (Zdigits2 m + e) - e)) as [mrs' e'].
  cbn [fst snd] in Hc, He, Hs.
  rewrite (rne_round mrs' Hs), Hc.
  fold (rnd_exp m e) in *. fold (rnd_man m e l).
  assert (He' : e' = rnd_exp m e) by lia. clear He. subst e'.
  set (M := rnd_man m e l) in *. set (fe := rnd_exp m e) in *.
  unfold pack.
  destruct (Z.eqb_spec M 0) as [HM|HM].
  - rewrite HM. cbn [Zdigits2]. rewrite shr_nonpos.
    + reflexivity.
    + unfold SpecFloat.fexp. lia.
  - destruct (Z.ltb_spec M (2 ^ prec)) as [Hlt|Hge].
    + assert (Hd : Zdigits2 M <= prec).
      { destruct (Zdigits2_bounds M ltac:(lia)) as (Hd & H1 & H2).
        assert (Zdigits2 M - 1 <= prec - 1); [|lia].
        apply pow2_lt_le; try lia. replace (prec - 1 + 1) with prec by lia. lia. }
      rewrite shr_nonpos by (unfold SpecFloat.fexp; lia).
      cbn [shr_m shr_record_of_loc].
      destruct M as [|p|p]; try lia. reflexivity.
    + assert (HMe : M = 2 ^ prec) by lia.
      assert (Hd : Zdigits2 M = prec + 1).
      { apply Zdigits2_unique; [lia|]. rewrite HMe.
        replace (prec + 1 - 1) with prec by lia.
        split; [lia|]. apply Z.pow_lt_mono_r; lia. }
      rewrite Hd.
      replace (fexp (prec + 1 + fe) - fe) with 1 by (unfold SpecFloat.fexp; lia).
      cbn [shr SpecFloat.iter_pos shr_record_of_loc].
      rewrite shr_1_nonneg by lia. cbn [shr_m].
      rewrite HMe.
      assert (Hpw : 2 ^ prec = 2 ^ (prec - 1) * 2).
      { rewrite Z.mul_comm, <- Z.pow_succ_r by lia. f_equal. lia. }
      rewrite Hpw, Z.div_mul by lia.
      assert (0 < 2 ^ (prec - 1)) by (apply Z.pow_pos_nonneg; lia).
      destruct (2 ^ (prec - 1)) as [|p|p] eqn:Ep; try lia. reflexivity.
Qed.

(** ** Order *)

(** [M * 2^E <= M' * 2^E'], without fractions. *)
Definition dle (M E M' E' : Z) : Prop :=
  (E <= E' /\ M <= M' * 2 ^ (E' - E)) \/ (E' < E /\ M * 2 ^ (E - E') <= M').

Definition fin_man (M : Z) : Z := if M <? 2 ^ prec then M else 2 ^ (prec - 1).
Definition fin_exp (M E : Z) : Z := if M <? 2 ^ prec then E else E + 1.

Lemma pack_fin sx M E :
  pack sx M E =
  if M =? 0 then S754_zero sx
  else if fin_exp M E <=? emax - prec
       then S754_finite sx (Z.to_pos (fin_man M)) (fin_exp M E)
       else S754_infinity sx.
Proof. unfold pack, fin_man, fin_exp. destruct (M =? 0), (M <? 2 ^ prec); reflexivity. Qed.

Lemma pow2_split : 2 ^ prec = 2 * 2 ^ (prec - 1) /\ 0 < 2 ^ (prec - 1).
Proof.
  split; [|apply Z.pow_pos_nonneg; lia].
  rewrite <- Z.pow_succ_r by lia. f_equal. lia.
Qed.

Lemma pow2_ge_2 a : 1 <= a -> 2 <= 2 ^ a /\ (2 <= a -> 4 <= 2 ^ a).
Proof.
  intros Ha. split.
  - change 2 with (2 ^ 1) at 1. apply Z.pow_le_mono_r; lia.
  - intros Ha2. change 4 with (2 ^ 2). apply Z.pow_le_mono_r; lia.
Qed.

Lemma fin_lex M E M' E' :
  canon M E -> canon M' E' -> 0 < M -> dle M E M' E' ->
  0 < fin_man M /\ 0 < fin_man M'
  /\ (fin_exp M E < fin_exp M' E'
      \/ (fin_exp M E = fin_exp M' E' /\ fin_man M <= fin_man M')).
Proof.
  intros ((H0 & H1) & HE & HN) ((H0' & H1') & HE' & HN') HM Hd.
  destruct pow2_split as [HP HH]. unfold fin_man, fin_exp.
  assert (HM' : 0 < M').
  { destruct Hd as [[Hle Hd]|[Hlt Hd]].
    - assert (0 < 2 ^ (E' - E)) by (apply Z.pow_pos_nonneg; lia). nia.
    - assert (0 < 2 ^ (E - E')) by (apply Z.pow_pos_nonneg; lia). nia. }
  split; [destruct (M <? 2 ^ prec); lia|].
  split; [destruct (M' <? 2 ^ prec); lia|].
  destruct Hd as [[Hle Hd]|[Hlt Hd]].
  - destruct (Z.eq_dec E E') as [->|Hne].
    + rewrite Z.sub_diag, Z.pow_0_r in Hd.
      destruct (Z.ltb_spec M (2 ^ prec)), (Z.ltb_spec M' (2 ^ prec)); lia.
    + specialize (HN' ltac:(lia)).
      destruct (Z.ltb_spec M (2 ^ prec)), (Z.ltb_spec M' (2 ^ prec)); lia.
  - specialize (HN ltac:(lia)).
    destruct (pow2_ge_2 (E - E') ltac:(lia)) as [Hp2 Hp4].
    assert (HMP : M' = 2 ^ prec) by nia.
    assert (E - E' = 1).
    { destruct (Z_le_gt_dec 2 (E - E')) as [Hge|]; [|lia].
      specialize (Hp4 Hge). nia. }
    assert (M = 2 ^ (prec - 1)).
    { replace (E - E') with 1 in Hd by lia. change (2 ^ 1) with 2 in Hd. lia. }
    destruct (Z.ltb_spec M (2 ^ prec)), (Z.ltb_spec M' (2 ^ prec)); lia.
Qed.

Lemma SFleb_finite m1 e1 m2 e2 :
  e1 < e2 \/ (e1 = e2 /\ Zpos m1 <= Zpos m2) ->
  SFleb (S754_finite false m1 e1) (S754_finite false m2 e2) = true.
Proof.
  unfold SFleb, SFcompare. intros [H|[-> H]].
  - rewrite (proj2 (Z.compare_lt_iff e1 e2) H). reflexivity.
  - rewrite Z.compare_refl. change (Pos.compare_cont Eq m1 m2) with (Pos.compare m1 m2).
    destruct (Pos.compare_spec m1 m2); try reflexivity. lia.
Qed.

Lemma pack_le M E M' E' :
  canon M E -> canon M' E' -> 0 <= M -> dle M E M' E' ->
  SFleb (pack false M E) (pack false M' E') = true.
Proof.
  intros HC HC' HM Hd. rewrite !pack_fin.
  destruct (Z.eqb_spec M 0) as [HM0|HM0].
  - destruct (M' =? 0); [reflexivity|].
    destruct (_ <=? _); reflexivity.
  - destruct (fin_lex M E M' E' HC HC' ltac:(lia) Hd) as (Hf & Hf' & Hlex).
    assert (HM' : M' <> 0).
    { intros ->. unfold fin_man in Hf'. destruct HC' as ((_ & _) & _).
      destruct Hd as [[Hle Hd]|[Hlt Hd]].
      - lia.
      - assert (0 < 2 ^ (E - E')) by (apply Z.pow_pos_nonneg; lia). nia. }
    destruct (Z.eqb_spec M' 0); [contradiction|].
    destruct (Z.leb_spec (fin_exp M E) (emax - prec)),
             (Z.leb_spec (fin_exp M' E') (emax - prec)); try reflexivity.
    + apply SFleb_finite. rewrite !Z2Pos.id by assumption. exact Hlex.
    + lia.
Qed.

(** Rounding is monotone on codes at a common exponent. *)
Lemma rnd_mono m l m' l' e :
  0 < m -> 4 * m + loc_bits l <= 4 * m' + loc_bits l' ->
  e <= rnd_exp m e -> e <= rnd_exp m' e ->
  dle (rnd_man m e l) (rnd_exp m e) (rnd_man m' e l') (rnd_exp m' e).
Proof.
  intros Hm Hc Hk Hk'.
  pose proof (loc_bits_range l) as Hl. pose proof (loc_bits_range l') as Hl'.
  assert (Hmm : m <= m') by lia.
  pose proof (Zdigits2_mono m m' ltac:(lia)) as Hdd.
  pose proof (rnd_canon m' e l' ltac:(lia) Hk') as (_ & HE' & HN').
  unfold rnd_man, rnd_exp in *.
  set (d := Zdigits2 m) in *. set (d' := Zdigits2 m') in *.
  pose proof (fexp_mono (d + e) (d' + e) ltac:(lia)) as Hfe.
  destruct (Z.eq_dec (fexp (d + e)) (fexp (d' + e))) as [Heq|Hne].
  - left. rewrite <- Heq. rewrite Z.sub_diag, Z.pow_0_r, Z.mul_1_r.
    split; [lia|]. apply rne_mono, stk_mono, Hc.
  - left. split; [lia|].
    set (fe := fexp (d + e)) in *. set (fe' := fexp (d' + e)) in *.
    pose proof (fexp_ge_emin (d + e)) as Hge. fold fe in Hge.
    specialize (HN' ltac:(lia)).
    assert (Hfe' : fe' = d' + e - prec) by (unfold fe', SpecFloat.fexp in *; lia).
    assert (Hd : d < d').
    { destruct (Z.eq_dec d d') as [Hdd'|]; [|lia]. exfalso. apply Hne.
      unfold fe, fe'. rewrite Hdd'. reflexivity. }
    destruct (Zdigits2_bounds m Hm) as (Hd0 & _ & Hub). fold d in Hd0, Hub.
    set (k := Z.to_nat (fe - e)).
    assert (Hkz : Z.of_nat k = fe - e) by (unfold k; lia).
    assert (Hstep : rne (stk k (4 * m + loc_bits l)) <= 2 ^ (prec - 1 + (fe' - fe))).
    { apply rne_le, stk_le_pow.
      assert (Hp : 2 ^ Z.of_nat k * 2 ^ (prec - 1 + (fe' - fe)) = 2 ^ (d' - 1)).
      { rewrite <- Z.pow_add_r by lia. f_equal. lia. }
      assert (2 ^ d <= 2 ^ (d' - 1)) by (apply Z.pow_le_mono_r; lia).
      lia. }
    rewrite Z.pow_add_r in Hstep by lia.
    assert (0 < 2 ^ (fe' - fe)) by (apply Z.pow_pos_nonneg; lia).
    nia.
Qed.

Theorem round_aux_mono m l m' l' e :
  0 < m -> 4 * m + loc_bits l <= 4 * m' + loc_bits l' ->
  e <= rnd_exp m e -> e <= rnd_exp m' e ->
  SFleb (binary_round_aux prec emax false m e l)
        (binary_round_aux prec emax false m' e l') = true.
Proof.
  intros Hm Hc Hk Hk'.
  pose proof (loc_bits_range l) as Hl. pose proof (loc_bits_range l') as Hl'.
  rewrite !round_aux_pack by (assumption || lia).
  pose proof (rnd_canon m e l Hm Hk) as HC.
  pose proof (rnd_canon m' e l' ltac:(lia) Hk') as HC'.
  apply pack_le; try assumption.
  - destruct HC as ((? & _) & _). assumption.
  - apply rnd_mono; assumption.
Qed.

(** ** Exact inputs: scaling and [binary_round] *)

Lemma rnd_exp_scale m e j :
  0 < m -> 0 <= j -> rnd_exp (m * 2 ^ j) (e - j) = rnd_exp m e.
Proof.
  intros Hm Hj. unfold rnd_exp. rewrite Zdigits2_shift by assumption.
  f_equal. lia.
Qed.

Lemma rnd_man_scale m e j :
  0 < m -> 0 <= j -> e <= rnd_exp m e ->
  rnd_man (m * 2 ^ j) (e - j) loc_Exact = rnd_man m e loc_Exact.
Proof.
  intros Hm Hj Hk. unfold rnd_man. rewrite rnd_exp_scale by assumption.
  cbn [loc_bits]. rewrite !Z.add_0_r.
  replace (Z.to_nat (rnd_exp m e - (e - j)))
    with (Z.to_nat (rnd_exp m e - e) + Z.to_nat j)%nat by lia.
  rewrite stk_add. f_equal. f_equal.
  replace (4 * (m * 2 ^ j)) with (2 ^ Z.of_nat (Z.to_nat j) * (4 * m)).
  - apply stk_shift.
  - rewrite Z2Nat.id by assumption. lia.
Qed.

Lemma round_aux_scale sx m e j :
  0 < m -> 0 <= j -> e <= rnd_exp m e ->
  binary_round_aux prec emax sx (m * 2 ^ j) (e - j) loc_Exact
  = binary_round_aux prec emax sx m e loc_Exact.
Proof.
  intros Hm Hj Hk.
  assert (0 < 2 ^ j) by (apply Z.pow_pos_nonneg; lia).
  rewrite !round_aux_pack; try assumption; try nia.
  - rewrite rnd_exp_scale, rnd_man_scale by assumption. reflexivity.
  - rewrite rnd_exp_scale by assumption. lia.
Qed.

Lemma iter_xO m d : Zpos (Pos.iter xO m d) = Zpos m * 2 ^ Zpos d.
Proof.
  induction d as [|d IH] using Pos.peano_ind.
  - cbn. lia.
  - rewrite Pos.iter_succ, Pos2Z.inj_succ, Z.pow_succ_r by lia.
    rewrite Pos2Z.inj_xO, IH. lia.
Qed.

(** [binary_round] rounds the exact number at any exponent low enough. *)
Lemma binary_round_at sx m e e0 :
  e0 <= e -> e0 <= rnd_exp (Zpos m) e ->
  binary_round prec emax sx m e
  = binary_round_aux prec emax sx (Zpos m * 2 ^ (e - e0)) e0 loc_Exact.
Proof.
  intros He Hf. unfold binary_round, shl_align.
  change (fexp (Zpos (digits2_pos m) + e)) with (rnd_exp (Zpos m) e) in *.
  set (fe := rnd_exp (Zpos m) e) in *.
  destruct (fe - e) as [|d|d] eqn:Ed.
  - (* aligned already *)
    replace e0 with (e - (e - e0)) at 2 by lia.
    rewrite round_aux_scale; [reflexivity|lia|lia|fold fe; lia].
  - replace e0 with (e - (e - e0)) at 2 by lia.
    rewrite round_aux_scale; [reflexivity|lia|lia|fold fe; lia].
  - rewrite iter_xO.
    assert (Hfe : fe = e - Zpos d) by lia.
    assert (Hsc : rnd_exp (Zpos m * 2 ^ Zpos d) fe = fe).
    { rewrite Hfe at 1. rewrite rnd_exp_scale by lia. reflexivity. }
    replace (Zpos m * 2 ^ (e - e0)) with (Zpos m * 2 ^ Zpos d * 2 ^ (fe - e0)).
    2:{ rewrite <- Z.mul_assoc, <- Z.pow_add_r by lia. do 2 f_equal. lia. }
    replace e0 with (fe - (fe - e0)) at 2 by lia.
    assert (0 < 2 ^ Zpos d) by (apply Z.pow_pos_nonneg; lia).
    rewrite round_aux_scale; [reflexivity|nia|lia|rewrite Hsc; lia].
Qed.

Lemma dle_scale M E M' E' e0 :
  e0 <= E -> e0 <= E' -> dle M E M' E' ->
  M * 2 ^ (E - e0) <= M' * 2 ^ (E' - e0).
Proof.
  intros H0 H0' [[Hle Hd]|[Hlt Hd]].
  - replace (E' - e0) with ((E' - E) + (E - e0)) by lia.
    rewrite Z.pow_add_r by lia.
    assert (0 <= 2 ^ (E - e0)) by (apply Z.pow_nonneg; lia). nia.
  - replace (E - e0) with ((E - E') + (E' - e0)) by lia.
    rewrite Z.pow_add_r by lia.
    assert (0 <= 2 ^ (E' - e0)) by (apply Z.pow_nonneg; lia). nia.
Qed.

Theorem binary_round_mono m e m' e' :
  dle (Zpos m) e (Zpos m') e' ->
  SFleb (binary_round prec emax false m e) (binary_round prec emax false m' e') = true.
Proof.
  intros Hd.
  set (e0 := Z.min (Z.min e e') (Z.min (rnd_exp (Zpos m) e) (rnd_exp (Zpos m') e'))).
  rewrite (binary_round_at false m e e0), (binary_round_at false m' e' e0)
    by (unfold e0; lia).
  assert (0 < 2 ^ (e - e0)) by (apply Z.pow_pos_nonneg; unfold e0; lia).
  assert (0 < 2 ^ (e' - e0)) by (apply Z.pow_pos_nonneg; unfold e0; lia).
  apply round_aux_mono.
  - nia.
  - cbn [loc_bits].
    assert (Hlo : e0 <= e) by (unfold e0; lia).
    assert (Hlo' : e0 <= e') by (unfold e0; lia).
    pose proof (dle_scale _ _ _ _ e0 Hlo Hlo' Hd). lia.
  - assert (Hr : rnd_exp (Zpos m * 2 ^ (e - e0)) e0 = rnd_exp (Zpos m) e).
    { replace e0 with (e - (e - e0)) at 2 by lia.
      apply rnd_exp_scale; unfold e0; lia. }
    rewrite Hr. unfold e0. lia.
  - assert (Hr : rnd_exp (Zpos m' * 2 ^ (e' - e0)) e0 = rnd_exp (Zpos m') e').
    { replace e0 with (e' - (e' - e0)) at 2 by lia.
      apply rnd_exp_scale; unfold e0; lia. }
    rewrite Hr. unfold e0. lia.
Qed.

(** ** Shape, sign and validity of a rounded number *)

Definition br_exp (m : positive) (e : Z) : Z := rnd_exp (Zpos m) e.
Definition br_man (m : positive) (e : Z) : Z :=
  let e0 := Z.min e (br_exp m e) in
  rnd_man (Zpos m * 2 ^ (e - e0)) e0 loc_Exact.

Lemma binary_round_pack sx m e :
  binary_round prec emax sx m e = pack sx (br_man m e) (br_exp m e)
  /\ canon (br_man m e) (br_exp m e).
Proof.
  unfold br_man, br_exp. set (e0 := Z.min e (rnd_exp (Zpos m) e)).
  assert (H0 : e0 <= e) by (unfold e0; lia).
  assert (H1 : e0 <= rnd_exp (Zpos m) e) by (unfold e0; lia).
  assert (Hp : 0 < 2 ^ (e - e0)) by (apply Z.pow_pos_nonneg; lia).
  assert (Hr : rnd_exp (Zpos m * 2 ^ (e - e0)) e0 = rnd_exp (Zpos m) e).
  { replace e0 with (e - (e - e0)) at 2 by lia. apply rnd_exp_scale; lia. }
  rewrite (binary_round_at sx m e e0 H0 H1).
  rewrite round_aux_pack by (try nia; rewrite Hr; assumption).
  rewrite Hr. split; [reflexivity|].
  rewrite <- Hr. apply rnd_canon; [nia | rewrite Hr; assumption].
Qed.

Lemma pack_opp M E : pack true M E = SFopp (pack false M E).
Proof.
  unfold pack. destruct (M =? 0); [reflexivity|].
  destruct (M <? 2 ^ prec);
    [destruct (E <=? emax - prec) | destruct (E + 1 <=? emax - prec)];
    reflexivity.
Qed.

Lemma binary_round_opp m e :
  binary_round prec emax true m e = SFopp (binary_round prec emax false m e).
Proof.
  rewrite (proj1 (binary_round_pack true m e)), (proj1 (binary_round_pack false m e)).
  apply pack_opp.
Qed.

Lemma pack_valid sx M E :
  canon M E -> valid_binary prec emax (pack sx M E) = true.
Proof.
  intros ((H0 & H1) & HE & HN). destruct pow2_split as [HP HH].
  rewrite pack_fin. destruct (M =? 0) eqn:EM; [reflexivity|].
  apply Z.eqb_neq in EM.
  destruct (Z.leb_spec (fin_exp M E) (emax - prec)) as [Hle|]; [|reflexivity].
  cbn [valid_binary]. unfold bounded, canonical_mantissa.
  apply andb_true_intro. split; [|apply Z.leb_le, Hle].
  apply Z.eqb_eq.
  assert (Hf : 0 < fin_man M) by (unfold fin_man; destruct (M <? 2 ^ prec); lia).
  change (Zpos (digits2_pos (Z.to_pos (fin_man M)))) with (Zdigits2 (Zpos (Z.to_pos (fin_man M)))).
  rewrite Z2Pos.id by assumption.
  unfold fin_man, fin_exp in *.
  destruct (Z.ltb_spec M (2 ^ prec)) as [Hlt|Hge].
  - destruct (Zdigits2_bounds M ltac:(lia)) as (Hd & Hd1 & Hd2).
    assert (Zdigits2 M <= prec).
    { assert (Zdigits2 M - 1 <= prec - 1); [|lia].
      apply pow2_lt_le; try lia. replace (prec - 1 + 1) with prec by lia. lia. }
    destruct (Z.eq_dec E emin) as [->|Hne].
    + unfold SpecFloat.fexp. lia.
    + specialize (HN ltac:(lia)).
      assert (Zdigits2 M = prec).
      { apply Zdigits2_unique; lia. }
      unfold SpecFloat.fexp. lia.
  - assert (Zdigits2 (2 ^ (prec - 1)) = prec).
    { apply Zdigits2_unique; [lia|]. split; [lia|]. lia. }
    unfold SpecFloat.fexp. lia.
Qed.

Lemma binary_round_valid sx m e :
  valid_binary prec emax (binary_round prec emax sx m e) = true.
Proof.
  destruct (binary_round_pack sx m e) as [-> HC]. apply pack_valid, HC.
Qed.

(** Canonical positive floats are ordered as the numbers they denote. *)
Lemma bounded_dle m e m' e' :
  canonical_mantissa prec emax m e = true ->
  canonical_mantissa prec emax m' e' = true ->
  SFleb (S754_finite false m e) (S754_finite false m' e') = true ->
  dle (Zpos m) e (Zpos m') e'.
Proof.
  unfold canonical_mantissa. intros Hc Hc' Hle.
  apply Z.eqb_eq in Hc, Hc'. apply SFleb_key in Hle. cbn in Hle.
  change (Zpos (digits2_pos m)) with (Zdigits2 (Zpos m)) in Hc.
  change (Zpos (digits2_pos m')) with (Zdigits2 (Zpos m')) in Hc'.
  destruct pow2_split as [HP HH].
  destruct (Zdigits2_bounds (Zpos m) ltac:(lia)) as (Hd & Hd1 & Hd2).
  destruct (Zdigits2_bounds (Zpos m') ltac:(lia)) as (Hd' & Hd1' & Hd2').
  left. destruct Hle as [Hle|[_ [Hlt|[-> Hle]]]]; [lia| |].
  - split; [lia|].
    assert (Zdigits2 (Zpos m) <= prec) by (unfold SpecFloat.fexp in Hc; lia).
    assert (Zdigits2 (Zpos m') = prec) by (unfold SpecFloat.fexp in Hc, Hc'; lia).
    assert (2 ^ Zdigits2 (Zpos m) <= 2 ^ prec) by (apply Z.pow_le_mono_r; lia).
    destruct (pow2_ge_2 (e' - e) ltac:(lia)) as [Hp2 _].
    replace (Zdigits2 (Zpos m') - 1) with (prec - 1) in Hd1' by lia.
    nia.
  - rewrite Z.sub_diag, Z.pow_0_r. lia.
Qed.

End Format.

(** ** Signs *)

Definition nonpos (x : spec_float) : Prop :=
  match key x with Some (a, _, _) => a <= 0 | None => False end.
Definition nonneg (x : spec_float) : Prop :=
  match key x with Some (a, _, _) => 0 <= a | None => False end.

Lemma nonpos_nonneg_le x y : nonpos x -> nonneg y -> SFleb x y = true.
Proof.
  intros Hx Hy. apply SFleb_key. unfold key_le, nonpos, nonneg in *.
  destruct x as [[]|[]| |[] mx ex], y as [[]|[]| |[] my ey];
    cbn [key lex_le] in *; lia.
Qed.

(** ** Rounding a scaled float: conversions and products by a constant *)

Section Scale.
Variables precS emaxS prec emax : Z.
Hypothesis HprecS : 0 < precS.
Hypothesis Hprec : 0 < prec.

(** [x * (g * 2^c)] rounded to the format [(prec, emax)]. *)
Definition scale_round (g : positive) (c : Z) (x : spec_float) : spec_float :=
  match x with
  | S754_finite s m e => binary_round prec emax s (m * g) (e + c)
  | _ => x
  end.

Lemma pack_sign M E :
  nonneg (pack prec emax false M E) /\ nonpos (pack prec emax true M E).
Proof.
  unfold pack, nonneg, nonpos. destruct (M =? 0); [cbn; lia|].
  destruct (M <? 2 ^ prec);
    [destruct (E <=? emax - prec) | destruct (E + 1 <=? emax - prec)];
    cbn; lia.
Qed.

Lemma binary_round_sign m e :
  nonneg (binary_round prec emax false m e)
  /\ nonpos (binary_round prec emax true m e).
Proof.
  rewrite (proj1 (binary_round_pack prec emax Hprec false m e)).
  rewrite (proj1 (binary_round_pack prec emax Hprec true m e)).
  split; apply pack_sign.
Qed.

Lemma scale_round_valid g c x :
  valid_binary prec emax (scale_round g c x) = true.
Proof.
  destruct x; try reflexivity. apply binary_round_valid, Hprec.
Qed.

Lemma dle_mul g c M E M' E' :
  dle M E M' E' -> dle (M * Zpos g) (E + c) (M' * Zpos g) (E' + c).
Proof.
  unfold dle. replace (E' + c - (E + c)) with (E' - E) by lia.
  replace (E + c - (E' + c)) with (E - E') by lia.
  intros [[H1 H2]|[H1 H2]]; [left|right]; split; try lia; nia.
Qed.

Theorem scale_round_mono g c x y :
  valid_binary precS emaxS x = true ->
  valid_binary precS emaxS y = true ->
  SFleb x y = true ->
  SFleb (scale_round g c x) (scale_round g c y) = true.
Proof.
  intros Vx Vy Hle.
  destruct x as [sx|sx| |sx mx ex], y as [sy|sy| |sy my ey];
    try discriminate Hle; cbn [scale_round]; try exact Hle.
  - (* zero, finite *)
    destruct sy; [destruct sx; discriminate Hle|].
    apply nonpos_nonneg_le; [destruct sx; cbn; lia | apply binary_round_sign].
  - (* infinity, finite *)
    destruct sx; [|discriminate Hle].
    apply SFleb_key. unfold key_le. cbn [key].
    destruct (binary_round_pack prec emax Hprec sy (my * g) (ey + c)) as [-> _].
    unfold pack. destruct (_ =? 0); [destruct sy; cbn; lia|].
    destruct (_ <? _); destruct (_ <=? _); destruct sy; cbn; lia.
  - (* finite, zero *)
    destruct sx; [|destruct sy; discriminate Hle].
    apply nonpos_nonneg_le; [apply binary_round_sign | destruct sy; cbn; lia].
  - (* finite, infinity *)
    destruct sy; [destruct sx; discriminate Hle|].
    apply SFleb_key. unfold key_le.
    destruct (binary_round_pack prec emax Hprec sx (mx * g) (ex + c)) as [-> _].
    unfold pack. destruct (_ =? 0); [destruct sx; cbn; lia|].
    destruct (_ <? _); destruct (_ <=? _); destruct sx; cbn; lia.
  - (* finite, finite *)
    cbn [valid_binary] in Vx, Vy. unfold bounded in Vx, Vy.
    apply andb_prop in Vx as [Cx _], Vy as [Cy _].
    destruct sx, sy.
    + rewrite !(binary_round_opp prec emax Hprec), SFleb_opp.
      apply binary_round_mono; [assumption|].
      rewrite !Pos2Z.inj_mul. apply dle_mul.
      apply (bounded_dle precS emaxS HprecS); try assumption.
      change (S754_finite true mx ex) with (SFopp (S754_finite false mx ex)) in Hle.
      change (S754_finite true my ey) with (SFopp (S754_finite false my ey)) in Hle.
      rewrite SFleb_opp in Hle. exact Hle.
    + apply nonpos_nonneg_le; apply binary_round_sign.
    + discriminate Hle.
    + apply binary_round_mono; [assumption|].
      rewrite !Pos2Z.inj_mul. apply dle_mul.
      apply (bounded_dle precS emaxS HprecS); assumption.
Qed.

(** The product by a positive constant of full precision is such a
    rounding. *)
Lemma SFmul_scale x g c :
  2 ^ (prec - 1) <= Zpos g ->
  SFmul prec emax x (S754_finite false g c) = scale_round g c x.
Proof.
  intros Hg. destruct x as [sx|sx| |sx mx ex]; cbn [SFmul scale_round].
  - destruct sx; reflexivity.
  - destruct sx; reflexivity.
  - reflexivity.
  - replace (xorb sx false) with sx by (destruct sx; reflexivity).
    rewrite (binary_round_at prec emax Hprec sx (mx * g) (ex + c) (ex + c)).
    + rewrite Z.sub_diag, Z.pow_0_r, Z.mul_1_r. reflexivity.
    + lia.
    + unfold rnd_exp, fexp.
      assert (prec <= Zdigits2 (Zpos (mx * g))); [|lia].
      destruct (Zdigits2_bounds (Zpos (mx * g)) ltac:(lia)) as (Hd & _ & Hub).
      assert (prec - 1 <= Zdigits2 (Zpos (mx * g)) - 1); [|lia].
      apply pow2_lt_le; try lia.
      replace (Zdigits2 (Zpos (mx * g)) - 1 + 1) with (Zdigits2 (Zpos (mx * g))) by lia.
      rewrite Pos2Z.inj_mul in *. nia.
Qed.

End Scale.

(** ** Quotients of normal numbers *)

Lemma shift_match m s :
  0 <= s ->
  match s with
  | Zpos _ => Z.shiftl m s
  | Z0 => m
  | Zneg _ => 0
  end = m * 2 ^ s.
Proof.
  intros Hs. destruct s as [|p|p]; [rewrite Z.pow_0_r; lia| |lia].
  apply Z.shiftl_mul_pow2. lia.
Qed.

Section Quotient.
Variables prec emax : Z.
Hypothesis Hprec : 0 < prec.
Hypothesis Hemax : 2 <= emax.

Local Abbreviation fexp := (SpecFloat.fexp prec emax).
Local Abbreviation emin := (SpecFloat.emin prec emax).

(** [1.0] *)
Definition one : spec_float := S754_finite false (Z.to_pos (2 ^ (prec - 1))) (1 - prec).

Lemma rnd_man_normal m e l :
  0 < m -> e <= rnd_exp prec emax m e -> emin <= Zdigits2 m + e - prec ->
  2 ^ (prec - 1) <= rnd_man prec emax m e l.
Proof.
  intros Hm Hk Hn. unfold rnd_man.
  destruct (Zdigits2_bounds m Hm) as (Hd & H1 & H2).
  pose proof (loc_bits_range l) as Hl.
  assert (Hfe : rnd_exp prec emax m e = Zdigits2 m + e - prec)
    by (unfold rnd_exp, SpecFloat.fexp in *; lia).
  rewrite Hfe in *.
  apply rne_ge, stk_ge_pow. rewrite Z2Nat.id by lia.
  assert (2 ^ (Zdigits2 m - 1) = 2 ^ (Zdigits2 m + e - prec - e) * 2 ^ (prec - 1)).
  { rewrite <- Z.pow_add_r by lia. f_equal. lia. }
  nia.
Qed.

(** Rounding a number of the format gives it back. *)
Lemma round_aux_id m e :
  Zdigits2 (Zpos m) = prec -> emin <= e <= emax - prec ->
  binary_round_aux prec emax false (Zpos m) e loc_Exact = S754_finite false m e.
Proof.
  intros Hd He.
  assert (Hr : rnd_exp prec emax (Zpos m) e = e)
    by (unfold rnd_exp, SpecFloat.fexp; lia).
  rewrite round_aux_pack by (try assumption; lia).
  unfold rnd_man. rewrite Hr, Z.sub_diag. change (Z.to_nat 0) with 0%nat. cbn [stk loc_bits].
  rewrite Z.add_0_r, rne_exact.
  destruct (Zdigits2_bounds (Zpos m) ltac:(lia)) as (_ & _ & Hub).
  rewrite Hd in Hub.
  unfold pack. cbn [Z.eqb].
  destruct (Z.ltb_spec (Zpos m) (2 ^ prec)); [|lia].
  destruct (Z.leb_spec e (emax - prec)); [|lia]. reflexivity.
Qed.

Lemma one_digits : 0 < 2 ^ (prec - 1) /\ Zdigits2 (2 ^ (prec - 1)) = prec.
Proof.
  destruct (pow2_split prec Hprec) as [HP HH]. split; [assumption|].
  apply Zdigits2_unique; lia.
Qed.

Lemma new_location_bits d r :
  0 <= loc_bits (new_location d r) <= 3
  /\ (r = 0 -> loc_bits (new_location d r) = 0).
Proof.
  split; [apply loc_bits_range|].
  intros ->. unfold new_location, new_location_even, new_location_odd.
  destruct (Z.even d); reflexivity.
Qed.

Theorem SFdiv_normal m1 e1 m2 e2 :
  Zdigits2 (Zpos m1) = prec -> Zdigits2 (Zpos m2) = prec ->
  emin <= e1 - e2 - prec ->
  SFleb (SFdiv prec emax (S754_finite false m1 e1) (S754_finite false m2 e2))
        (S754_zero false) = false
  /\ (e1 < e2 \/ (e1 = e2 /\ Zpos m1 <= Zpos m2) ->
      SFleb (SFdiv prec emax (S754_finite false m1 e1) (S754_finite false m2 e2))
            one = true).
Proof.
  intros Hd1 Hd2 Hq.
  destruct (pow2_split prec Hprec) as [HP HH].
  destruct (Zdigits2_bounds (Zpos m1) ltac:(lia)) as (_ & Hl1 & Hu1).
  destruct (Zdigits2_bounds (Zpos m2) ltac:(lia)) as (_ & Hl2 & Hu2).
  rewrite Hd1 in *. rewrite Hd2 in *.
  cbn [SFdiv xorb]. unfold SFdiv_core_binary.
  rewrite Hd1, Hd2.
  set (e' := Z.min (fexp (prec + e1 - (prec + e2))) (e1 - e2)).
  assert (He' : e' = e1 - e2 - prec) by (unfold e', SpecFloat.fexp; lia).
  replace (e1 - e2 - e') with prec by lia.
  rewrite shift_match by lia.
  pose proof (Z_div_mod (Zpos m1 * 2 ^ prec) (Zpos m2) ltac:(lia)) as Hdiv.
  destruct (Z.div_eucl (Zpos m1 * 2 ^ prec) (Zpos m2)) as [q r].
  destruct Hdiv as [Hdiv Hr].
  destruct (new_location_bits (Zpos m2) r) as [Hlb Hlb0].
  set (l := new_location (Zpos m2) r) in *.
  assert (Hq1 : 2 ^ (prec - 1) <= q) by nia.
  assert (Hq2 : q < 2 ^ (prec + 1)).
  { rewrite Z.pow_add_r by lia. change (2 ^ 1) with 2. nia. }
  assert (Hdq : prec <= Zdigits2 q).
  { destruct (Zdigits2_bounds q ltac:(lia)) as (? & _ & Hub).
    assert (prec - 1 <= Zdigits2 q - 1); [|lia].
    apply pow2_lt_le; try lia.
    replace (Zdigits2 q - 1 + 1) with (Zdigits2 q) by lia. lia. }
  assert (Hk : e' <= rnd_exp prec emax q e') by (unfold rnd_exp, SpecFloat.fexp; lia).
  split.
  - rewrite round_aux_pack by (try assumption; lia).
    pose proof (rnd_man_normal q e' l ltac:(lia) Hk ltac:(lia)) as HM.
    unfold pack. destruct (Z.eqb_spec (rnd_man prec emax q e' l) 0); [lia|].
    destruct (_ <? _); destruct (_ <=? _); reflexivity.
  - intros Hle.
    assert (Hj : 0 <= 1 - prec - e') by lia.
    assert (Hone : one = binary_round_aux prec emax false
                           (2 ^ (prec - 1) * 2 ^ (1 - prec - e')) e' loc_Exact).
    { destruct one_digits as [Ho Hod].
      replace e' with ((1 - prec) - (1 - prec - e')) at 2 by lia.
      rewrite round_aux_scale; try assumption; try lia.
      - unfold one. rewrite <- (Z2Pos.id (2 ^ (prec - 1))) at 2 by assumption.
        symmetry. apply round_aux_id.
        + rewrite Z2Pos.id by assumption. exact Hod.
        + unfold SpecFloat.emin. lia.
      - unfold rnd_exp, SpecFloat.fexp. rewrite Hod. lia. }
    rewrite Hone.
    assert (Hpw : 2 ^ (prec - 1) * 2 ^ (1 - prec - e') = 2 ^ (- e')).
    { rewrite <- Z.pow_add_r by lia. f_equal. lia. }
    rewrite Hpw.
    assert (Hpe : 0 < 2 ^ (- e')) by (apply Z.pow_pos_nonneg; lia).
    assert (Hval : Zpos m1 * 2 ^ prec <= Zpos m2 * 2 ^ (- e')).
    { replace (- e') with (prec + (e2 - e1)) by lia.
      rewrite Z.pow_add_r by lia.
      assert (0 < 2 ^ prec) by lia.
      destruct Hle as [Hlt|[Heq Hm]].
      - destruct (pow2_ge_2 (e2 - e1) ltac:(lia)) as [Hp2 _].
        assert (Zpos m1 <= Zpos m2 * 2 ^ (e2 - e1)) by nia.
        rewrite (Z.mul_comm (2 ^ prec)), Z.mul_assoc.
        apply Z.mul_le_mono_nonneg_r; lia.
      - replace (e2 - e1) with 0 by lia. rewrite Z.pow_0_r, Z.mul_1_r.
        apply Z.mul_le_mono_nonneg_r; lia. }
    apply round_aux_mono; try assumption; try lia.
    + cbn [loc_bits].
      destruct (Z_lt_le_dec q (2 ^ (- e'))) as [|Hge]; [lia|].
      assert (q = 2 ^ (- e')) by nia.
      assert (r = 0) by nia. specialize (Hlb0 ltac:(assumption)). lia.
    + unfold rnd_exp, SpecFloat.fexp.
      assert (Zdigits2 (2 ^ (- e')) = - e' + 1).
      { apply Zdigits2_unique; [lia|].
        replace (- e' + 1 - 1) with (- e') by lia. split; [lia|].
        apply Z.pow_lt_mono_r; lia. }
      lia.
Qed.

End Quotient.

(** ** Integers held in a float *)

Section Exact.
Variables prec emax : Z.
Hypothesis Hprec : 0 < prec.
Hypothesis Hemax : prec < emax.

Local Abbreviation fexp := (SpecFloat.fexp prec emax).
Local Abbreviation emin := (SpecFloat.emin prec emax).

(** The float of an integer. *)
Definition of_Z (n : Z) : spec_float := binary_normalize prec emax n 0 false.

(** Two writings of one number round alike. *)
Lemma binary_round_same sx m e m' e' e0 :
  e0 <= e -> e0 <= e' ->
  Zpos m * 2 ^ (e - e0) = Zpos m' * 2 ^ (e' - e0) ->
  binary_round prec emax sx m e = binary_round prec emax sx m' e'.
Proof.
  intros H0 H0' Hv.
  set (e1 := Z.min e0 (Z.min (rnd_exp prec emax (Zpos m) e) (rnd_exp prec emax (Zpos m') e'))).
  rewrite (binary_round_at prec emax Hprec sx m e e1) by (unfold e1; lia).
  rewrite (binary_round_at prec emax Hprec sx m' e' e1) by (unfold e1; lia).
  f_equal.
  replace (e - e1) with ((e - e0) + (e0 - e1)) by lia.
  replace (e' - e1) with ((e' - e0) + (e0 - e1)) by lia.
  rewrite !Z.pow_add_r by (unfold e1; lia).
  rewrite !Z.mul_assoc, Hv. reflexivity.
Qed.

Lemma binary_normalize_same N e N' e' e0 sz :
  e0 <= e -> e0 <= e' ->
  N * 2 ^ (e - e0) = N' * 2 ^ (e' - e0) ->
  binary_normalize prec emax N e sz = binary_normalize prec emax N' e' sz.
Proof.
  intros H0 H0' Hv.
  assert (0 < 2 ^ (e - e0)) by (apply Z.pow_pos_nonneg; lia).
  assert (0 < 2 ^ (e' - e0)) by (apply Z.pow_pos_nonneg; lia).
  destruct N as [|p|p], N' as [|p'|p']; try nia; cbn [binary_normalize].
  - reflexivity.
  - apply (binary_round_same false p e p' e' e0); assumption.
  - apply (binary_round_same true p e p' e' e0); try assumption.
    change (Zneg p) with (- Zpos p) in Hv. change (Zneg p') with (- Zpos p') in Hv.
    lia.
Qed.

(** An integer below [2^prec] is held exactly. *)
Definition small (n : Z) : Prop := Z.abs n < 2 ^ prec.

Lemma of_Z_small n :
  small n -> n <> 0 ->
  let d := Zdigits2 (Z.abs n) in
  of_Z n = S754_finite (n <? 0) (Z.to_pos (Z.abs n * 2 ^ (prec - d))) (d - prec)
  /\ 0 < d <= prec
  /\ Zdigits2 (Z.abs n * 2 ^ (prec - d)) = prec.
Proof.
  intros Hs Hn d. unfold small in Hs.
  assert (Ha : 0 < Z.abs n) by lia.
  destruct (Zdigits2_bounds (Z.abs n) Ha) as (Hd & Hl & Hu). fold d in Hd, Hl, Hu.
  assert (Hdp : d <= prec).
  { assert (d - 1 <= prec - 1); [|lia]. apply pow2_lt_le; try lia.
    replace (prec - 1 + 1) with prec by lia. lia. }
  assert (Hsh : Zdigits2 (Z.abs n * 2 ^ (prec - d)) = prec).
  { rewrite Zdigits2_shift by lia. fold d. lia. }
  split; [|split; [lia|exact Hsh]].
  assert (Hgen : forall sx p, Zpos p = Z.abs n ->
            binary_round prec emax sx p 0
            = S754_finite sx (Z.to_pos (Z.abs n * 2 ^ (prec - d))) (d - prec)).
  { intros sx p Hp.
    assert (Hpp : 0 < 2 ^ (prec - d)) by (apply Z.pow_pos_nonneg; lia).
    assert (Hre : rnd_exp prec emax (Zpos p) 0 = d - prec).
    { unfold rnd_exp, SpecFloat.fexp, SpecFloat.emin. rewrite Hp. fold d. lia. }
    rewrite (binary_round_at prec emax Hprec sx p 0 (d - prec)) by lia.
    replace (0 - (d - prec)) with (prec - d) by lia. rewrite Hp.
    assert (Hre' : rnd_exp prec emax (Z.abs n * 2 ^ (prec - d)) (d - prec) = d - prec).
    { unfold rnd_exp. rewrite Hsh. unfold SpecFloat.fexp, SpecFloat.emin. lia. }
    rewrite round_aux_pack by (try assumption; try nia; rewrite Hre'; lia).
    unfold rnd_man. rewrite Hre', Z.sub_diag. change (Z.to_nat 0) with 0%nat. cbn [stk loc_bits].
    rewrite Z.add_0_r, rne_exact.
    unfold pack.
    destruct (Z.eqb_spec (Z.abs n * 2 ^ (prec - d)) 0); [nia|].
    assert (Z.abs n * 2 ^ (prec - d) < 2 ^ prec).
    { replace prec with (d + (prec - d)) at 2 by lia.
      rewrite Z.pow_add_r by lia. nia. }
    destruct (Z.ltb_spec (Z.abs n * 2 ^ (prec - d)) (2 ^ prec)); [|lia].
    destruct (Z.leb_spec (d - prec) (emax - prec)); [|lia]. reflexivity. }
  unfold of_Z. destruct n as [|p|p]; [contradiction| |]; cbn [binary_normalize].
  - apply Hgen. reflexivity.
  - apply Hgen. reflexivity.
Qed.

(** The signed mantissa of the float of a small integer, aligned to a lower
    exponent. *)
Lemma aligned_value n ez :
  small n -> n <> 0 ->
  let d := Zdigits2 (Z.abs n) in
  ez <= d - prec ->
  cond_Zopp (n <? 0)
    (Zpos (fst (shl_align (Z.to_pos (Z.abs n * 2 ^ (prec - d))) (d - prec) ez)))
  = n * 2 ^ (- ez).
Proof.
  intros Hs Hn d Hez.
  destruct (of_Z_small n Hs Hn) as (_ & (Hd & Hdp) & Hsh). fold d in Hd, Hdp, Hsh.
  assert (Hpp : 0 < 2 ^ (prec - d)) by (apply Z.pow_pos_nonneg; lia).
  assert (Hm : 0 < Z.abs n * 2 ^ (prec - d)) by nia.
  assert (Hal : Zpos (fst (shl_align (Z.to_pos (Z.abs n * 2 ^ (prec - d))) (d - prec) ez))
                = Z.abs n * 2 ^ (- ez)).
  { unfold shl_align. destruct (ez - (d - prec)) as [|q|q] eqn:Eq; cbn [fst]; try lia.
    - rewrite Z2Pos.id by assumption. do 2 f_equal. lia.
    - rewrite iter_xO, Z2Pos.id by assumption.
      rewrite <- Z.mul_assoc, <- Z.pow_add_r by lia. do 2 f_equal. lia. }
  rewrite Hal. unfold cond_Zopp.
  destruct (Z.ltb_spec n 0); [rewrite Z.abs_neq by lia | rewrite Z.abs_eq by lia]; lia.
Qed.

Lemma of_Z_zero : of_Z 0 = S754_zero false.
Proof. reflexivity. Qed.

Lemma negb_ltb n : n <> 0 -> negb (n <? 0) = (- n <? 0).
Proof. intros Hn. destruct (Z.ltb_spec n 0), (Z.ltb_spec (- n) 0); try reflexivity; lia. Qed.

Theorem SFsub_exact a b :
  small a -> small b ->
  SFsub prec emax (of_Z a) (of_Z b) = of_Z (a - b).
Proof.
  intros Ha Hb.
  destruct (Z.eq_dec a 0) as [->|Hna], (Z.eq_dec b 0) as [->|Hnb].
  - reflexivity.
  - destruct (of_Z_small b Hb Hnb) as (Eb & _ & _).
    destruct (of_Z_small (- b) ltac:(unfold small in *; lia) ltac:(lia)) as (Eb' & _ & _).
    rewrite Z.sub_0_l, Eb, Eb'. rewrite of_Z_zero. cbn [SFsub].
    rewrite Z.abs_opp, negb_ltb by assumption. reflexivity.
  - destruct (of_Z_small a Ha Hna) as (Ea & _ & _).
    rewrite Z.sub_0_r, Ea, of_Z_zero. reflexivity.
  - destruct (of_Z_small a Ha Hna) as (Ea & (Hda & Hpa) & _).
    destruct (of_Z_small b Hb Hnb) as (Eb & (Hdb & Hpb) & _).
    rewrite Ea, Eb. cbn [SFsub].
    set (ez := Z.min (Zdigits2 (Z.abs a) - prec) (Zdigits2 (Z.abs b) - prec)).
    rewrite (aligned_value a ez Ha Hna) by (unfold ez; lia).
    rewrite (aligned_value b ez Hb Hnb) by (unfold ez; lia).
    unfold of_Z. apply (binary_normalize_same _ _ _ _ ez); try (unfold ez; lia).
    rewrite Z.sub_diag, Z.pow_0_r. replace (0 - ez) with (- ez) by lia. ring.
Qed.

Theorem SFadd_exact a b :
  small a -> small b ->
  SFadd prec emax (of_Z a) (of_Z b) = of_Z (a + b).
Proof.
  intros Ha Hb.
  destruct (Z.eq_dec a 0) as [->|Hna], (Z.eq_dec b 0) as [->|Hnb].
  - reflexivity.
  - destruct (of_Z_small b Hb Hnb) as (Eb & _ & _).
    rewrite Z.add_0_l, Eb, of_Z_zero. reflexivity.
  - destruct (of_Z_small a Ha Hna) as (Ea & _ & _).
    rewrite Z.add_0_r, Ea, of_Z_zero. reflexivity.
  - destruct (of_Z_small a Ha Hna) as (Ea & (Hda & Hpa) & _).
    destruct (of_Z_small b Hb Hnb) as (Eb & (Hdb & Hpb) & _).
    rewrite Ea, Eb. cbn [SFadd].
    set (ez := Z.min (Zdigits2 (Z.abs a) - prec) (Zdigits2 (Z.abs b) - prec)).
    rewrite (aligned_value a ez Ha Hna) by (unfold ez; lia).
    rewrite (aligned_value b ez Hb Hnb) by (unfold ez; lia).
    unfold of_Z. apply (binary_normalize_same _ _ _ _ ez); try (unfold ez; lia).
    rewrite Z.sub_diag, Z.pow_0_r. replace (0 - ez) with (- ez) by lia. ring.
Qed.

Theorem SFmul_square d :
  small d -> SFmul prec emax (of_Z d) (of_Z d) = of_Z (d * d).
Proof.
  intros Hd. destruct (Z.eq_dec d 0) as [->|Hn]; [reflexivity|].
  destruct (of_Z_small d Hd Hn) as (Ed & (Hd0 & Hdp) & Hsh).
  set (dd := Zdigits2 (Z.abs d)) in *.
  assert (Hpp : 0 < 2 ^ (prec - dd)) by (apply Z.pow_pos_nonneg; lia).
  assert (Hm : 0 < Z.abs d * 2 ^ (prec - dd)) by nia.
  rewrite Ed. cbn [SFmul]. rewrite xorb_nilpotent.
  set (m := Z.to_pos (Z.abs d * 2 ^ (prec - dd))).
  assert (Hmz : Zpos m = Z.abs d * 2 ^ (prec - dd)) by (unfold m; apply Z2Pos.id; assumption).
  assert (Hsq : 0 < d * d) by nia.
  (* the product, as the rounding of an exact number *)
  assert (Hk : dd - prec + (dd - prec) <= rnd_exp prec emax (Zpos (m * m)) (dd - prec + (dd - prec))).
  { unfold rnd_exp, SpecFloat.fexp.
    assert (prec <= Zdigits2 (Zpos (m * m))); [|lia].
    destruct (Zdigits2_bounds (Zpos m) ltac:(lia)) as (_ & Hl & _).
    rewrite Hmz, Hsh in Hl.
    destruct (Zdigits2_bounds (Zpos (m * m)) ltac:(lia)) as (? & _ & Hu).
    assert (prec - 1 <= Zdigits2 (Zpos (m * m)) - 1); [|lia].
    apply pow2_lt_le; try lia.
    replace (Zdigits2 (Zpos (m * m)) - 1 + 1) with (Zdigits2 (Zpos (m * m))) by lia.
    rewrite Pos2Z.inj_mul in *.
    assert (0 < 2 ^ (prec - 1)) by (apply Z.pow_pos_nonneg; lia). nia. }
  transitivity (binary_round prec emax false (m * m) (dd - prec + (dd - prec))).
  - rewrite (binary_round_at prec emax Hprec false (m * m) _ (dd - prec + (dd - prec)))
      by (lia || exact Hk).
    rewrite Z.sub_diag, Z.pow_0_r, Z.mul_1_r. reflexivity.
  - unfold of_Z. destruct (d * d) as [|p|p] eqn:Ep; try lia. cbn [binary_normalize].
    apply (binary_round_same false (m * m) _ p 0 (dd - prec + (dd - prec))); try lia.
    rewrite Z.sub_diag, Z.pow_0_r, Z.mul_1_r, Pos2Z.inj_mul, Hmz.
    replace (0 - (dd - prec + (dd - prec))) with ((prec - dd) + (prec - dd)) by lia.
    rewrite Z.pow_add_r by lia. rewrite <- Ep.
    replace (d * d) with (Z.abs d * Z.abs d) by lia. ring.
Qed.

Lemma SFabs_of_Z n : small n -> SFabs (of_Z n) = of_Z (Z.abs n).
Proof.
  intros Hs. destruct (Z.eq_dec n 0) as [->|Hn]; [reflexivity|].
  destruct (of_Z_small n Hs Hn) as (E & _ & _).
  destruct (of_Z_small (Z.abs n) ltac:(unfold small in *; lia) ltac:(lia)) as (E' & _ & _).
  rewrite E, E'. cbn [SFabs]. rewrite Z.abs_idemp.
  destruct (Z.ltb_spec (Z.abs n) 0); [lia|]. reflexivity.
Qed.

End Exact.

End Rounding.

(* ===================================================================== *)
(** * Part 6: properties of the parser                                     *)
(* ===================================================================== *)

Module ParserFacts.
Import Parser.
Open Scope string_scope.

(** The test of line 17. *)
Definition is_hex6 (s : string) : bool :=
  all_hex s && (String.length s =? 6)%nat.

Lemma length_six (s : string) :
  String.length s = 6%nat ->
  exists a b c d e f,
    s = String a (String b (String c (String d (String e (String f EmptyString))))).
Proof.
  intros H.
  do 6 (destruct s as [|? s]; [discriminate H|]).
  destruct s; [|discriminate H].
  do 6 eexists; reflexivity.
Qed.

Lemma parse_hex6 (s : string) :
  is_hex6 (strip_hash (strip s)) = true ->
  exists a b c d e f,
    strip_hash (strip s)
    = String a (String b (String c (String d (String e (String f EmptyString)))))
    /\ parse_color s = inr (hex_pair a b, hex_pair c d, hex_pair e f).
Proof.
  intros H. unfold parse_color. fold (is_hex6 (strip_hash (strip s))).
  rewrite H. apply andb_prop in H as [_ Hl]. apply Nat.eqb_eq in Hl.
  destruct (length_six _ Hl) as (a & b & c & d & e & f & ->).
  exists a, b, c, d, e, f. split; reflexivity.
Qed.

Lemma parse_tokens (s : string) :
  is_hex6 (strip_hash (strip s)) = false ->
  parse_color s =
    match tokens (strip_hash (strip s)) with
    | [p0; p1; p2] =>
        match py_int p0, py_int p1, py_int p2 with
        | Some r, Some g, Some b =>
            if in_byte_range r && in_byte_range g && in_byte_range b
            then inr (r, g, b) else inl OutOfRange
        | _, _, _ => inl NotIntegers
        end
    | _ => inl BadShape
    end.
Proof.
  intros H. unfold parse_color. fold (is_hex6 (strip_hash (strip s))).
  rewrite H. reflexivity.
Qed.

Lemma in_byte_range_spec (v : Z) :
  in_byte_range v = true <-> (0 <= v <= 255)%Z.
Proof. unfold in_byte_range. rewrite andb_true_iff. lia. Qed.


End ParserFacts.

(* ===================================================================== *)
(** * Part 7: the recolouring core, pixel by pixel                         *)
(* ===================================================================== *)

Module RecolorFacts.
Import Ieee Recolor.

(** The pixel of row [i], column [j]. *)
Definition pixel_at (arr : image) (i j : nat) : option rgba :=
  row ← arr !! i; row !! j.


Definition rgb_of (p : rgba) : color := (chR p, chG p, chB p).

Lemma metric_of_string_some (metric : string) (m : metric_kind) :
  metric_of_string metric = Some m <->
  (metric = "euclidean"%string /\ m = Euclidean)
  \/ (metric = "channel"%string /\ m = Channel).
Proof.
  unfold metric_of_string.
  destruct (String.eqb_spec metric "euclidean") as [->|Hn1].
  - split; [intros [= <-]; auto | intros [[_ ->]|[H _]]; [reflexivity|discriminate H]].
  - destruct (String.eqb_spec metric "channel") as [->|Hn2].
    + split; [intros [= <-]; auto | intros [[H _]|[_ ->]]; [discriminate H|reflexivity]].
    + split; [discriminate | intros [[H _]|[H _]]; contradiction].
Qed.


Lemma recolor_some pr arr src target tol metric m :
  metric_of_string metric = Some m ->
  recolor pr arr src target tol metric = Some (recolor_with pr m tol src target arr).
Proof. intros H. unfold recolor. rewrite H. reflexivity. Qed.

Lemma recolor_inv pr arr src target tol metric arr' :
  recolor pr arr src target tol metric = Some arr' ->
  exists m, metric_of_string metric = Some m
            /\ arr' = recolor_with pr m tol src target arr.
Proof.
  unfold recolor. destruct (metric_of_string metric) as [m|]; [|discriminate].
  intros [= <-]. eauto.
Qed.



Lemma lookup_map {A B} (f : A -> B) (l : list A) (i : nat) :
  map f l !! i = f <$> l !! i.
Proof.
  revert i. induction l as [|a l IH]; intros [|i]; simpl; auto.
Qed.

Lemma pixel_at_recolor_with pr m tol src target arr i j :
  pixel_at (recolor_with pr m tol src target arr) i j
  = (fun p => paint target (mask_at pr m tol src p) p) <$> pixel_at arr i j.
Proof.
  unfold pixel_at, recolor_with. rewrite lookup_map.
  destruct (arr !! i) as [row|]; simpl; [|reflexivity].
  apply lookup_map.
Qed.


Lemma paint_alpha target b p : chA (paint target b p) = chA p.
Proof. destruct b; reflexivity. Qed.

Lemma paint_true target p :
  rgb_of (paint target true p) = target.
Proof. destruct target as [[r g] b]. reflexivity. Qed.

(** Closeness reads the three colour channels only. *)
Lemma close_rgb pr m tol src p q :
  rgb_of p = rgb_of q -> close pr m tol src p = close pr m tol src q.
Proof.
  destruct p, q. unfold rgb_of. simpl. intros [= -> -> ->].
  destruct m, pr; reflexivity.
Qed.

(** A painted pixel is painted again to the same value. *)
Lemma paint_mask_idem pr m tol src target p :
  let q := paint target (mask_at pr m tol src p) p in
  paint target (mask_at pr m tol src q) q = q.
Proof.
  intros q. subst q. destruct (mask_at pr m tol src p) eqn:E; cbn [paint].
  - clear E. match goal with |- paint _ ?b _ = _ => destruct b end; reflexivity.
  - rewrite E. reflexivity.
Qed.

Lemma recolor_with_idem pr m tol src target arr :
  recolor_with pr m tol src target (recolor_with pr m tol src target arr)
  = recolor_with pr m tol src target arr.
Proof.
  unfold recolor_with. rewrite map_map. apply map_ext. intros row.
  rewrite map_map. apply map_ext. intros p.
  apply paint_mask_idem.
Qed.


(** C2: a pixel whose alpha is 0 leaves [recolor] with all four channels
    unchanged, whatever the tolerance, the colours and the metric. *)
Theorem transparent_pixels_kept pr arr src target tol metric arr' i j p :
  recolor pr arr src target tol metric = Some arr' ->
  pixel_at arr i j = Some p ->
  chA p = 0 ->
  pixel_at arr' i j = Some p.
Proof.
  intros Hr Hp Ha. apply recolor_inv in Hr as (m & _ & ->).
  rewrite pixel_at_recolor_with, Hp. simpl. f_equal.
  unfold mask_at. rewrite Ha, andb_false_r. reflexivity.
Qed.

(** C5: when the target differs from the source and is not close to it,
    recolouring the output once more changes nothing. *)
Theorem recolor_idempotent pr arr src target tol metric m arr1 :
  metric_of_string metric = Some m ->
  src <> target ->
  (forall a, close pr m tol src (Rgba target.1.1 target.1.2 target.2 a) = false) ->
  recolor pr arr src target tol metric = Some arr1 ->
  recolor pr arr1 src target tol metric = Some arr1.
Proof.
  intros Hm _ _ H1. rewrite (recolor_some _ _ _ _ _ _ _ Hm) in H1.
  injection H1 as <-. rewrite (recolor_some _ _ _ _ _ _ _ Hm).
  f_equal. apply recolor_with_idem.
Qed.

(** ** The scenario of the specification *)

(** The Python literal [0.3]: the binary64 number nearest to 3/10. *)
Definition tol_0_3 : spec_float := b64_div (b64_of_Z 3) (b64_of_Z 10).

Example tol_0_3_bits : tol_0_3 = S754_finite false 5404319552844595 (-54).
Proof. reflexivity. Qed.

Definition scene : image :=
  [[Rgba 0 0 0 255; Rgba 255 255 255 255];
   [Rgba 0 0 0 0; Rgba 6 145 15 255]].

Definition scene_expected : image :=
  [[Rgba 6 145 15 255; Rgba 255 255 255 255];
   [Rgba 0 0 0 0; Rgba 6 145 15 255]].

Definition black : color := DEFAULT_SOURCE.
Definition green : color := DEFAULT_TARGET.

(** The scenario as the specification words it: the expected output, with
    pixels 1 and 4 matched by the mask and pixels 2 and 3 not. *)
Definition scenario_as_stated (pr : promotion) : Prop :=
  recolor pr scene black green tol_0_3 "euclidean" = Some scene_expected
  /\ mask pr Euclidean tol_0_3 black scene = [[true; false]; [false; true]].

(** The normalised distance of the target green from black is about 0.3303. *)
Example green_norm :
  norm ValueBased black (Rgba 6 145 15 255) = S754_finite false 11083989 (-25)
  /\ to_b32 tol_0_3 = S754_finite false 10066330 (-25)
  /\ norm Nep50 black (Rgba 6 145 15 255) = S754_finite false 5950671349729104 (-54).
Proof. vm_compute. auto. Qed.

(** C6, as stated, fails: pixel 4 is not within tolerance. *)
Lemma scenario_pixel4_not_matched :
  ~ scenario_as_stated ValueBased /\ ~ scenario_as_stated Nep50.
Proof. split; intros [_ H]; vm_compute in H; discriminate H. Qed.

(** C6 (amended): the scenario yields the expected output; the mask holds at
    pixel 1 only: pixel 2 is too far, pixel 3 is close but has alpha 0, and
    pixel 4, at normalised distance 0.3303 > 0.3, is not close and keeps its
    value because it is not selected. *)
Theorem scenario_output (pr : promotion) :
  recolor pr scene black green tol_0_3 "euclidean" = Some scene_expected
  /\ mask pr Euclidean tol_0_3 black scene = [[true; false]; [false; false]]
  /\ close pr Euclidean tol_0_3 black (Rgba 0 0 0 0) = true
  /\ close pr Euclidean tol_0_3 black (Rgba 6 145 15 255) = false.
Proof. destruct pr; vm_compute; auto. Qed.

End RecolorFacts.

(* ===================================================================== *)
(** * Part 8: the mask as a function of the tolerance                      *)
(* ===================================================================== *)

Module MaskFacts.
Import Ieee Recolor Rounding.

Lemma prec32_pos : 0 < prec32.
Proof. reflexivity. Qed.

Lemma prec64_pos : 0 < prec64.
Proof. reflexivity. Qed.

(** The conversion to binary32 is a rounding of the float scaled by one. *)
Lemma to_b32_scale x : to_b32 x = scale_round prec32 emax32 1 0 x.
Proof.
  destruct x as [s|s| |s m e]; try reflexivity.
  cbn [to_b32 scale_round]. rewrite Pos.mul_1_r, Z.add_0_r. reflexivity.
Qed.

(** [255.0] *)
Definition m255 : positive := 8972014882652160.

Lemma b64_255 : b64_of_Z 255 = S754_finite false m255 (-45).
Proof. reflexivity. Qed.

Lemma thr_scale tol : thr tol = scale_round prec64 emax64 m255 (-45) tol.
Proof.
  unfold thr, b64_mul. rewrite b64_255.
  apply SFmul_scale; [exact prec64_pos | vm_compute; discriminate].
Qed.

(** A larger tolerance is a larger threshold, in binary32 too. *)
Lemma to_b32_mono x y :
  is_b64 x -> is_b64 y -> SFleb x y = true ->
  SFleb (to_b32 x) (to_b32 y) = true.
Proof.
  intros Vx Vy H. rewrite !to_b32_scale.
  exact (scale_round_mono prec64 emax64 prec32 emax32 prec64_pos prec32_pos
           1 0 x y Vx Vy H).
Qed.

Lemma thr_mono x y :
  is_b64 x -> is_b64 y -> SFleb x y = true ->
  is_b64 (thr x) /\ is_b64 (thr y) /\ SFleb (thr x) (thr y) = true.
Proof.
  intros Vx Vy H. rewrite !thr_scale. split; [|split].
  - apply scale_round_valid, prec64_pos.
  - apply scale_round_valid, prec64_pos.
  - exact (scale_round_mono prec64 emax64 prec64 emax64 prec64_pos prec64_pos
             m255 (-45) x y Vx Vy H).
Qed.

Lemma close_monotone pr m tol1 tol2 src p :
  is_b64 tol1 -> is_b64 tol2 -> SFleb tol1 tol2 = true ->
  close pr m tol1 src p = true -> close pr m tol2 src p = true.
Proof.
  intros V1 V2 Hle. destruct m; cbn [close].
  - unfold close_euclidean. destruct pr; intros H.
    + eapply SFleb_trans; [exact H|]. apply to_b32_mono; assumption.
    + eapply SFleb_trans; [exact H|]. exact Hle.
  - unfold close_channel.
    destruct (thr_mono tol1 tol2 V1 V2 Hle) as (W1 & W2 & Ht).
    pose proof (to_b32_mono _ _ W1 W2 Ht) as Hc.
    intros H. apply andb_prop in H as [H Hb]. apply andb_prop in H as [Hr Hg].
    rewrite (SFleb_trans _ _ _ Hr Hc), (SFleb_trans _ _ _ Hg Hc),
      (SFleb_trans _ _ _ Hb Hc). reflexivity.
Qed.

(** C4: for a fixed pixel, source colour and metric, a pixel in the mask at
    one tolerance is in the mask at every larger tolerance. *)
Theorem mask_monotone pr m tol1 tol2 src p :
  is_b64 tol1 -> is_b64 tol2 ->
  SFltb tol1 tol2 = true ->
  mask_at pr m tol1 src p = true ->
  mask_at pr m tol2 src p = true.
Proof.
  intros V1 V2 Hlt. unfold mask_at. intros H.
  apply andb_prop in H as [Hc Ha]. rewrite Ha, andb_true_r.
  apply (close_monotone pr m tol1 tol2 src p V1 V2 (SFltb_leb _ _ Hlt) Hc).
Qed.

End MaskFacts.

Module ToleranceFacts.
Import Ieee Recolor Rounding RecolorFacts MaskFacts.

(** ** The squared distance is an integer *)

Definition sq_dist (src : color) (p : rgba) : Z :=
  (chR p - src.1.1) * (chR p - src.1.1)
  + (chG p - src.1.2) * (chG p - src.1.2)
  + (chB p - src.2) * (chB p - src.2).

Lemma emax32_ok : prec32 < emax32.
Proof. reflexivity. Qed.

Lemma emax64_ok : prec64 < emax64.
Proof. reflexivity. Qed.

Lemma small32 n : Z.abs n < 16777216 -> small prec32 n.
Proof. intros H. exact H. Qed.

Lemma diff_exact v s :
  valid_channel v -> valid_channel s -> diff v s = b32_of_Z (v - s).
Proof.
  unfold valid_channel. intros Hv Hs. unfold diff, b32_sub.
  apply (SFsub_exact prec32 emax32 prec32_pos emax32_ok); apply small32; lia.
Qed.

Lemma sum_sq_exact src p :
  valid_color src -> valid_pixel p ->
  sum_sq src p = b32_of_Z (sq_dist src p) /\ 0 <= sq_dist src p <= 195075.
Proof.
  intros (Hr & Hg & Hb) (Pr & Pg & Pb & _). unfold valid_channel in *.
  unfold sum_sq, sq_dist.
  rewrite !diff_exact by assumption.
  set (dr := chR p - src.1.1) in *. set (dg := chG p - src.1.2) in *.
  set (db := chB p - src.2) in *.
  assert (Hdr : -255 <= dr <= 255) by (unfold dr; lia).
  assert (Hdg : -255 <= dg <= 255) by (unfold dg; lia).
  assert (Hdb : -255 <= db <= 255) by (unfold db; lia).
  assert (0 <= dr * dr <= 65025) by nia.
  assert (0 <= dg * dg <= 65025) by nia.
  assert (0 <= db * db <= 65025) by nia.
  split; [|lia].
  unfold b32_mul, b32_add.
  rewrite !(SFmul_square prec32 emax32 prec32_pos emax32_ok) by (apply small32; lia).
  change (of_Z prec32 emax32) with b32_of_Z.
  change b32_of_Z with (of_Z prec32 emax32).
  rewrite (SFadd_exact prec32 emax32 prec32_pos emax32_ok) by (apply small32; lia).
  rewrite (SFadd_exact prec32 emax32 prec32_pos emax32_ok) by (apply small32; lia).
  reflexivity.
Qed.

Lemma sq_dist_zero src p : sq_dist src p = 0 <-> rgb_of p = src.
Proof.
  unfold sq_dist, rgb_of. destruct src as [[sr sg] sb]. cbn [fst snd].
  split.
  - intros H.
    pose proof (Z.square_nonneg (chR p - sr)) as H1.
    pose proof (Z.square_nonneg (chG p - sg)) as H2.
    pose proof (Z.square_nonneg (chB p - sb)) as H3.
    assert (E1 : (chR p - sr) * (chR p - sr) = 0) by lia.
    assert (E2 : (chG p - sg) * (chG p - sg) = 0) by lia.
    assert (E3 : (chB p - sb) * (chB p - sb) = 0) by lia.
    apply Z.mul_eq_0 in E1, E2, E3. f_equal; [f_equal|]; lia.
  - intros [= -> -> ->]. lia.
Qed.

(** ** Floats between two normal floats *)

Lemma between_normal prec emax lm le hm he x :
  0 < prec ->
  valid_binary prec emax x = true ->
  SpecFloat.emin prec emax < le ->
  SFleb (S754_finite false lm le) x = true ->
  SFleb x (S754_finite false hm he) = true ->
  exists m e,
    x = S754_finite false m e
    /\ Zdigits2 (Zpos m) = prec
    /\ (le < e \/ (le = e /\ Zpos lm <= Zpos m))
    /\ (e < he \/ (e = he /\ Zpos m <= Zpos hm)).
Proof.
  intros Hprec Hv Hle Hlo Hhi.
  apply SFleb_key in Hlo, Hhi. unfold key_le in *.
  destruct x as [[]|[]| |[] m e]; cbn [key lex_le] in *; try lia.
  exists m, e. split; [reflexivity|].
  cbn [valid_binary] in Hv. unfold bounded, canonical_mantissa in Hv.
  apply andb_prop in Hv as [Hc _]. apply Z.eqb_eq in Hc.
  change (Zpos (digits2_pos m)) with (Zdigits2 (Zpos m)) in Hc.
  unfold SpecFloat.fexp in Hc.
  split; [lia|]. split; lia.
Qed.

Lemma round_aux_valid prec emax sx m e l :
  0 < prec -> 0 < m -> e <= rnd_exp prec emax m e ->
  valid_binary prec emax (binary_round_aux prec emax sx m e l) = true.
Proof.
  intros Hp Hm Hk. rewrite round_aux_pack by assumption.
  apply pack_valid; [assumption|]. apply rnd_canon; assumption.
Qed.

(** ** The distance *)

(** [1.0] and the largest distance, in binary32. *)
Definition one32 : spec_float := S754_finite false 8388608 (-23).
Definition far32 : spec_float := S754_finite false 14472739 (-15).

Lemma pow2_sq a : 0 <= a -> 2 ^ (2 * a) = 2 ^ a * 2 ^ a.
Proof. intros Ha. rewrite <- Z.pow_add_r by lia. f_equal. lia. Qed.

(** The square root of a positive integer below [2^18], before rounding:
    a mantissa of 24 bits and its position. *)
Lemma sqrt_core n :
  1 <= n < 262144 ->
  exists q e' l,
    b32_sqrt (b32_of_Z n) = binary_round_aux prec32 emax32 false q e' l
    /\ -23 <= e' <= -15
    /\ q * q <= n * 2 ^ (- 2 * e') < (q + 1) * (q + 1)
    /\ 8388608 <= q < 16777216.
Proof.
  intros Hn.
  assert (Hsm : small prec32 n) by (apply small32; lia).
  assert (Hnz : n <> 0) by lia.
  pose proof (of_Z_small prec32 emax32 prec32_pos emax32_ok n Hsm Hnz) as Hof.
  cbv zeta in Hof. destruct Hof as (E & (Hd0 & Hdp) & Hsh).
  rewrite Z.abs_eq in * by lia.
  set (d := Zdigits2 n) in *.
  destruct (Zdigits2_bounds n ltac:(lia)) as (_ & Hl & Hu). fold d in Hl, Hu.
  assert (Hd18 : d <= 18).
  { assert (d - 1 <= 17); [|lia]. apply pow2_lt_le; lia. }
  change (of_Z prec32 emax32 n) with (b32_of_Z n) in E.
  destruct (Z.ltb_spec n 0) as [|_]; [lia|].
  assert (Hpp : 0 < 2 ^ (prec32 - d)) by (apply Z.pow_pos_nonneg; unfold prec32; lia).
  set (mx := n * 2 ^ (prec32 - d)) in *.
  assert (Hmx : 0 < mx) by (unfold mx; nia).
  rewrite E. unfold b32_sqrt. cbn [SFsqrt]. unfold SFsqrt_core_binary.
  rewrite Z2Pos.id by assumption. rewrite Hsh.
  set (e' := Z.min (SpecFloat.fexp prec32 emax32 (Z.div2 (prec32 + (d - prec32) + 1)))
                   (Z.div2 (d - prec32))).
  assert (He' : e' = (d + 1) / 2 - 24).
  { unfold e', SpecFloat.fexp, SpecFloat.emin, prec32, emax32.
    rewrite !Z.div2_div. replace (24 + (d - 24) + 1) with (d + 1) by lia.
    Z.div_mod_to_equations. lia. }
  set (s := d - prec32 - 2 * e').
  assert (Hs : 23 <= s <= 24)
    by (unfold s, prec32; rewrite He'; Z.div_mod_to_equations; lia).
  rewrite shift_match by lia.
  pose proof (Z.sqrtrem_spec (mx * 2 ^ s)) as Hsq.
  assert (Hps : 0 < 2 ^ s) by (apply Z.pow_pos_nonneg; lia).
  destruct (Z.sqrtrem (mx * 2 ^ s)) as [q r].
  specialize (Hsq ltac:(nia)). destruct Hsq as [Hsq Hr].
  (* the radicand *)
  assert (Hrad : mx * 2 ^ s = n * 2 ^ (- 2 * e')).
  { unfold mx. rewrite <- Z.mul_assoc, <- Z.pow_add_r by (unfold prec32; lia).
    f_equal. f_equal. unfold s, prec32. lia. }
  assert (Hmxb : 8388608 <= mx < 16777216).
  { destruct (Zdigits2_bounds mx Hmx) as (_ & Hl' & Hu'). rewrite Hsh in Hl', Hu'.
    exact (conj Hl' Hu'). }
  assert (Hps2 : 8388608 <= 2 ^ s <= 16777216).
  { split.
    - change 8388608 with (2 ^ 23). apply Z.pow_le_mono_r; lia.
    - change 16777216 with (2 ^ 24). apply Z.pow_le_mono_r; lia. }
  exists q, e'.
  eexists. split; [reflexivity|].
  split; [rewrite He'; Z.div_mod_to_equations; lia|].
  rewrite <- Hrad. split; [nia|]. split; nia.
Qed.

Lemma far32_as_code e' :
  e' <= -15 ->
  binary_round_aux prec32 emax32 false (14472739 * 2 ^ (-15 - e')) e' loc_Exact = far32.
Proof.
  intros He.
  replace e' with (-15 - (-15 - e')) at 2 by lia.
  rewrite (round_aux_scale prec32 emax32 prec32_pos) by (try lia; vm_compute; discriminate).
  reflexivity.
Qed.

Lemma rnd_exp_24 q e' :
  8388608 <= q < 16777216 -> -149 <= e' ->
  rnd_exp prec32 emax32 q e' = e'.
Proof.
  intros Hq He. unfold rnd_exp.
  assert (Zdigits2 q = 24) by (apply Zdigits2_unique; [lia|exact Hq]).
  unfold SpecFloat.fexp, SpecFloat.emin, prec32, emax32. lia.
Qed.

Lemma dist_far : b32_sqrt (b32_of_Z 195075) = far32.
Proof. reflexivity. Qed.

(** The distance of two different colours lies between [1.0] and the
    distance of opposite corners of the colour cube. *)
Lemma dist_bounds n :
  1 <= n <= 195075 ->
  is_b32 (b32_sqrt (b32_of_Z n))
  /\ SFleb one32 (b32_sqrt (b32_of_Z n)) = true
  /\ SFleb (b32_sqrt (b32_of_Z n)) far32 = true.
Proof.
  intros Hn. destruct (Z.eq_dec n 195075) as [->|Hne].
  { rewrite dist_far. repeat split. }
  destruct (sqrt_core n ltac:(lia)) as (q & e' & l & -> & He' & (Hq1 & Hq2) & Hq).
  pose proof (loc_bits_range l) as Hl.
  pose proof (rnd_exp_24 q e' Hq ltac:(lia)) as Hre.
  assert (Hj : 0 < 2 ^ (- e')) by (apply Z.pow_pos_nonneg; lia).
  assert (Hsqe : 2 ^ (- 2 * e') = 2 ^ (- e') * 2 ^ (- e')).
  { replace (- 2 * e') with (2 * - e') by lia. apply pow2_sq. lia. }
  rewrite Hsqe in Hq1, Hq2.
  split; [|split].
  - apply round_aux_valid; [exact prec32_pos|lia|lia].
  - apply (SFleb_trans _ (S754_finite false 8388608 e')).
    + apply SFleb_key. unfold key_le, one32. cbn [key lex_le]. lia.
    + rewrite <- (round_aux_id prec32 emax32 prec32_pos 8388608 e')
        by (try reflexivity; unfold SpecFloat.emin, prec32, emax32; lia).
      apply (round_aux_mono prec32 emax32 prec32_pos); try lia.
      * cbn [loc_bits]. lia.
      * rewrite rnd_exp_24 by lia. lia.
  - rewrite <- (far32_as_code e') by lia.
    assert (Hjj : 0 < 2 ^ (-15 - e')) by (apply Z.pow_pos_nonneg; lia).
    assert (Hsplit : 2 ^ (- e') = 32768 * 2 ^ (-15 - e')).
    { change 32768 with (2 ^ 15). rewrite <- Z.pow_add_r by lia. f_equal. lia. }
    apply (round_aux_mono prec32 emax32 prec32_pos); try lia.
    + cbn [loc_bits]. rewrite Hsplit in Hq1.
      assert (q + 1 <= 14472739 * 2 ^ (-15 - e')); [|lia].
      set (P := 2 ^ (-15 - e')) in *. nia.
    + unfold rnd_exp, SpecFloat.fexp, SpecFloat.emin, prec32, emax32.
      assert (Zdigits2 (14472739 * 2 ^ (-15 - e')) = 24 + (-15 - e')).
      { rewrite Zdigits2_shift by lia. reflexivity. }
      lia.
Qed.

(** ** The normalised distance *)

(** [norm] as a function of the distance. *)
Definition norm_of (pr : promotion) (d : spec_float) : spec_float :=
  match pr with
  | ValueBased => b32_div d (to_b32 max_dist)
  | Nep50 => b64_div (to_b64 d) max_dist
  end.

(** [1.0] as the comparison of [norm <= tolerance] reads it. *)
Definition one_of (pr : promotion) : spec_float :=
  match pr with
  | ValueBased => to_b32 (b64_of_Z 1)
  | Nep50 => b64_of_Z 1
  end.

Lemma max_dist_bits : max_dist = S754_finite false 7769992811508829 (-44).
Proof. reflexivity. Qed.

Lemma max_dist_b32 : to_b32 max_dist = far32.
Proof. reflexivity. Qed.

Lemma to_b64_scale x : to_b64 x = scale_round prec64 emax64 1 0 x.
Proof.
  destruct x as [s|s| |s m e]; try reflexivity.
  cbn [to_b64 scale_round]. rewrite Pos.mul_1_r, Z.add_0_r. reflexivity.
Qed.

Lemma to_b64_mono x y :
  is_b32 x -> is_b32 y -> SFleb x y = true ->
  SFleb (to_b64 x) (to_b64 y) = true.
Proof.
  intros Vx Vy H. rewrite !to_b64_scale.
  exact (scale_round_mono prec32 emax32 prec64 emax64 prec32_pos prec64_pos
           1 0 x y Vx Vy H).
Qed.

Lemma norm_bounds pr n :
  1 <= n <= 195075 ->
  SFleb (norm_of pr (b32_sqrt (b32_of_Z n))) (S754_zero false) = false
  /\ SFleb (norm_of pr (b32_sqrt (b32_of_Z n))) (one_of pr) = true.
Proof.
  intros Hn. destruct (dist_bounds n Hn) as (V & Hlo & Hhi).
  set (d := b32_sqrt (b32_of_Z n)) in *.
  destruct pr; cbn [norm_of one_of].
  - destruct (between_normal prec32 emax32 8388608 (-23) 14472739 (-15) d
                prec32_pos V ltac:(reflexivity) Hlo Hhi)
      as (m & e & -> & Hd & Ho1 & Ho2).
    rewrite max_dist_b32. unfold far32, b32_div.
    destruct (SFdiv_normal prec32 emax32 prec32_pos ltac:(unfold emax32; lia)
                m e 14472739 (-15) Hd ltac:(reflexivity)) as [Hpos Hone].
    { unfold SpecFloat.emin, prec32, emax32. lia. }
    split; [exact Hpos | exact (Hone Ho2)].
  - assert (V1 : is_b32 one32) by reflexivity.
    assert (V2 : is_b32 far32) by reflexivity.
    pose proof (to_b64_mono _ _ V1 V Hlo) as Hlo64.
    pose proof (to_b64_mono _ _ V V2 Hhi) as Hhi64.
    assert (Hfar : SFleb (to_b64 far32) max_dist = true) by reflexivity.
    pose proof (SFleb_trans _ _ _ Hhi64 Hfar) as Hhi'.
    assert (V64 : is_b64 (to_b64 d)).
    { rewrite to_b64_scale. apply scale_round_valid, prec64_pos. }
    change (to_b64 one32) with (S754_finite false 4503599627370496 (-52)) in Hlo64.
    rewrite max_dist_bits in Hhi' |- *.
    destruct (between_normal prec64 emax64 4503599627370496 (-52)
                7769992811508829 (-44) (to_b64 d) prec64_pos V64
                ltac:(reflexivity) Hlo64 Hhi') as (m & e & Ed & Hd & Ho1 & Ho2).
    rewrite Ed.
    unfold b64_div.
    destruct (SFdiv_normal prec64 emax64 prec64_pos ltac:(unfold emax64; lia)
                m e 7769992811508829 (-44) Hd ltac:(reflexivity)) as [Hpos Hone].
    { unfold SpecFloat.emin, prec64, emax64. lia. }
    split; [exact Hpos | exact (Hone Ho2)].
Qed.

Lemma norm_norm_of pr src p : norm pr src p = norm_of pr (dist src p).
Proof. destruct pr; reflexivity. Qed.

Lemma norm_zero pr : norm_of pr (b32_sqrt (b32_of_Z 0)) = S754_zero false.
Proof. destruct pr; reflexivity. Qed.

(** ** Closeness at the ends of the tolerance range *)

Section Ends.
Variables (src : color) (p : rgba).
Hypothesis Hsrc : valid_color src.
Hypothesis Hp : valid_pixel p.

Lemma norm_int pr :
  norm pr src p = norm_of pr (b32_sqrt (b32_of_Z (sq_dist src p)))
  /\ 0 <= sq_dist src p <= 195075.
Proof.
  destruct (sum_sq_exact src p Hsrc Hp) as [E Hb].
  rewrite norm_norm_of. unfold dist. rewrite E. auto.
Qed.

(** At tolerance [0.0] the euclidean metric holds exactly when the colours
    are equal. *)
Lemma euclidean_at_zero pr :
  close_euclidean pr (S754_zero false) src p = true <-> rgb_of p = src.
Proof.
  destruct (norm_int pr) as [E Hb]. rewrite <- sq_dist_zero.
  assert (Hc : close_euclidean pr (S754_zero false) src p
               = SFleb (norm pr src p) (S754_zero false))
    by (destruct pr; reflexivity).
  rewrite Hc, E.
  destruct (Z.eq_dec (sq_dist src p) 0) as [H0|Hn].
  - rewrite H0, norm_zero. split; auto.
  - destruct (norm_bounds pr (sq_dist src p) ltac:(lia)) as [Hpos _].
    rewrite Hpos. split; [discriminate | contradiction].
Qed.

(** At tolerance [1.0] the euclidean metric holds for every pixel. *)
Lemma euclidean_at_one pr :
  close_euclidean pr (b64_of_Z 1) src p = true.
Proof.
  destruct (norm_int pr) as [E Hb].
  assert (Hc : close_euclidean pr (b64_of_Z 1) src p
               = SFleb (norm pr src p) (one_of pr))
    by (destruct pr; reflexivity).
  rewrite Hc, E.
  destruct (Z.eq_dec (sq_dist src p) 0) as [H0|Hn].
  - rewrite H0, norm_zero. destruct pr; reflexivity.
  - apply norm_bounds. lia.
Qed.

End Ends.

(** ** The channel metric at the ends *)

Lemma of_Z_mono a b :
  0 <= a <= b -> SFleb (b32_of_Z a) (b32_of_Z b) = true.
Proof.
  intros [Ha Hab]. unfold b32_of_Z.
  destruct a as [|pa|pa]; [|clear Ha|lia]; destruct b as [|pb|pb]; try lia;
    cbn [binary_normalize].
  - reflexivity.
  - apply nonpos_nonneg_le; [cbn; lia|].
    apply (binary_round_sign prec32 emax32 prec32_pos).
  - apply (binary_round_mono prec32 emax32 prec32_pos).
    left. rewrite Z.sub_diag, Z.pow_0_r. lia.
Qed.

Lemma abs_diff v s :
  valid_channel v -> valid_channel s ->
  SFabs (diff v s) = b32_of_Z (Z.abs (v - s)) /\ 0 <= Z.abs (v - s) <= 255.
Proof.
  intros Hv Hs. rewrite diff_exact by assumption. unfold valid_channel in *.
  split; [|lia].
  apply (SFabs_of_Z prec32 emax32 prec32_pos emax32_ok). apply small32. lia.
Qed.

Lemma of_Z_le_zero n :
  0 <= n <= 255 -> (SFleb (b32_of_Z n) (S754_zero false) = true <-> n = 0).
Proof.
  intros Hn. destruct (Z.eq_dec n 0) as [->|Hnz]; [split; reflexivity|].
  pose proof (of_Z_small prec32 emax32 prec32_pos emax32_ok n
                ltac:(apply small32; lia) Hnz) as Hof.
  cbv zeta in Hof. destruct Hof as (E & _).
  change (of_Z prec32 emax32 n) with (b32_of_Z n) in E. rewrite E.
  destruct (Z.ltb_spec n 0); [lia|]. split; [discriminate | contradiction].
Qed.

Lemma thr_zero : to_b32 (thr (S754_zero false)) = S754_zero false.
Proof. reflexivity. Qed.

Lemma thr_one : to_b32 (thr (b64_of_Z 1)) = b32_of_Z 255.
Proof. reflexivity. Qed.

Section ChannelEnds.
Variables (src : color) (p : rgba).
Hypothesis Hsrc : valid_color src.
Hypothesis Hp : valid_pixel p.

Lemma channel_at_zero :
  close_channel (S754_zero false) src p = true <-> rgb_of p = src.
Proof.
  destruct Hsrc as (Sr & Sg & Sb). destruct Hp as (Pr & Pg & Pb & _).
  unfold close_channel. rewrite thr_zero.
  destruct (abs_diff (chR p) src.1.1 Pr Sr) as [-> Br].
  destruct (abs_diff (chG p) src.1.2 Pg Sg) as [-> Bg].
  destruct (abs_diff (chB p) src.2 Pb Sb) as [-> Bb].
  rewrite !andb_true_iff, !of_Z_le_zero by assumption.
  unfold rgb_of. destruct src as [[sr sg] sb]. cbn [fst snd] in *.
  split.
  - intros [[H1 H2] H3]. f_equal; [f_equal|]; lia.
  - intros [= -> -> ->]. lia.
Qed.

Lemma channel_at_one : close_channel (b64_of_Z 1) src p = true.
Proof.
  destruct Hsrc as (Sr & Sg & Sb). destruct Hp as (Pr & Pg & Pb & _).
  unfold close_channel. rewrite thr_one.
  destruct (abs_diff (chR p) src.1.1 Pr Sr) as [-> Br].
  destruct (abs_diff (chG p) src.1.2 Pg Sg) as [-> Bg].
  destruct (abs_diff (chB p) src.2 Pb Sb) as [-> Bb].
  rewrite !of_Z_mono by lia. reflexivity.
Qed.

(** A pixel of the source colour is close at every tolerance that is not
    negative. *)
Lemma close_exact pr m tol :
  is_b64 tol -> SFleb (S754_zero false) tol = true ->
  rgb_of p = src -> close pr m tol src p = true.
Proof.
  intros Vt Ht Heq.
  assert (V0 : is_b64 (S754_zero false)) by reflexivity.
  destruct m; cbn [close].
  - destruct (norm_int src p Hsrc Hp pr) as [E _].
    apply sq_dist_zero in Heq. rewrite Heq, norm_zero in E.
    unfold close_euclidean. rewrite E. destruct pr.
    + apply (to_b32_mono _ _ V0 Vt Ht).
    + exact Ht.
  - apply (close_monotone pr Channel (S754_zero false) tol src p V0 Vt Ht).
    cbn [close]. apply channel_at_zero, Heq.
Qed.

End ChannelEnds.

(** C3: at tolerance 0.0 the mask selects exactly the pixels of the source
    colour with positive alpha, and the two metrics agree; a pixel of the
    source colour with positive alpha is recoloured to the target (a colour
    of 8-bit components) at every tolerance that is not negative, under both
    metrics; at tolerance 1.0 both metrics select every pixel with positive
    alpha. *)
Theorem tolerance_edges :
  (forall pr m src p,
      valid_color src -> valid_pixel p ->
      (mask_at pr m (S754_zero false) src p = true
       <-> rgb_of p = src /\ 0 < chA p)
      /\ close pr Euclidean (S754_zero false) src p
         = close pr Channel (S754_zero false) src p)
  /\ (forall pr m tol src target arr i j p,
        valid_color src -> valid_color target -> valid_pixel p ->
        is_b64 tol -> SFleb (S754_zero false) tol = true ->
        pixel_at arr i j = Some p ->
        rgb_of p = src -> 0 < chA p ->
        mask_at pr m tol src p = true
        /\ exists p',
            pixel_at (recolor_with pr m tol src target arr) i j = Some p'
            /\ rgb_of p' = target /\ chA p' = chA p)
  /\ (forall pr m src p,
        valid_color src -> valid_pixel p -> 0 < chA p ->
        mask_at pr m (b64_of_Z 1) src p = true).
Proof.
  split; [|split].
  - intros pr m src p Hs Hp.
    pose proof (euclidean_at_zero src p Hs Hp pr) as He.
    pose proof (channel_at_zero src p Hs Hp) as Hc.
    split.
    + unfold mask_at. rewrite andb_true_iff, Z.ltb_lt.
      destruct m; cbn [close]; [rewrite He | rewrite Hc]; reflexivity.
    + cbn [close]. apply eq_true_iff_eq. rewrite He, Hc. reflexivity.
  - intros pr m tol src target arr i j p Hs _ Hp Vt Ht Hat Heq Ha.
    assert (Hm : mask_at pr m tol src p = true).
    { unfold mask_at. rewrite (close_exact src p Hs Hp pr m tol Vt Ht Heq).
      apply Z.ltb_lt, Ha. }
    split; [exact Hm|].
    exists (paint target true p).
    rewrite pixel_at_recolor_with, Hat. cbn [fmap option_fmap option_map].
    rewrite Hm. split; [reflexivity|]. split; [apply paint_true | apply paint_alpha].
  - intros pr m src p Hs Hp Ha. unfold mask_at.
    apply andb_true_intro. split; [|apply Z.ltb_lt, Ha].
    destruct m; cbn [close].
    + apply euclidean_at_one; assumption.
    + apply channel_at_one; assumption.
Qed.

Lemma tolerance_edges_witness :
  (mask_at ValueBased Channel (S754_zero false) black (Rgba 0 0 0 255) = true
   <-> rgb_of (Rgba 0 0 0 255) = black /\ 0 < chA (Rgba 0 0 0 255))
  /\ mask_at Nep50 Euclidean tol_0_3 black (Rgba 0 0 0 255) = true
  /\ mask_at Nep50 Euclidean (b64_of_Z 1) black (Rgba 255 255 255 255) = true.
Proof.
  assert (Vs : valid_color black) by (repeat split; cbn; lia).
  assert (Vp : forall v a, 0 <= v <= 255 -> 0 <= a <= 255 ->
                 valid_pixel (Rgba v v v a)) by (repeat split; cbn; lia).
  split; [|split].
  - apply (proj1 tolerance_edges ValueBased Channel black (Rgba 0 0 0 255) Vs).
    apply Vp; lia.
  - apply (proj1 (proj2 tolerance_edges) Nep50 Euclidean tol_0_3 black green
             scene 0%nat 0%nat (Rgba 0 0 0 255) Vs).
    + repeat split; cbn; lia.
    + apply Vp; lia.
    + reflexivity.
    + reflexivity.
    + reflexivity.
    + reflexivity.
    + cbn; lia.
  - apply (proj2 (proj2 tolerance_edges) Nep50 Euclidean black
             (Rgba 255 255 255 255) Vs).
    + apply Vp; lia.
    + cbn; lia.
Defined.

Lemma mask_monotone_witness :
  mask_at ValueBased Channel (b64_of_Z 1) black (Rgba 6 60 15 255) = true.
Proof.
  apply (mask_monotone ValueBased Channel tol_0_3 (b64_of_Z 1) black
           (Rgba 6 60 15 255)); reflexivity.
Defined.

End ToleranceFacts.

(* ===================================================================== *)
(** * Part 9: [convert_png_color] and the file system                      *)
(* ===================================================================== *)

Module ConverterFacts.
Import Ieee Recolor Converter RecolorFacts.
Open Scope string_scope.

(** The world after [evs] were performed and the files became [fs]. *)
Definition after (w : world) (fs : gmap string node) (evs : list io_event)
    : world :=
  World fs (trace w ++ evs).

Definition is_regular (w : world) (p : string) : bool :=
  match files w !! p with Some (Regular _) => true | _ => false end.

(** ** The five ways a call ends *)

Ltac run_step :=
  cbv beta iota zeta
    delta [convert_png_color bind isfile load_rgba save_png emit raise ret
           recolor files trace negb mbind option_bind after is_regular].

Section Runs.
Variables (pr : promotion) (input_path : string) (output_path : option string).
Variables (source_color target_color : color) (tolerance : spec_float).
Variable metric : string.

Local Abbreviation call w :=
  (convert_png_color pr input_path output_path source_color target_color
     tolerance metric w).
Local Abbreviation out := (resolve_output input_path output_path).

Lemma run_missing w :
  is_regular w input_path = false ->
  call w = (inl FileNotFoundError, after w (files w) [EvIsFile input_path]).
Proof.
  destruct w as [fs tr]. run_step.
  destruct (fs !! input_path) as [[|c]|]; try discriminate; reflexivity.
Qed.

Lemma run_undecodable w :
  files w !! input_path = Some (Regular None) ->
  call w = (inl UnidentifiedImageError,
            after w (files w) [EvIsFile input_path; EvOpen input_path]).
Proof.
  destruct w as [fs tr]. run_step. intros H.
  repeat (progress (rewrite ?H; run_step)).
  rewrite <- app_assoc. reflexivity.
Qed.

Lemma run_bad_metric w pic :
  files w !! input_path = Some (Regular (Some pic)) ->
  metric_of_string metric = None ->
  call w = (inl ValueError,
            after w (files w) [EvIsFile input_path; EvOpen input_path]).
Proof.
  destruct w as [fs tr]. run_step. intros H Hm.
  repeat (progress (rewrite ?H, ?Hm; run_step)).
  rewrite <- app_assoc. reflexivity.
Qed.

Lemma run_save_refused w pic m :
  files w !! input_path = Some (Regular (Some pic)) ->
  metric_of_string metric = Some m ->
  files w !! out = Some Directory ->
  call w = (inl IsADirectoryError,
            after w (files w)
              [EvIsFile input_path; EvOpen input_path; EvSave out]).
Proof.
  destruct w as [fs tr]. run_step. intros H Hm Ho.
  repeat (progress (rewrite ?H, ?Hm, ?Ho; run_step)).
  rewrite <- !app_assoc. reflexivity.
Qed.

Lemma run_saved w pic m :
  files w !! input_path = Some (Regular (Some pic)) ->
  metric_of_string metric = Some m ->
  files w !! out <> Some Directory ->
  call w = (inr out,
            after w (<[out := Regular (Some (PicRGBA
                        (recolor_with pr m tolerance source_color target_color
                           (to_rgba pic))))]> (files w))
              [EvIsFile input_path; EvOpen input_path; EvSave out]).
Proof.
  destruct w as [fs tr]. run_step. intros H Hm Ho.
  repeat (progress (rewrite ?H, ?Hm; run_step)).
  destruct (fs !! out) as [[|c]|] eqn:E; try contradiction;
    rewrite <- !app_assoc; reflexivity.
Qed.

(** Every call ends in one of the five ways. *)
Lemma run_cases w :
  (is_regular w input_path = false
   /\ call w = (inl FileNotFoundError, after w (files w) [EvIsFile input_path]))
  \/ (files w !! input_path = Some (Regular None)
      /\ call w = (inl UnidentifiedImageError,
                 after w (files w) [EvIsFile input_path; EvOpen input_path]))
  \/ (exists pic, files w !! input_path = Some (Regular (Some pic))
      /\ metric_of_string metric = None
      /\ call w = (inl ValueError,
                 after w (files w) [EvIsFile input_path; EvOpen input_path]))
  \/ (exists pic m, files w !! input_path = Some (Regular (Some pic))
      /\ metric_of_string metric = Some m
      /\ files w !! out = Some Directory
      /\ call w = (inl IsADirectoryError,
                 after w (files w)
                   [EvIsFile input_path; EvOpen input_path; EvSave out]))
  \/ (exists pic m, files w !! input_path = Some (Regular (Some pic))
      /\ metric_of_string metric = Some m
      /\ files w !! out <> Some Directory
      /\ call w = (inr out,
                 after w (<[out := Regular (Some (PicRGBA
                             (recolor_with pr m tolerance source_color
                                target_color (to_rgba pic))))]> (files w))
                   [EvIsFile input_path; EvOpen input_path; EvSave out])).
Proof.
  destruct (is_regular w input_path) eqn:Hreg.
  2:{ left. split; [reflexivity | apply run_missing, Hreg]. }
  right. unfold is_regular in Hreg.
  destruct (files w !! input_path) as [[|[pic|]]|] eqn:Hin; try discriminate.
  2:{ left. split; [reflexivity | apply run_undecodable, Hin]. }
  right. destruct (metric_of_string metric) as [m|] eqn:Hm.
  2:{ left. exists pic. repeat split; auto. eapply run_bad_metric; eauto. }
  right. destruct (files w !! out) as [[|c]|] eqn:Hd.
  - left. exists pic, m. repeat split; auto. eapply run_save_refused; eauto.
  - right. exists pic, m. split; [reflexivity|]. split; [reflexivity|].
    split; [discriminate|]. eapply run_saved; eauto. rewrite Hd. discriminate.
  - right. exists pic, m. split; [reflexivity|]. split; [reflexivity|].
    split; [discriminate|]. eapply run_saved; eauto. rewrite Hd. discriminate.
Qed.
End Runs.

(** ** Normalisation to four channels *)




Lemma transparent_pixels_kept_witness :
  pixel_at scene_expected 1 0 = Some (Rgba 0 0 0 0).
Proof.
  apply (transparent_pixels_kept ValueBased scene black green tol_0_3
           "euclidean" scene_expected 1 0 (Rgba 0 0 0 0)).
  - vm_compute. reflexivity.
  - reflexivity.
  - reflexivity.
Defined.

Lemma recolor_idempotent_witness :
  recolor ValueBased scene_expected black green tol_0_3 "euclidean"
  = Some scene_expected.
Proof.
  apply (recolor_idempotent ValueBased scene black green tol_0_3 "euclidean"
           Euclidean scene_expected).
  - reflexivity.
  - discriminate.
  - intros a. vm_compute. reflexivity.
  - vm_compute. reflexivity.
Defined.

(** ** The default output path *)





Definition png_world : world :=
  World {[ "sprite.png" := Regular (Some (PicRGBA scene));
           "sprite_converted.png" := Regular None ]} [].

Lemma png_world_input :
  files png_world !! "sprite.png" = Some (Regular (Some (PicRGBA scene))).
Proof. apply lookup_insert_eq. Qed.

Lemma png_world_output :
  files png_world !! default_output "sprite.png" <> Some Directory.
Proof.
  change (default_output "sprite.png") with "sprite_converted.png".
  unfold png_world, files.
  rewrite lookup_insert_ne by discriminate.
  rewrite lookup_singleton_eq. discriminate.
Qed.


(** ** Errors *)


Definition empty_world : world := World ∅ [].


(** C10: when the call raises FileNotFound or UnsupportedMetric the files
    are what they were and nothing was saved; FileNotFound follows the
    existence test alone, UnsupportedMetric follows the existence test and
    the loading of a decodable image; a missing input gives FileNotFound
    whatever the metric. *)
Theorem errors_write_nothing :
  (forall pr inp outp src target tol metric w e w',
      convert_png_color pr inp outp src target tol metric w = (inl e, w') ->
      error_class e = FileNotFound \/ error_class e = UnsupportedMetric ->
      files w' = files w
      /\ exists evs,
          trace w' = (trace w ++ evs)%list
          /\ (forall p, EvSave p ∉ evs)
          /\ (error_class e = FileNotFound ->
                evs = [EvIsFile inp] /\ is_regular w inp = false)
          /\ (error_class e = UnsupportedMetric ->
                evs = [EvIsFile inp; EvOpen inp]
                /\ (exists pic, files w !! inp = Some (Regular (Some pic)))
                /\ metric_of_string metric = None))
  /\ (forall pr inp outp src target tol metric w,
        is_regular w inp = false ->
        (convert_png_color pr inp outp src target tol metric w).1
        = inl FileNotFoundError)
  /\ (forall pr inp outp src target tol metric w,
        files w !! inp = Some (Regular None) ->
        (convert_png_color pr inp outp src target tol metric w).1
        = inl UnidentifiedImageError).
Proof.
  split; [|split].
  - intros pr inp outp src target tol metric w e w' Hrun Hcls.
    destruct (run_cases pr inp outp src target tol metric w)
      as [(Hreg & H)|[(Hin & H)|[(pic & Hin & Hm & H)|[(pic & m & _ & _ & _ & H)
         |(pic & m & _ & _ & _ & H)]]]];
      rewrite H in Hrun; try discriminate Hrun; injection Hrun as <- <-.
    + split; [reflexivity|]. exists [EvIsFile inp]. split; [reflexivity|].
      split; [|split].
      * intros p Hp. apply list_elem_of_singleton in Hp. discriminate Hp.
      * auto.
      * discriminate.
    + destruct Hcls as [Hc|Hc]; discriminate Hc.
    + split; [reflexivity|]. exists [EvIsFile inp; EvOpen inp].
      split; [reflexivity|]. split; [|split].
      * intros p Hp. apply elem_of_cons in Hp as [Hp|Hp]; [discriminate Hp|].
        apply list_elem_of_singleton in Hp. discriminate Hp.
      * discriminate.
      * intros _. split; [reflexivity|]. split; [exists pic; exact Hin|exact Hm].
    + destruct Hcls as [Hc|Hc]; discriminate Hc.
  - intros pr inp outp src target tol metric w Hreg.
    rewrite (run_missing pr inp outp src target tol metric w Hreg). reflexivity.
  - intros pr inp outp src target tol metric w Hin.
    rewrite (run_undecodable pr inp outp src target tol metric w Hin). reflexivity.
Qed.

Lemma errors_write_nothing_witness :
  (convert_png_color Nep50 "missing.png" (Some "out.png") black green tol_0_3
     "manhattan" empty_world).1 = inl FileNotFoundError.
Proof.
  destruct errors_write_nothing as (_ & H & _).
  apply (H Nep50 "missing.png" (Some "out.png") black green tol_0_3 "manhattan"
           empty_world eq_refl).
Defined.

End ConverterFacts.

(* ===================================================================== *)
(** * Part 10: further properties of the parser                            *)
(* ===================================================================== *)

Module ParserProps.
Import Parser ParserFacts.
Open Scope string_scope.

(** ** Whitespace around the text *)

Lemma str_app_cons (c : ascii) (a b : string) :
  String c a +:+ b = String c (a +:+ b).
Proof. reflexivity. Qed.

Lemma str_app_nil (b : string) : "" +:+ b = b.
Proof. reflexivity. Qed.

Lemma all_space_app (a b : string) :
  all_space (a +:+ b) = all_space a && all_space b.
Proof.
  induction a as [|c a IH]; [reflexivity|].
  rewrite str_app_cons. cbn [all_space]. rewrite IH, andb_assoc. reflexivity.
Qed.

Lemma lstrip_all_space (s : string) : all_space s = true -> lstrip s = "".
Proof.
  induction s as [|c s IH]; [reflexivity|].
  cbn [all_space lstrip]. intros H. apply andb_prop in H as [-> H]. auto.
Qed.

Lemma rstrip_all_space (s : string) : all_space s = true -> rstrip s = "".
Proof.
  destruct s as [|c s]; [reflexivity|]. cbn [rstrip]. intros ->. reflexivity.
Qed.

Lemma lstrip_pad (l s : string) :
  all_space l = true -> lstrip (l +:+ s) = lstrip s.
Proof.
  induction l as [|c l IH]; [reflexivity|].
  rewrite str_app_cons. cbn [all_space lstrip]. intros H.
  apply andb_prop in H as [-> H]. auto.
Qed.

Lemma lstrip_app (s r : string) :
  all_space s = false -> lstrip (s +:+ r) = lstrip s +:+ r.
Proof.
  induction s as [|c s IH]; [discriminate|].
  rewrite str_app_cons. cbn [all_space lstrip].
  destruct (is_space c); [exact IH | reflexivity].
Qed.

Lemma rstrip_pad (s r : string) :
  all_space r = true -> rstrip (s +:+ r) = rstrip s.
Proof.
  intros Hr. induction s as [|c s IH].
  - apply rstrip_all_space, Hr.
  - rewrite str_app_cons. cbn [rstrip]. rewrite IH, <- str_app_cons.
    rewrite all_space_app, Hr, andb_true_r. reflexivity.
Qed.

Lemma strip_pad (l s r : string) :
  all_space l = true -> all_space r = true ->
  strip (l +:+ s +:+ r) = strip s.
Proof.
  intros Hl Hr. unfold strip. rewrite (lstrip_pad _ _ Hl).
  destruct (all_space s) eqn:Hs.
  - rewrite (lstrip_pad _ _ Hs), (lstrip_all_space _ Hr), (lstrip_all_space _ Hs).
    reflexivity.
  - rewrite (lstrip_app _ _ Hs). apply rstrip_pad, Hr.
Qed.

Lemma parse_color_strip (s t : string) :
  strip s = strip t -> parse_color s = parse_color t.
Proof. unfold parse_color. intros ->. reflexivity. Qed.

(** X2: whitespace before and after the text of a colour is ignored: the padded
    text gives the same colour, or the same error, as the text alone. *)
Theorem parse_color_padding (l s r : string) :
  all_space l = true -> all_space r = true ->
  parse_color (l +:+ s +:+ r) = parse_color s.
Proof. intros Hl Hr. apply parse_color_strip, strip_pad; assumption. Qed.

Lemma parse_color_padding_witness :
  parse_color (" " +:+ "6,145,15" +:+ String "010" "") = inr (6, 145, 15)%Z.
Proof.
  rewrite (parse_color_padding " " "6,145,15" (String "010" "")); reflexivity.
Defined.

(** X3: the empty string and a string of whitespace are format errors. *)
Theorem parse_color_blank (s : string) :
  all_space s = true -> parse_color s = inl BadShape.
Proof.
  intros H. rewrite (parse_color_strip s ""); [reflexivity|].
  unfold strip. rewrite (lstrip_all_space _ H). reflexivity.
Qed.

Lemma parse_color_blank_witness : parse_color "  " = inl BadShape.
Proof. apply (parse_color_blank "  "). reflexivity. Defined.

(** ** The range of the result *)

Lemma hex_val_range (a : ascii) : is_hex a = true -> (0 <= hex_val a <= 15)%Z.
Proof.
  destruct a as [[] [] [] [] [] [] [] []]; cbv; intros H; try discriminate H;
    split; intros Q; discriminate Q.
Qed.

Lemma hex_pair_range (a b : ascii) :
  is_hex a = true -> is_hex b = true -> (0 <= hex_pair a b <= 255)%Z.
Proof.
  intros Ha Hb. apply hex_val_range in Ha, Hb. unfold hex_pair. lia.
Qed.

(** X1: every colour that [parse_color] returns has its three components in
    0..255. *)
Theorem parse_color_range (s : string) (r g b : Z) :
  parse_color s = inr (r, g, b) ->
  (0 <= r <= 255 /\ 0 <= g <= 255 /\ 0 <= b <= 255)%Z.
Proof.
  destruct (is_hex6 (strip_hash (strip s))) eqn:Hh.
  - destruct (parse_hex6 s Hh) as (a & b' & c & d & e & f & Hs & ->).
    intros [= <- <- <-].
    unfold is_hex6 in Hh. rewrite Hs in Hh. apply andb_prop in Hh as [Hh _].
    cbn [all_hex] in Hh.
    repeat (apply andb_prop in Hh as [? Hh]).
    repeat split; apply hex_pair_range; assumption.
  - rewrite (parse_tokens s Hh).
    destruct (tokens _) as [|p0 [|p1 [|p2 [|? ?]]]]; try discriminate.
    destruct (py_int p0) as [r'|], (py_int p1) as [g'|], (py_int p2) as [b'|];
      try discriminate.
    destruct (in_byte_range r') eqn:Er, (in_byte_range g') eqn:Eg,
      (in_byte_range b') eqn:Eb; try discriminate.
    intros [= <- <- <-]. rewrite <- !in_byte_range_spec. auto.
Qed.

Lemma parse_color_range_witness :
  (0 <= 6 <= 255 /\ 0 <= 145 <= 255 /\ 0 <= 15 <= 255)%Z.
Proof. apply (parse_color_range "#06910f" 6 145 15). reflexivity. Defined.

(** ** Writing a colour and reading it back *)

(** A property of the numbers 0..255, checked on each of them. *)
Lemma byte_enum (P : Z -> bool) :
  forallb P (map Z.of_nat (seq 0 256)) = true ->
  forall v, (0 <= v <= 255)%Z -> P v = true.
Proof.
  intros H v Hv. rewrite forallb_forall in H. apply H.
  apply in_map_iff. exists (Z.to_nat v). split; [lia|].
  apply in_seq. lia.
Qed.

(** No character of [s] is whitespace. *)
Fixpoint none_space (s : string) : bool :=
  match s with
  | String c r => negb (is_space c) && none_space r
  | EmptyString => true
  end.

Lemma lstrip_none_space (s : string) : none_space s = true -> lstrip s = s.
Proof.
  destruct s as [|c s]; [reflexivity|]. cbn [none_space lstrip].
  intros H. apply andb_prop in H as [H _]. apply negb_true_iff in H.
  rewrite H. reflexivity.
Qed.

Lemma rstrip_none_space (s : string) : none_space s = true -> rstrip s = s.
Proof.
  induction s as [|c s IH]; [reflexivity|]. cbn [none_space rstrip all_space].
  intros H. apply andb_prop in H as [Hc Hs]. apply negb_true_iff in Hc.
  rewrite Hc, (IH Hs). reflexivity.
Qed.

Lemma strip_none_space (s : string) : none_space s = true -> strip s = s.
Proof.
  intros H. unfold strip. rewrite (lstrip_none_space _ H).
  apply rstrip_none_space, H.
Qed.

(** The digit of value [n] in base 16, in upper or lower case. *)
Definition hex_digit (upper : bool) (n : Z) : ascii :=
  ascii_of_nat
    (Z.to_nat (if (n <? 10)%Z then 48 + n else if upper then 55 + n else 87 + n)).

(** Two hexadecimal digits for a component, as [%02X] and [%02x] print it. *)
Definition hex_byte (upper : bool) (v : Z) : string :=
  String (hex_digit upper (v / 16)) (String (hex_digit upper (v mod 16)) "").

Definition hex_string (upper : bool) (c : rgb) : string :=
  hex_byte upper c.1.1 +:+ hex_byte upper c.1.2 +:+ hex_byte upper c.2.

Definition hex_byte_ok (upper : bool) (v : Z) : bool :=
  let a := hex_digit upper (v / 16) in
  let b := hex_digit upper (v mod 16) in
  is_hex a && is_hex b && negb (is_space a) && negb (is_space b)
  && negb (Ascii.eqb a "#") && (hex_pair a b =? v)%Z.

Lemma hex_byte_checked (upper : bool) (v : Z) :
  (0 <= v <= 255)%Z -> hex_byte_ok upper v = true.
Proof. apply byte_enum. destruct upper; vm_compute; reflexivity. Qed.

Lemma strip_hash_keep (a : ascii) (r : string) :
  Ascii.eqb a "#" = false -> strip_hash (String a r) = String a r.
Proof.
  destruct a as [[] [] [] [] [] [] [] []]; try reflexivity. discriminate.
Qed.

(** X4: a colour written as six hexadecimal digits, in either case and with or
    without the leading [#], is read back as the same colour. *)
Theorem parse_color_hex_round_trip (upper : bool) (r g b : Z) :
  (0 <= r <= 255)%Z -> (0 <= g <= 255)%Z -> (0 <= b <= 255)%Z ->
  parse_color ("#" +:+ hex_string upper (r, g, b)) = inr (r, g, b)
  /\ parse_color (hex_string upper (r, g, b)) = inr (r, g, b).
Proof.
  intros Hr Hg Hb.
  pose proof (hex_byte_checked upper r Hr) as Cr.
  pose proof (hex_byte_checked upper g Hg) as Cg.
  pose proof (hex_byte_checked upper b Hb) as Cb.
  unfold hex_byte_ok in Cr, Cg, Cb. cbv zeta in Cr, Cg, Cb.
  repeat match goal with
         | H : _ && _ = true |- _ => apply andb_prop in H as [? ?]
         | H : negb _ = true |- _ => apply negb_true_iff in H
         | H : (_ =? _)%Z = true |- _ => apply Z.eqb_eq in H
         end.
  unfold hex_string, hex_byte. cbn [fst snd]. rewrite !str_app_cons, !str_app_nil.
  set (r1 := hex_digit upper (r / 16)) in *.
  set (r0 := hex_digit upper (r mod 16)) in *.
  set (g1 := hex_digit upper (g / 16)) in *.
  set (g0 := hex_digit upper (g mod 16)) in *.
  set (b1 := hex_digit upper (b / 16)) in *.
  set (b0 := hex_digit upper (b mod 16)) in *.
  set (h := String r1 (String r0 (String g1 (String g0 (String b1 (String b0 "")))))).
  assert (Hn : none_space h = true).
  { unfold h. cbn [none_space].
    repeat match goal with H : is_space _ = false |- _ => rewrite H; clear H end.
    reflexivity. }
  assert (Hx : is_hex6 h = true).
  { unfold is_hex6, h. cbn [all_hex String.length].
    repeat match goal with H : is_hex _ = true |- _ => rewrite H; clear H end.
    reflexivity. }
  assert (Hs1 : strip_hash (strip (String "#" h)) = h).
  { rewrite strip_none_space; [reflexivity|]. cbn [none_space]. rewrite Hn.
    reflexivity. }
  assert (Hs2 : strip_hash (strip h) = h).
  { rewrite (strip_none_space _ Hn). unfold h. apply strip_hash_keep.
    assumption. }
  split.
  - destruct (parse_hex6 (String "#" h)) as (a1 & a2 & a3 & a4 & a5 & a6 & E & ->).
    { rewrite Hs1. exact Hx. }
    rewrite Hs1 in E. unfold h in E. injection E as <- <- <- <- <- <-.
    congruence.
  - destruct (parse_hex6 h) as (a1 & a2 & a3 & a4 & a5 & a6 & E & ->).
    { rewrite Hs2. exact Hx. }
    rewrite Hs2 in E. unfold h in E. injection E as <- <- <- <- <- <-.
    congruence.
Qed.

Lemma parse_color_hex_round_trip_witness :
  parse_color "#06910F" = inr (6, 145, 15)%Z
  /\ parse_color "06910F" = inr (6, 145, 15)%Z.
Proof. apply (parse_color_hex_round_trip true 6 145 15); lia. Defined.

(** ** Decimal components *)

Lemma str_app_assoc (a b c : string) : (a +:+ b) +:+ c = a +:+ (b +:+ c).
Proof.
  induction a as [|x a IH]; [reflexivity|]. rewrite !str_app_cons, IH. reflexivity.
Qed.

Lemma str_app_nil_r (a : string) : a +:+ "" = a.
Proof.
  induction a as [|x a IH]; [reflexivity|]. rewrite str_app_cons, IH. reflexivity.
Qed.

Lemma has_comma_app (a b : string) :
  has_comma (a +:+ b) = has_comma a || has_comma b.
Proof.
  induction a as [|x a IH]; [reflexivity|].
  rewrite str_app_cons. cbn [has_comma]. rewrite IH, orb_assoc. reflexivity.
Qed.

Lemma space_not_comma (c : ascii) : is_space c = true -> Ascii.eqb c "," = false.
Proof.
  destruct c as [[] [] [] [] [] [] [] []]; try reflexivity; discriminate.
Qed.

Lemma comma_not_hex (c : ascii) : Ascii.eqb c "," = true -> is_hex c = false.
Proof.
  destruct c as [[] [] [] [] [] [] [] []]; try reflexivity; discriminate.
Qed.

Lemma all_space_no_comma (w : string) : all_space w = true -> has_comma w = false.
Proof.
  induction w as [|c w IH]; [reflexivity|]. cbn [all_space has_comma].
  intros H. apply andb_prop in H as [Hc Hw].
  rewrite (space_not_comma _ Hc), (IH Hw). reflexivity.
Qed.

Lemma has_comma_not_hex (s : string) : has_comma s = true -> all_hex s = false.
Proof.
  induction s as [|c s IH]; [discriminate|]. cbn [has_comma all_hex].
  destruct (Ascii.eqb c ",") eqn:E.
  - intros _. rewrite (comma_not_hex _ E). reflexivity.
  - cbn [orb]. intros H. rewrite (IH H). apply andb_false_r.
Qed.

Lemma split_comma_aux_last (a cur : string) :
  has_comma a = false -> split_comma_aux cur a = [cur +:+ a].
Proof.
  revert cur. induction a as [|c a IH]; intros cur.
  - intros _. cbn [split_comma_aux]. rewrite str_app_nil_r. reflexivity.
  - cbn [has_comma split_comma_aux]. intros H. apply orb_false_elim in H as [Hc Ha].
    rewrite Hc, (IH _ Ha), str_app_assoc. reflexivity.
Qed.

Lemma split_comma_aux_app (a cur rest : string) :
  has_comma a = false ->
  split_comma_aux cur (a +:+ String "," rest)
  = (cur +:+ a) :: split_comma_aux "" rest.
Proof.
  revert cur. induction a as [|c a IH]; intros cur.
  - intros _. rewrite str_app_nil, str_app_nil_r. reflexivity.
  - rewrite str_app_cons. cbn [has_comma split_comma_aux]. intros H.
    apply orb_false_elim in H as [Hc Ha].
    rewrite Hc, (IH _ Ha), str_app_assoc. reflexivity.
Qed.

Lemma rstrip_app_r (s t : string) :
  all_space t = false -> rstrip (s +:+ t) = s +:+ rstrip t.
Proof.
  intros Ht. induction s as [|c s IH]; [reflexivity|].
  rewrite !str_app_cons. cbn [rstrip]. rewrite IH, <- str_app_cons.
  rewrite all_space_app, Ht, andb_false_r. reflexivity.
Qed.

Definition digit_char (d : Z) : ascii := ascii_of_nat (Z.to_nat (48 + d)).

(** [str(v)] for [0 <= v < 1000]. *)
Definition dec_string (v : Z) : string :=
  if (v <? 10)%Z then String (digit_char v) ""
  else if (v <? 100)%Z then
    String (digit_char (v / 10)) (String (digit_char (v mod 10)) "")
  else
    String (digit_char (v / 100))
      (String (digit_char (v / 10 mod 10)) (String (digit_char (v mod 10)) "")).

Definition dec_string_ok (v : Z) : bool :=
  let d := dec_string v in
  none_space d && negb (has_comma d) && negb (all_space d)
  && match d with String a _ => negb (Ascii.eqb a "#") | EmptyString => false end
  && match py_int d with Some x => (x =? v)%Z | None => false end.

Lemma dec_string_checked (v : Z) :
  (0 <= v <= 255)%Z ->
  none_space (dec_string v) = true
  /\ has_comma (dec_string v) = false
  /\ all_space (dec_string v) = false
  /\ (exists a t, dec_string v = String a t /\ Ascii.eqb a "#" = false)
  /\ py_int (dec_string v) = Some v.
Proof.
  intros Hv. assert (H : dec_string_ok v = true).
  { revert v Hv. apply byte_enum. vm_compute. reflexivity. }
  unfold dec_string_ok in H. cbv zeta in H.
  apply andb_prop in H as [H H5]. apply andb_prop in H as [H H4].
  apply andb_prop in H as [H H3]. apply andb_prop in H as [H1 H2].
  apply negb_true_iff in H2, H3.
  repeat split; try assumption.
  - destruct (dec_string v) as [|a t]; [discriminate H4|].
    exists a, t. split; [reflexivity|]. apply negb_true_iff, H4.
  - destruct (py_int (dec_string v)) as [x|]; [|discriminate H5].
    apply Z.eqb_eq in H5. congruence.
Qed.

Lemma strip_token (l d r : string) :
  all_space l = true -> all_space r = true -> none_space d = true ->
  strip (l +:+ d +:+ r) = d.
Proof.
  intros Hl Hr Hd. rewrite (strip_pad _ _ _ Hl Hr). apply strip_none_space, Hd.
Qed.

(** X5: three decimal components separated by commas, with any whitespace around
    the text and around each component, are read back as the same colour. *)
Theorem parse_color_decimal_round_trip (w0 w1 w2 w3 w4 w5 : string) (r g b : Z) :
  all_space w0 = true -> all_space w1 = true -> all_space w2 = true ->
  all_space w3 = true -> all_space w4 = true -> all_space w5 = true ->
  (0 <= r <= 255)%Z -> (0 <= g <= 255)%Z -> (0 <= b <= 255)%Z ->
  parse_color (w0 +:+ dec_string r +:+ w1 +:+ "," +:+ w2 +:+ dec_string g
               +:+ w3 +:+ "," +:+ w4 +:+ dec_string b +:+ w5)
  = inr (r, g, b).
Proof.
  intros H0 H1 H2 H3 H4 H5 Hr Hg Hb.
  destruct (dec_string_checked r Hr) as (Nr & Cr & Sr & (a & t & Er & Ea) & Ir).
  destruct (dec_string_checked g Hg) as (Ng & Cg & Sg & _ & Ig).
  destruct (dec_string_checked b Hb) as (Nb & Cb & Sb & _ & Ib).
  set (dr := dec_string r) in *. set (dg := dec_string g) in *.
  set (db := dec_string b) in *.
  set (rest2 := w4 +:+ db).
  set (rest1 := (w2 +:+ dg +:+ w3) +:+ String "," rest2).
  set (body := (dr +:+ w1) +:+ String "," rest1).
  assert (HT : w0 +:+ dr +:+ w1 +:+ "," +:+ w2 +:+ dg +:+ w3 +:+ "," +:+ w4
               +:+ db +:+ w5 = w0 +:+ body +:+ w5).
  { unfold body, rest1, rest2.
    repeat first [rewrite str_app_assoc | rewrite str_app_cons
                 | rewrite str_app_nil].
    reflexivity. }
  rewrite HT. rewrite (parse_color_strip _ _ (strip_pad _ _ _ H0 H5)).
  assert (Hc1 : has_comma (dr +:+ w1) = false).
  { rewrite has_comma_app, Cr, (all_space_no_comma _ H1). reflexivity. }
  assert (Hc2 : has_comma (w2 +:+ dg +:+ w3) = false).
  { rewrite !has_comma_app, Cg, (all_space_no_comma _ H2),
      (all_space_no_comma _ H3). reflexivity. }
  assert (Hc3 : has_comma rest2 = false).
  { unfold rest2. rewrite has_comma_app, Cb, (all_space_no_comma _ H4).
    reflexivity. }
  assert (Hsplit : split_comma body = [dr +:+ w1; w2 +:+ dg +:+ w3; rest2]).
  { unfold split_comma, body, rest1.
    rewrite (split_comma_aux_app _ _ _ Hc1), (split_comma_aux_app _ _ _ Hc2),
      (split_comma_aux_last _ _ Hc3). reflexivity. }
  assert (Hcomma : has_comma body = true).
  { unfold body. rewrite has_comma_app. cbn [has_comma Ascii.eqb].
    rewrite Hc1. reflexivity. }
  assert (Hstrip : strip body = body).
  { unfold strip.
    assert (Hl : lstrip body = body).
    { unfold body. rewrite Er, !str_app_cons. cbn [lstrip].
      rewrite Er in Nr. cbn [none_space] in Nr.
      apply andb_prop in Nr as [Nr _]. apply negb_true_iff in Nr.
      rewrite Nr. reflexivity. }
    rewrite Hl.
    assert (Hb' : body = (dr +:+ w1 +:+ "," +:+ w2 +:+ dg +:+ w3 +:+ ","
                          +:+ w4) +:+ db).
    { unfold body, rest1, rest2.
    repeat first [rewrite str_app_assoc | rewrite str_app_cons
                 | rewrite str_app_nil].
    reflexivity. }
    rewrite Hb' at 1. rewrite (rstrip_app_r _ _ Sb), (rstrip_none_space _ Nb).
    symmetry. exact Hb'. }
  assert (Hhash : strip_hash body = body).
  { unfold body. rewrite Er, !str_app_cons. apply strip_hash_keep, Ea. }
  assert (Hhex : is_hex6 (strip_hash (strip body)) = false).
  { rewrite Hstrip, Hhash. unfold is_hex6.
    rewrite (has_comma_not_hex _ Hcomma). reflexivity. }
  rewrite (parse_tokens _ Hhex), Hstrip, Hhash. unfold tokens.
  rewrite Hcomma, Hsplit. cbn [map].
  pose proof (strip_token "" dr w1 eq_refl H1 Nr) as S1. rewrite str_app_nil in S1.
  pose proof (strip_token w4 db "" H4 eq_refl Nb) as S3.
  rewrite str_app_nil_r in S3. fold rest2 in S3.
  rewrite S1, (strip_token w2 dg w3 H2 H3 Ng), S3.
  rewrite Ir, Ig, Ib.
  apply in_byte_range_spec in Hr, Hg, Hb. rewrite Hr, Hg, Hb. reflexivity.
Qed.

Lemma parse_color_decimal_round_trip_witness :
  parse_color " 6, 145 ,15" = inr (6, 145, 15)%Z.
Proof.
  apply (parse_color_decimal_round_trip " " "" " " " " "" "" 6 145 15);
    solve [reflexivity | lia].
Defined.

(** ** Components separated by whitespace *)

Lemma all_hex_app (a b : string) : all_hex (a +:+ b) = all_hex a && all_hex b.
Proof.
  induction a as [|x a IH]; [reflexivity|].
  rewrite str_app_cons. cbn [all_hex]. rewrite IH, andb_assoc. reflexivity.
Qed.

Lemma space_not_hex (c : ascii) : is_space c = true -> is_hex c = false.
Proof.
  destruct c as [[] [] [] [] [] [] [] []]; try reflexivity; discriminate.
Qed.

Lemma eqb_nonempty (s : string) : all_space s = false -> String.eqb s "" = false.
Proof. destruct s; [discriminate | reflexivity]. Qed.

Lemma split_ws_aux_token (d cur rest : string) :
  none_space d = true ->
  split_ws_aux cur (d +:+ rest) = split_ws_aux (cur +:+ d) rest.
Proof.
  revert cur. induction d as [|c d IH]; intros cur.
  - intros _. rewrite str_app_nil, str_app_nil_r. reflexivity.
  - rewrite str_app_cons. cbn [none_space split_ws_aux]. intros H.
    apply andb_prop in H as [Hc Hd]. apply negb_true_iff in Hc.
    rewrite Hc, (IH _ Hd), str_app_assoc. reflexivity.
Qed.

Lemma split_ws_aux_skip (w rest : string) :
  all_space w = true -> split_ws_aux "" (w +:+ rest) = split_ws_aux "" rest.
Proof.
  induction w as [|c w IH]; [reflexivity|].
  rewrite str_app_cons. cbn [all_space split_ws_aux]. intros H.
  apply andb_prop in H as [-> Hw]. cbn [String.eqb]. exact (IH Hw).
Qed.

Lemma split_ws_aux_gap (w cur rest : string) :
  all_space w = true -> w <> "" -> String.eqb cur "" = false ->
  split_ws_aux cur (w +:+ rest) = cur :: split_ws_aux "" rest.
Proof.
  destruct w as [|c w]; [contradiction|]. intros H _ Hcur.
  rewrite str_app_cons. cbn [all_space split_ws_aux] in *.
  apply andb_prop in H as [-> Hw]. rewrite Hcur.
  rewrite (split_ws_aux_skip _ _ Hw). reflexivity.
Qed.

(** X6: three decimal components separated by whitespace alone are read as a
    colour too. *)
Theorem parse_color_spaces_round_trip (w0 w1 w2 w3 : string) (r g b : Z) :
  all_space w0 = true -> all_space w1 = true -> all_space w2 = true ->
  all_space w3 = true -> w1 <> "" -> w2 <> "" ->
  (0 <= r <= 255)%Z -> (0 <= g <= 255)%Z -> (0 <= b <= 255)%Z ->
  parse_color (w0 +:+ dec_string r +:+ w1 +:+ dec_string g +:+ w2
               +:+ dec_string b +:+ w3)
  = inr (r, g, b).
Proof.
  intros H0 H1 H2 H3 N1 N2 Hr Hg Hb.
  destruct (dec_string_checked r Hr) as (Nr & Cr & Sr & (a & t & Er & Ea) & Ir).
  destruct (dec_string_checked g Hg) as (Ng & Cg & Sg & _ & Ig).
  destruct (dec_string_checked b Hb) as (Nb & Cb & Sb & _ & Ib).
  set (dr := dec_string r) in *. set (dg := dec_string g) in *.
  set (db := dec_string b) in *.
  set (body := dr +:+ w1 +:+ dg +:+ w2 +:+ db).
  assert (HT : w0 +:+ dr +:+ w1 +:+ dg +:+ w2 +:+ db +:+ w3
               = w0 +:+ body +:+ w3).
  { unfold body. rewrite !str_app_assoc. reflexivity. }
  rewrite HT, (parse_color_strip _ _ (strip_pad _ _ _ H0 H3)).
  assert (Hcomma : has_comma body = false).
  { unfold body. rewrite !has_comma_app, Cr, Cg, Cb,
      (all_space_no_comma _ H1), (all_space_no_comma _ H2). reflexivity. }
  assert (Hstrip : strip body = body).
  { unfold strip.
    assert (Hl : lstrip body = body).
    { unfold body. rewrite Er, !str_app_cons. cbn [lstrip].
      rewrite Er in Nr. cbn [none_space] in Nr.
      apply andb_prop in Nr as [Nr _]. apply negb_true_iff in Nr.
      rewrite Nr. reflexivity. }
    rewrite Hl.
    assert (Hb' : body = (dr +:+ w1 +:+ dg +:+ w2) +:+ db).
    { unfold body. rewrite !str_app_assoc. reflexivity. }
    rewrite Hb' at 1. rewrite (rstrip_app_r _ _ Sb), (rstrip_none_space _ Nb).
    symmetry. exact Hb'. }
  assert (Hhash : strip_hash body = body).
  { unfold body. rewrite Er, !str_app_cons. apply strip_hash_keep, Ea. }
  assert (Hhex : is_hex6 (strip_hash (strip body)) = false).
  { rewrite Hstrip, Hhash. unfold is_hex6, body.
    rewrite !all_hex_app.
    assert (Hw : all_hex w1 = false).
    { destruct w1 as [|c w]; [contradiction|]. cbn [all_space all_hex] in *.
      apply andb_prop in H1 as [Hc _]. rewrite (space_not_hex _ Hc).
      reflexivity. }
    rewrite Hw, andb_false_r. reflexivity. }
  rewrite (parse_tokens _ Hhex), Hstrip, Hhash. unfold tokens.
  rewrite Hcomma. unfold split_ws, body.
  rewrite (split_ws_aux_token _ _ _ Nr), str_app_nil.
  rewrite (split_ws_aux_gap _ _ _ H1 N1 (eqb_nonempty _ Sr)).
  rewrite (split_ws_aux_token _ _ _ Ng), str_app_nil.
  rewrite (split_ws_aux_gap _ _ _ H2 N2 (eqb_nonempty _ Sg)).
  rewrite <- (str_app_nil_r db) at 1.
  rewrite (split_ws_aux_token _ _ _ Nb), str_app_nil.
  cbn [split_ws_aux]. rewrite (eqb_nonempty _ Sb).
  rewrite Ir, Ig, Ib.
  apply in_byte_range_spec in Hr, Hg, Hb. rewrite Hr, Hg, Hb. reflexivity.
Qed.

Lemma parse_color_spaces_round_trip_witness :
  parse_color "6  145 15 " = inr (6, 145, 15)%Z.
Proof.
  apply (parse_color_spaces_round_trip "" "  " " " " " 6 145 15);
    solve [reflexivity | discriminate | lia].
Defined.

(** ** The number of commas *)

Fixpoint count_commas (s : string) : nat :=
  match s with
  | String c r => ((if Ascii.eqb c "," then 1 else 0) + count_commas r)%nat
  | EmptyString => 0%nat
  end.

Lemma split_comma_aux_length (s cur : string) :
  length (split_comma_aux cur s) = S (count_commas s).
Proof.
  revert cur. induction s as [|c s IH]; intros cur; [reflexivity|].
  cbn [split_comma_aux count_commas].
  destruct (Ascii.eqb c ","); cbn [length]; rewrite IH; reflexivity.
Qed.

Lemma has_comma_count (s : string) :
  has_comma s = true <-> count_commas s <> 0%nat.
Proof.
  induction s as [|c s IH]; cbn [has_comma count_commas].
  - split; [discriminate | intros H; contradiction].
  - destruct (Ascii.eqb c ","); cbn [orb].
    + split; [intros _; discriminate | reflexivity].
    + exact IH.
Qed.

Lemma count_commas_all_space (s : string) :
  all_space s = true -> count_commas s = 0%nat.
Proof.
  intros H. apply all_space_no_comma in H.
  destruct (Nat.eq_dec (count_commas s) 0%nat) as [E|E]; [exact E|].
  apply has_comma_count in E. congruence.
Qed.

Lemma count_commas_lstrip (s : string) :
  count_commas (lstrip s) = count_commas s.
Proof.
  induction s as [|c s IH]; [reflexivity|]. cbn [lstrip].
  destruct (is_space c) eqn:E; [|reflexivity].
  cbn [count_commas]. rewrite (space_not_comma _ E). exact IH.
Qed.

Lemma count_commas_rstrip (s : string) :
  count_commas (rstrip s) = count_commas s.
Proof.
  induction s as [|c s IH]; [reflexivity|]. cbn [rstrip].
  destruct (all_space (String c s)) eqn:E.
  - symmetry. apply count_commas_all_space, E.
  - cbn [count_commas]. rewrite IH. reflexivity.
Qed.

Lemma count_commas_strip_hash (s : string) :
  count_commas (strip_hash s) = count_commas s.
Proof.
  destruct s as [|c s]; [reflexivity|].
  destruct c as [[] [] [] [] [] [] [] []]; reflexivity.
Qed.

(** X7: a text with commas is accepted only when it has exactly two of them:
    with one comma, or with three or more, it is a format error, whatever
    stands between the commas. *)
Theorem parse_color_commas (s : string) :
  count_commas s <> 0%nat -> count_commas s <> 2%nat ->
  parse_color s = inl BadShape.
Proof.
  intros H0 H2.
  set (t := strip_hash (strip s)).
  assert (Ht : count_commas t = count_commas s).
  { unfold t, strip.
    rewrite count_commas_strip_hash, count_commas_rstrip, count_commas_lstrip.
    reflexivity. }
  assert (Hc : has_comma t = true) by (apply has_comma_count; congruence).
  assert (Hh : is_hex6 t = false).
  { unfold is_hex6. rewrite (has_comma_not_hex _ Hc). reflexivity. }
  rewrite (parse_tokens s Hh). fold t. unfold tokens. rewrite Hc.
  assert (Hl : length (map strip (split_comma t)) <> 3%nat).
  { rewrite length_map. unfold split_comma. rewrite split_comma_aux_length. lia. }
  destruct (map strip (split_comma t)) as [|? [|? [|? [|? ?]]]]; try reflexivity.
  exfalso. apply Hl. reflexivity.
Qed.

Lemma parse_color_commas_witness : parse_color "1,2,3," = inl BadShape.
Proof. apply (parse_color_commas "1,2,3,"); cbn; lia. Defined.

End ParserProps.

(* ===================================================================== *)
(** * Part 11: further properties of the recolouring core                  *)
(* ===================================================================== *)

Module RecolorProps.
Import Ieee Recolor Rounding RecolorFacts MaskFacts ToleranceFacts.

(** ** The 8-bit range *)

Lemma paint_valid target b p :
  valid_color target -> valid_pixel p -> valid_pixel (paint target b p).
Proof.
  intros (Hr & Hg & Hb) Hp. destruct b; [|exact Hp].
  destruct Hp as (_ & _ & _ & Ha).
  unfold valid_pixel. cbn [paint chR chG chB chA]. tauto.
Qed.

(** X8: an image of 8-bit pixels recoloured to an 8-bit target is an image of
    8-bit pixels: the array written back needs no wrap-around. *)
Theorem recolor_keeps_range pr arr src target tol metric arr' :
  valid_image arr -> valid_color target ->
  recolor pr arr src target tol metric = Some arr' ->
  valid_image arr'.
Proof.
  intros Ha Ht Hr. apply recolor_inv in Hr as (m & _ & ->).
  unfold valid_image, recolor_with in *.
  induction Ha as [|row rows Hrow _ IH]; cbn [map]; constructor; [|exact IH].
  induction Hrow as [|p ps Hp _ IHp]; cbn [map]; constructor; [|exact IHp].
  apply paint_valid; assumption.
Qed.

(** ** Tolerances outside [0, 1] *)

Lemma SFleb_nan_r x : SFleb x S754_nan = false.
Proof. destruct x as [[]|[]| |[] m e]; reflexivity. Qed.

Lemma mask_at_nan pr m src p : mask_at pr m S754_nan src p = false.
Proof.
  unfold mask_at. destruct m; cbn [close].
  - unfold close_euclidean. destruct pr; cbn [to_b32]; rewrite SFleb_nan_r;
      reflexivity.
  - unfold close_channel.
    change (to_b32 (thr S754_nan)) with S754_nan.
    rewrite !SFleb_nan_r. reflexivity.
Qed.

Lemma recolor_with_nan pr m src target arr :
  recolor_with pr m S754_nan src target arr = arr.
Proof.
  unfold recolor_with. rewrite <- (map_id arr) at 2. apply map_ext.
  intros row. rewrite <- (map_id row) at 2. apply map_ext. intros p.
  rewrite mask_at_nan. reflexivity.
Qed.

(** X9: a tolerance that is not a number ([float("nan")]) selects no pixel:
    for colours of 8-bit components the image comes back as it was, under
    both metrics. *)
Theorem recolor_nan_tolerance pr arr src target :
  valid_color src -> valid_color target ->
  recolor pr arr src target S754_nan "euclidean" = Some arr
  /\ recolor pr arr src target S754_nan "channel" = Some arr.
Proof.
  intros _ _. split.
  - rewrite (recolor_some pr arr src target S754_nan "euclidean" Euclidean eq_refl).
    f_equal. apply recolor_with_nan.
  - rewrite (recolor_some pr arr src target S754_nan "channel" Channel eq_refl).
    f_equal. apply recolor_with_nan.
Qed.

Lemma recolor_nan_tolerance_witness :
  recolor Nep50 scene black green S754_nan "channel" = Some scene.
Proof.
  apply (recolor_nan_tolerance Nep50 scene black green).
  - repeat split; cbn; lia.
  - repeat split; cbn; lia.
Defined.

(** X10: with a tolerance of zero or below and colours of 8-bit components,
    a pixel that differs from the source colour is never recoloured. *)
Theorem nonpositive_tolerance_exact pr m tol src target arr i j p :
  is_b64 tol -> SFleb tol (S754_zero false) = true ->
  valid_color src -> valid_color target -> valid_pixel p ->
  pixel_at arr i j = Some p ->
  rgb_of p <> src ->
  mask_at pr m tol src p = false
  /\ pixel_at (recolor_with pr m tol src target arr) i j = Some p.
Proof.
  intros Vt Ht Hs _ Hp Hat Hne.
  assert (Hm : mask_at pr m tol src p = false).
  { unfold mask_at. destruct (close pr m tol src p) eqn:Hc; [|reflexivity].
    exfalso. apply Hne.
    apply (close_monotone pr m tol (S754_zero false) src p Vt eq_refl Ht) in Hc.
    destruct m; cbn [close] in Hc.
    - apply (euclidean_at_zero src p Hs Hp pr), Hc.
    - apply (channel_at_zero src p Hs Hp), Hc. }
  split; [exact Hm|].
  rewrite pixel_at_recolor_with, Hat. cbn [fmap option_fmap option_map].
  rewrite Hm. reflexivity.
Qed.

Lemma nonpositive_tolerance_exact_witness :
  pixel_at (recolor_with Nep50 Channel (b64_of_Z (-1)) black green scene) 0 1
  = Some (Rgba 255 255 255 255).
Proof.
  apply (nonpositive_tolerance_exact Nep50 Channel (b64_of_Z (-1)) black green
           scene 0%nat 1%nat (Rgba 255 255 255 255)).
  - reflexivity.
  - reflexivity.
  - repeat split; cbn; lia.
  - repeat split; cbn; lia.
  - repeat split; cbn; lia.
  - reflexivity.
  - discriminate.
Defined.

(** X11: with a tolerance of one or above, infinity included, and colours of
    8-bit components, every pixel whose alpha is positive takes the target
    colour and keeps its alpha. *)
Theorem large_tolerance_all pr m tol src target arr i j p :
  is_b64 tol -> SFleb (b64_of_Z 1) tol = true ->
  valid_color src -> valid_color target -> valid_pixel p ->
  pixel_at arr i j = Some p ->
  0 < chA p ->
  mask_at pr m tol src p = true
  /\ exists p',
      pixel_at (recolor_with pr m tol src target arr) i j = Some p'
      /\ rgb_of p' = target /\ chA p' = chA p.
Proof.
  intros Vt Ht Hs _ Hp Hat Ha.
  assert (Hm : mask_at pr m tol src p = true).
  { unfold mask_at. apply andb_true_intro. split; [|apply Z.ltb_lt, Ha].
    apply (close_monotone pr m (b64_of_Z 1) tol src p eq_refl Vt Ht).
    destruct m; cbn [close].
    - apply euclidean_at_one; assumption.
    - apply channel_at_one; assumption. }
  split; [exact Hm|].
  exists (paint target true p).
  rewrite pixel_at_recolor_with, Hat. cbn [fmap option_fmap option_map].
  rewrite Hm. split; [reflexivity|].
  split; [apply paint_true | apply paint_alpha].
Qed.

Lemma large_tolerance_all_witness :
  mask_at ValueBased Euclidean (S754_infinity false) black
    (Rgba 255 255 255 255) = true.
Proof.
  apply (large_tolerance_all ValueBased Euclidean (S754_infinity false) black
           green scene 0%nat 1%nat (Rgba 255 255 255 255)).
  - reflexivity.
  - reflexivity.
  - repeat split; cbn; lia.
  - repeat split; cbn; lia.
  - repeat split; cbn; lia.
  - reflexivity.
  - cbn. lia.
Defined.

Lemma recolor_keeps_range_witness :
  valid_image scene_expected.
Proof.
  apply (recolor_keeps_range ValueBased scene black green tol_0_3 "euclidean"
           scene_expected).
  - repeat constructor; cbn; lia.
  - repeat split; cbn; lia.
  - vm_compute. reflexivity.
Defined.

End RecolorProps.

(* ===================================================================== *)
(** * Part 12: paths, files and the command line                           *)
(* ===================================================================== *)

Module ConverterProps.
Import Ieee Recolor Converter RecolorFacts ConverterFacts.
Open Scope string_scope.

(** ** [os.path.splitext] *)

(** [rfind_from] returns [found] when the character does not occur, and
    otherwise the index of its last occurrence. *)
Lemma rfind_from_spec (c : ascii) (s : string) (i found : Z) :
  (rfind_from c i s found = found /\ forall k, String.get k s <> Some c)
  \/ ((i <= rfind_from c i s found < i + Z.of_nat (String.length s))%Z
      /\ String.get (Z.to_nat (rfind_from c i s found - i)) s = Some c
      /\ forall k, (Z.to_nat (rfind_from c i s found - i) < k)%nat ->
                   String.get k s <> Some c).
Proof.
  revert i found. induction s as [|a s IH]; intros i found.
  - left. split; [reflexivity | intros k; discriminate].
  - cbn [rfind_from].
    destruct (IH (i + 1)%Z (if Ascii.eqb a c then i else found))
      as [(Hr & Hn)|(Hr & Hg & Hn)].
    + rewrite Hr. destruct (Ascii.eqb_spec a c) as [->|Hac].
      * right. split; [cbn [String.length]; lia|].
        rewrite Z.sub_diag. split; [reflexivity|].
        intros [|k] Hk; [lia|]. apply Hn.
      * left. split; [reflexivity|].
        intros [|k]; [cbn; congruence | apply Hn].
    + right. set (r := rfind_from c (i + 1) s _) in *.
      split; [cbn [String.length]; lia|].
      replace (Z.to_nat (r - i)) with (S (Z.to_nat (r - (i + 1)))) by lia.
      split; [exact Hg|].
      intros [|k] Hk; [lia|]. apply Hn. lia.
Qed.

Lemma rfind_spec (c : ascii) (p : string) :
  (rfind c p = (-1)%Z /\ forall k, String.get k p <> Some c)
  \/ ((0 <= rfind c p < Z.of_nat (String.length p))%Z
      /\ String.get (Z.to_nat (rfind c p)) p = Some c
      /\ forall k, (Z.to_nat (rfind c p) < k)%nat -> String.get k p <> Some c).
Proof.
  unfold rfind.
  destruct (rfind_from_spec c p 0 (-1)) as [H|H]; [left; exact H|right].
  rewrite Z.sub_0_r in H. exact H.
Qed.

Lemma substring_full (s : string) : substring 0 (String.length s) s = s.
Proof. induction s as [|c s IH]; [reflexivity|]. cbn. rewrite IH. reflexivity. Qed.

Lemma take_drop (p : string) (n : nat) :
  (n <= String.length p)%nat ->
  substring 0 n p +:+ substring n (String.length p - n) p = p.
Proof.
  revert n. induction p as [|c p IH]; intros n Hn.
  - cbn in Hn. replace n with 0%nat by lia. reflexivity.
  - destruct n as [|n].
    + cbn. rewrite substring_full. reflexivity.
    + cbn in Hn. cbn [substring String.length Nat.sub].
      change (String c (substring 0 n p) +:+ ?x) with
        (String c (substring 0 n p +:+ x)).
      rewrite IH by lia. reflexivity.
Qed.

Lemma drop_head (p : string) (n : nat) (c : ascii) :
  String.get n p = Some c ->
  substring n (String.length p - n) p
  = String c (substring (S n) (String.length p - S n) p).
Proof.
  revert n. induction p as [|a p IH]; intros n; [discriminate|].
  destruct n as [|n]; cbn [String.get].
  - intros [= ->]. cbn. rewrite Nat.sub_0_r. reflexivity.
  - intros H. cbn [substring String.length Nat.sub]. apply IH, H.
Qed.

Lemma get_substring (p : string) (n m k : nat) (c : ascii) :
  String.get k (substring n m p) = Some c -> String.get (k + n) p = Some c.
Proof.
  intros H. destruct (Nat.lt_ge_cases k m) as [Hlt|Hge].
  - rewrite <- (substring_correct1 p n m k Hlt). exact H.
  - rewrite (substring_correct2 p n m k Hge) in H. discriminate H.
Qed.

Lemma splitext_loop_cases (n : nat) (p : string) (f d : Z) :
  splitext_loop n p f d = (p, "")
  \/ splitext_loop n p f d = (take_str d p, drop_str d p).
Proof.
  revert f. induction n as [|n IH]; intros f; [left; reflexivity|].
  cbn [splitext_loop]. destruct (f <? d)%Z; [|left; reflexivity].
  destruct (String.get (Z.to_nat f) p) as [a|]; [|right; reflexivity].
  destruct (Ascii.eqb_spec a ".") as [->|Hne]; [apply IH|].
  right. destruct a as [[] [] [] [] [] [] [] []]; try reflexivity.
  contradiction Hne; reflexivity.
Qed.

Lemma str_nil_r (p : string) : p +:+ "" = p.
Proof.
  induction p as [|c p IH]; [reflexivity|].
  change (String c p +:+ "") with (String c (p +:+ "")). rewrite IH.
  reflexivity.
Qed.

(** What [splitext] returns: the path and no extension, or the path cut at
    its last period, which no slash follows. *)
Lemma splitext_cases (p : string) :
  splitext p = (p, "")
  \/ exists d : nat,
      splitext p = (substring 0 d p, substring d (String.length p - d) p)
      /\ (d < String.length p)%nat
      /\ String.get d p = Some "."%char
      /\ forall k, (d < k)%nat ->
           String.get k p <> Some "."%char /\ String.get k p <> Some "/"%char.
Proof.
  unfold splitext.
  destruct (rfind "/" p <? rfind "." p)%Z eqn:Hlt; [|left; reflexivity].
  apply Z.ltb_lt in Hlt.
  destruct (splitext_loop_cases
              (Z.to_nat (rfind "." p - (rfind "/" p + 1))) p
              (rfind "/" p + 1) (rfind "." p)) as [-> | ->];
    [left; reflexivity|].
  right.
  destruct (rfind_spec "." p) as [(Hd & _)|(Hd & Hg & Hn)].
  { destruct (rfind_spec "/" p) as [(Hs & _)|(Hs & _)]; lia. }
  exists (Z.to_nat (rfind "." p)).
  split; [reflexivity|]. split; [lia|]. split; [exact Hg|].
  intros k Hk. split; [apply Hn, Hk|].
  destruct (rfind_spec "/" p) as [(_ & Hs)|(Hs & _ & Hs')].
  - apply Hs.
  - apply Hs'. lia.
Qed.

(** X12: [os.path.splitext]: the two parts of a path give the path back; the
    extension is empty, or it is a period followed by characters that are
    neither a period nor a slash. *)
Theorem splitext_parts (p : string) :
  (splitext p).1 +:+ (splitext p).2 = p
  /\ ((splitext p).2 = ""
      \/ exists r, (splitext p).2 = String "." r
           /\ forall k, String.get k r <> Some "."%char
                        /\ String.get k r <> Some "/"%char).
Proof.
  destruct (splitext_cases p) as [-> | (d & -> & Hd & Hg & Hn)]; cbn [fst snd].
  - split; [apply str_nil_r | left; reflexivity].
  - split; [apply take_drop; lia|]. right.
    exists (substring (S d) (String.length p - S d) p).
    split; [apply drop_head, Hg|].
    intros k. destruct (Hn (k + S d)%nat ltac:(lia)) as [N1 N2].
    split; intros H; apply get_substring in H; [exact (N1 H) | exact (N2 H)].
Qed.

(** ** The default output path *)

(** The default output path always differs from the input path. *)
Lemma default_output_fresh (p : string) : default_output p <> p.
Proof.
  unfold default_output. intros H.
  destruct (splitext_cases p) as [E | (d & E & Hd & Hg & _)];
    rewrite E in H; cbn [fst] in H.
  - rewrite <- (str_nil_r p) in H at 2. apply String.app_inj in H.
    discriminate H.
  - rewrite <- (take_drop p d) in H at 2 by lia. apply String.app_inj in H.
    rewrite (drop_head p d "." Hg) in H. discriminate H.
Qed.

(** X13: called without an output path, a call that succeeds returns the
    default output path, and this path is never the input path. *)
Theorem default_output_differs pr inp src target tol metric w out w' :
  convert_png_color pr inp None src target tol metric w = (inr out, w') ->
  out = default_output inp /\ out <> inp.
Proof.
  intros Hrun.
  destruct (run_cases pr inp None src target tol metric w)
    as [(_ & H)|[(_ & H)|[(pic & _ & _ & H)|[(pic & m & _ & _ & _ & H)
       |(pic & m & _ & _ & _ & H)]]]];
    rewrite H in Hrun; try discriminate Hrun.
  injection Hrun as <- <-. cbn [resolve_output].
  split; [reflexivity | apply default_output_fresh].
Qed.

Lemma default_output_differs_witness :
  default_output "sprite.png" <> "sprite.png".
Proof.
  exact (proj2 (default_output_differs Nep50 "sprite.png" black green
                  tol_0_3 "euclidean" png_world _ _
                  (run_saved Nep50 "sprite.png" None black green tol_0_3
                     "euclidean" png_world (PicRGBA scene) Euclidean
                     png_world_input eq_refl png_world_output))).
Defined.

(** ** Running a call again *)

(** X15: running a successful call a second time, on the files the first run
    left, succeeds and leaves the files as they are; this holds also when
    the output path is the input path. *)
Theorem rerun_changes_nothing pr inp outp src target tol metric w out w1 :
  convert_png_color pr inp outp src target tol metric w = (inr out, w1) ->
  exists w2,
    convert_png_color pr inp outp src target tol metric w1 = (inr out, w2)
    /\ files w2 = files w1.
Proof.
  intros Hrun.
  destruct (run_cases pr inp outp src target tol metric w)
    as [(_ & H)|[(_ & H)|[(pic & _ & _ & H)|[(pic & m & _ & _ & _ & H)
       |(pic & m & Hin & Hm & Hout & H)]]]];
    rewrite H in Hrun; try discriminate Hrun.
  injection Hrun as <- <-.
  set (o := resolve_output inp outp) in *.
  set (A := recolor_with pr m tol src target (to_rgba pic)).
  set (w1 := after w _ _).
  assert (Ho : files w1 !! o = Some (Regular (Some (PicRGBA A)))).
  { apply lookup_insert_eq. }
  assert (Ho' : files w1 !! o <> Some Directory) by (rewrite Ho; discriminate).
  destruct (decide (o = inp)) as [E|E].
  - rewrite <- E.
    assert (Hin1 : files w1 !! o = Some (Regular (Some (PicRGBA A)))) by exact Ho.
    pose proof (run_saved pr inp outp src target tol metric w1 (PicRGBA A) m) as R.
    fold o in R. rewrite <- E in R. specialize (R Hin1 Hm Ho').
    rewrite E in R at 1. rewrite E. rewrite R. rewrite <- E. eexists.
    split; [reflexivity|]. cbn [after files to_rgba].
    unfold A. rewrite recolor_with_idem. fold A.
    subst w1. cbn [after files]. apply insert_insert_eq.
  - assert (Hin1 : files w1 !! inp = Some (Regular (Some pic))).
    { subst w1. cbn [after files]. rewrite lookup_insert_ne by exact E.
      exact Hin. }
    rewrite (run_saved pr inp outp src target tol metric w1 pic m Hin1 Hm Ho').
    eexists. split; [reflexivity|]. cbn [after files]. fold o A.
    subst w1. cbn [after files]. apply insert_insert_eq.
Qed.

Lemma rerun_changes_nothing_witness :
  exists w2,
    convert_png_color Nep50 "sprite.png" (Some "sprite.png") black green
      tol_0_3 "euclidean"
      (after png_world
         (<["sprite.png" := Regular (Some (PicRGBA
              (recolor_with Nep50 Euclidean tol_0_3 black green scene)))]>
            (files png_world))
         [EvIsFile "sprite.png"; EvOpen "sprite.png"; EvSave "sprite.png"])
    = (inr "sprite.png", w2).
Proof.
  destruct (rerun_changes_nothing Nep50 "sprite.png" (Some "sprite.png") black
              green tol_0_3 "euclidean" png_world _ _
              (run_saved Nep50 "sprite.png" (Some "sprite.png") black green
                 tol_0_3 "euclidean" png_world (PicRGBA scene) Euclidean
                 png_world_input eq_refl
                 ltac:(cbn [resolve_output]; rewrite png_world_input;
                       discriminate)))
    as (w2 & H & _).
  exists w2. exact H.
Defined.

End ConverterProps.

Module CliProps.
Import Ieee Recolor Converter Cli RecolorFacts ConverterFacts.
Open Scope string_scope.

(** X16: [main] either raises, having printed nothing and changed no file, or
    prints one line that names the output path, where a decodable RGBA image
    then is. *)
Theorem main_report pr args p :
  let r := main pr args p in
  let out := resolve_output (input args) (output args) in
  (exists e, r.1 = inl e
     /\ stdout r.2 = stdout p
     /\ files (disk r.2) = files (disk p))
  \/ (exists arr, r.1 = inr tt
        /\ stdout r.2
           = (stdout p ++ ["Saved converted image to: " +:+ out])%list
        /\ files (disk r.2) !! out = Some (Regular (Some (PicRGBA arr)))).
Proof.
  intros r out. subst r. unfold main.
  destruct (run_cases pr (input args) (output args) (source args)
              (target args) (tolerance args) (metric args) (disk p))
    as [(_ & H)|[(_ & H)|[(pic & _ & _ & H)|[(pic & m & _ & _ & _ & H)
       |(pic & m & _ & _ & _ & H)]]]];
    rewrite H; cbn [fst snd stdout disk after files].
  1-4: left; eexists; repeat split; reflexivity.
  right. eexists. split; [reflexivity|]. split; [reflexivity|].
  apply lookup_insert_eq.
Qed.

(** X17: with a metric among the choices of [--metric], [main] never raises
    the [ValueError] of the metric test; and when it succeeds, the input path
    was a regular file holding a decodable image and the output path was not
    a directory. *)
Theorem main_metric_accepted pr args p :
  In (metric args) metric_choices ->
  let out := resolve_output (input args) (output args) in
  (main pr args p).1 <> inl ValueError
  /\ ((main pr args p).1 = inr tt ->
        (exists pic, files (disk p) !! input args = Some (Regular (Some pic)))
        /\ files (disk p) !! out <> Some Directory).
Proof.
  intros Hc out.
  assert (Hm : exists m, metric_of_string (metric args) = Some m).
  { destruct Hc as [<-|[<-|[]]]; [exists Euclidean | exists Channel];
      reflexivity. }
  destruct Hm as (m0 & Hm0).
  unfold main.
  destruct (run_cases pr (input args) (output args) (source args)
              (target args) (tolerance args) (metric args) (disk p))
    as [(Hreg & H)|[(Hin & H)|[(pic & Hin & Hm & H)|[(pic & m & Hin & Hm & Hd & H)
       |(pic & m & Hin & Hm & Hd & H)]]]];
    rewrite H; cbn [fst snd].
  - split; discriminate.
  - split; discriminate.
  - rewrite Hm in Hm0. discriminate Hm0.
  - split; discriminate.
  - split; [discriminate|].
    intros _. split; [exists pic; exact Hin | exact Hd].
Qed.

Definition sprite_args : Namespace :=
  Args "sprite.png" None black green tol_0_3 "channel".

Lemma main_metric_accepted_witness :
  (main Nep50 sprite_args (Process png_world [])).1 <> inl ValueError.
Proof.
  apply (main_metric_accepted Nep50 sprite_args (Process png_world [])).
  right. left. reflexivity.
Defined.

End CliProps.

(* ===================================================================== *)
(** * Part 13: the mask in the order of the distances                      *)
(* ===================================================================== *)

Module DistanceProps.
Import Ieee Recolor Rounding RecolorFacts MaskFacts ToleranceFacts.

(** ** The code of a quotient *)

(** The position of a remainder [r] of a division by [D], as two bits. *)
Lemma new_location_code D r :
  0 < D -> 0 <= r < D ->
  loc_bits (new_location D r)
  = if r =? 0 then 0 else if 2 * r <? D then 1 else if 2 * r =? D then 2 else 3.
Proof.
  intros HD Hr. unfold new_location.
  destruct (Z.even D) eqn:Hev;
    unfold new_location_even, new_location_odd;
    destruct (Z.eqb_spec r 0) as [Hr0|Hr0]; try reflexivity.
  - destruct (Z.compare_spec (2 * r) D) as [E|L|G]; cbn [loc_bits].
    + destruct (Z.ltb_spec (2 * r) D); [lia|].
      destruct (Z.eqb_spec (2 * r) D); [reflexivity|lia].
    + destruct (Z.ltb_spec (2 * r) D); [reflexivity|lia].
    + destruct (Z.ltb_spec (2 * r) D); [lia|].
      destruct (Z.eqb_spec (2 * r) D); [lia|reflexivity].
  - assert (Hodd : Z.odd D = true) by (rewrite <- Z.negb_even, Hev; reflexivity).
    apply Z.odd_spec in Hodd. destruct Hodd as [h Hh].
    destruct (Z.compare_spec (2 * r + 1) D) as [E|L|G]; cbn [loc_bits].
    + destruct (Z.ltb_spec (2 * r) D); [reflexivity|lia].
    + destruct (Z.ltb_spec (2 * r) D); [reflexivity|lia].
    + destruct (Z.ltb_spec (2 * r) D); [lia|].
      destruct (Z.eqb_spec (2 * r) D); [lia|reflexivity].
Qed.

(** The quotient [N / D] with the position of the remainder. *)
Definition qcode (N D : Z) : Z :=
  4 * (N / D) + loc_bits (new_location D (N mod D)).

Lemma divmod_of M D a c :
  0 < D -> M = D * a + c -> 0 <= c < D -> M / D = a /\ M mod D = c.
Proof.
  intros HD E Hc. split.
  - symmetry. apply Z.div_unique with c; [lia | exact E].
  - symmetry. apply Z.mod_unique with a; [lia | exact E].
Qed.

(** The same code, as twice the quotient of [2 * N] and a sticky bit. *)
Lemma qcode_sticky N D :
  0 < D -> 0 <= N ->
  qcode N D = 2 * (2 * N / D) + (if (2 * N) mod D =? 0 then 0 else 1).
Proof.
  intros HD HN. unfold qcode.
  pose proof (Z.mod_pos_bound N D HD) as Hr.
  rewrite (new_location_code D (N mod D) HD Hr).
  pose proof (Z.div_mod N D ltac:(lia)) as E.
  set (q := N / D) in *. set (r := N mod D) in *.
  destruct (Z.eqb_spec r 0) as [H0|H0].
  - destruct (divmod_of (2 * N) D (2 * q) 0 HD ltac:(lia) ltac:(lia)) as [-> ->].
    cbn. lia.
  - destruct (Z.ltb_spec (2 * r) D) as [H1|H1].
    + destruct (divmod_of (2 * N) D (2 * q) (2 * r) HD ltac:(lia) ltac:(lia))
        as [-> ->].
      destruct (Z.eqb_spec (2 * r) 0); lia.
    + destruct (Z.eqb_spec (2 * r) D) as [H2|H2].
      * destruct (divmod_of (2 * N) D (2 * q + 1) 0 HD ltac:(lia) ltac:(lia))
          as [-> ->].
        cbn. lia.
      * destruct (divmod_of (2 * N) D (2 * q + 1) (2 * r - D) HD ltac:(lia)
                    ltac:(lia)) as [-> ->].
        destruct (Z.eqb_spec (2 * r - D) 0); lia.
Qed.

Lemma qcode_mono N N' D :
  0 < D -> 0 <= N <= N' -> qcode N D <= qcode N' D.
Proof.
  intros HD HN. rewrite !qcode_sticky by lia.
  pose proof (Z.div_mod (2 * N) D ltac:(lia)) as E.
  pose proof (Z.div_mod (2 * N') D ltac:(lia)) as E'.
  pose proof (Z.mod_pos_bound (2 * N) D HD) as Hr.
  pose proof (Z.mod_pos_bound (2 * N') D HD) as Hr'.
  set (q := 2 * N / D) in *. set (r := (2 * N) mod D) in *.
  set (q' := 2 * N' / D) in *. set (r' := (2 * N') mod D) in *.
  assert (q <= q') by nia.
  destruct (Z.eq_dec q q') as [Hq|Hq].
  - rewrite <- Hq in *.
    destruct (Z.eqb_spec r 0), (Z.eqb_spec r' 0); lia.
  - destruct (Z.eqb_spec r 0), (Z.eqb_spec r' 0); lia.
Qed.

Lemma qcode_double N D :
  0 < D -> 0 <= N -> st1 (qcode (2 * N) D) = qcode N D.
Proof.
  intros HD HN. rewrite !qcode_sticky by lia.
  replace (2 * (2 * N)) with (4 * N) by lia.
  pose proof (Z.div_mod (2 * N) D ltac:(lia)) as E2.
  pose proof (Z.div_mod (4 * N) D ltac:(lia)) as E4.
  pose proof (Z.mod_pos_bound (2 * N) D HD) as Hr2.
  pose proof (Z.mod_pos_bound (4 * N) D HD) as Hr4.
  set (b := 2 * N / D) in *. set (r2 := (2 * N) mod D) in *.
  set (a := 4 * N / D) in *. set (r4 := (4 * N) mod D) in *.
  assert (Hab : (a = 2 * b /\ r4 = 2 * r2) \/ (a = 2 * b + 1 /\ r4 = 2 * r2 - D)).
  { destruct (Z_lt_le_dec (2 * r2) D) as [Hlt|Hge]; [left|right].
    - apply (divmod_of (4 * N) D (2 * b) (2 * r2) HD); lia.
    - apply (divmod_of (4 * N) D (2 * b + 1) (2 * r2 - D) HD); lia. }
  replace (if r4 =? 0 then 0 else 1) with (Z.b2z (negb (r4 =? 0)))
    by (destruct (r4 =? 0); reflexivity).
  rewrite st1_split.
  destruct Hab as [[Ha Hr]|[Ha Hr]]; rewrite Ha, Hr.
  - rewrite Z.even_mul. cbn [Z.even orb]. rewrite andb_true_r.
    destruct (Z.eqb_spec (2 * r2) 0), (Z.eqb_spec r2 0); cbn [negb Z.b2z]; lia.
  - replace (Z.even (2 * b + 1)) with false
      by (rewrite Z.add_comm, Z.even_add_mul_2; reflexivity).
    rewrite andb_false_r.
    destruct (Z.eqb_spec r2 0); cbn [Z.b2z]; lia.
Qed.

Lemma qcode_scale (k : nat) N D :
  0 < D -> 0 <= N -> stk k (qcode (2 ^ Z.of_nat k * N) D) = qcode N D.
Proof.
  intros HD HN. induction k as [|k IH].
  - cbn [stk Z.of_nat]. rewrite Z.pow_0_r. f_equal. lia.
  - rewrite stk_succ_r, Nat2Z.inj_succ, Z.pow_succ_r by lia.
    rewrite <- Z.mul_assoc, qcode_double; [exact IH|exact HD|].
    assert (0 < 2 ^ Z.of_nat k) by (apply Z.pow_pos_nonneg; lia). nia.
Qed.

(** ** Quotients of numbers of a format, in order *)

Section QuotientOrder.
Variables prec emax : Z.
Hypothesis Hprec : 0 < prec.

Local Abbreviation emin := (SpecFloat.emin prec emax).

(** A code read at an exponent lower by [j] rounds to the same number. *)
Lemma round_aux_rescale m l m' l' e j :
  0 < m -> 0 < m' -> 0 <= j -> e <= rnd_exp prec emax m e ->
  Zdigits2 m' = Zdigits2 m + j ->
  stk (Z.to_nat j) (4 * m' + loc_bits l') = 4 * m + loc_bits l ->
  binary_round_aux prec emax false m' (e - j) l'
  = binary_round_aux prec emax false m e l.
Proof.
  intros Hm Hm' Hj Hk Hd Hc.
  assert (Hr : rnd_exp prec emax m' (e - j) = rnd_exp prec emax m e).
  { unfold rnd_exp. rewrite Hd. f_equal. lia. }
  rewrite (round_aux_pack prec emax Hprec false m' (e - j) l' Hm')
    by (rewrite Hr; lia).
  rewrite (round_aux_pack prec emax Hprec false m e l Hm Hk).
  rewrite Hr. f_equal. unfold rnd_man. rewrite Hr.
  replace (Z.to_nat (rnd_exp prec emax m e - (e - j)))
    with (Z.to_nat (rnd_exp prec emax m e - e) + Z.to_nat j)%nat by lia.
  rewrite stk_add, Hc. reflexivity.
Qed.

Lemma digits_ge m : 2 ^ (prec - 1) <= m -> prec <= Zdigits2 m.
Proof.
  intros H.
  assert (0 < 2 ^ (prec - 1)) by (apply Z.pow_pos_nonneg; lia).
  destruct (Zdigits2_bounds m ltac:(lia)) as (? & _ & Hub).
  assert (prec - 1 <= Zdigits2 m - 1); [|lia].
  apply pow2_lt_le; try lia.
  replace (Zdigits2 m - 1 + 1) with (Zdigits2 m) by lia. lia.
Qed.

(** The quotient of two numbers with full mantissas, before rounding. *)
Lemma SFdiv_code m1 e1 m2 e2 :
  Zdigits2 (Zpos m1) = prec -> Zdigits2 (Zpos m2) = prec ->
  emin <= e1 - e2 - prec ->
  SFdiv prec emax (S754_finite false m1 e1) (S754_finite false m2 e2)
  = binary_round_aux prec emax false
      (Zpos m1 * 2 ^ prec / Zpos m2) (e1 - e2 - prec)
      (new_location (Zpos m2) ((Zpos m1 * 2 ^ prec) mod Zpos m2))
  /\ 2 ^ (prec - 1) <= Zpos m1 * 2 ^ prec / Zpos m2 < 2 ^ (prec + 1).
Proof.
  intros Hd1 Hd2 Hq.
  destruct (pow2_split prec Hprec) as [HP HH].
  destruct (Zdigits2_bounds (Zpos m1) ltac:(lia)) as (_ & Hl1 & Hu1).
  destruct (Zdigits2_bounds (Zpos m2) ltac:(lia)) as (_ & Hl2 & Hu2).
  rewrite Hd1 in *. rewrite Hd2 in *.
  cbn [SFdiv xorb]. unfold SFdiv_core_binary.
  rewrite Hd1, Hd2.
  set (e' := Z.min (SpecFloat.fexp prec emax (prec + e1 - (prec + e2))) (e1 - e2)).
  assert (He' : e' = e1 - e2 - prec) by (unfold e', SpecFloat.fexp; lia).
  replace (e1 - e2 - e') with prec by lia.
  rewrite shift_match by lia.
  unfold Z.div, Z.modulo.
  pose proof (Z_div_mod (Zpos m1 * 2 ^ prec) (Zpos m2) ltac:(lia)) as Hdiv.
  destruct (Z.div_eucl (Zpos m1 * 2 ^ prec) (Zpos m2)) as [q r].
  destruct Hdiv as [Hdiv Hr]. rewrite He'.
  split; [reflexivity|]. split; [nia|].
  rewrite Z.pow_add_r by lia. change (2 ^ 1) with 2. nia.
Qed.

(** Division by a number of the format is monotone on the numbers with full
    mantissas. *)
Theorem SFdiv_mono m1 e1 m1' e1' m2 e2 :
  Zdigits2 (Zpos m1) = prec -> Zdigits2 (Zpos m1') = prec ->
  Zdigits2 (Zpos m2) = prec ->
  emin <= e1 - e2 - prec ->
  e1 < e1' \/ (e1 = e1' /\ Zpos m1 <= Zpos m1') ->
  SFleb (SFdiv prec emax (S754_finite false m1 e1) (S754_finite false m2 e2))
        (SFdiv prec emax (S754_finite false m1' e1') (S754_finite false m2 e2))
  = true.
Proof.
  intros Hd1 Hd1' Hd2 Hq Hle.
  destruct (pow2_split prec Hprec) as [HP HH].
  destruct (SFdiv_code m1 e1 m2 e2 Hd1 Hd2 Hq) as [-> Hq1].
  destruct (SFdiv_code m1' e1' m2 e2 Hd1' Hd2 ltac:(lia)) as [-> Hq2].
  destruct (Zdigits2_bounds (Zpos m1) ltac:(lia)) as (_ & Hl1 & Hu1).
  destruct (Zdigits2_bounds (Zpos m1') ltac:(lia)) as (_ & Hl1' & Hu1').
  rewrite Hd1 in *. rewrite Hd1' in *.
  set (D := Zpos m2) in *. set (N1 := Zpos m1 * 2 ^ prec) in *.
  set (N2 := Zpos m1' * 2 ^ prec) in *.
  assert (HD : 0 < D) by (unfold D; lia).
  set (k := e1' - e1). assert (Hk : 0 <= k) by (unfold k; lia).
  assert (Hpk : 0 < 2 ^ k) by (apply Z.pow_pos_nonneg; lia).
  set (e' := e1 - e2 - prec) in *.
  replace (e1' - e2 - prec) with (e' + k) by (unfold e', k; lia).
  set (q2 := N2 / D) in *.
  set (N2' := 2 ^ k * N2).
  assert (HN2 : 0 <= N2) by (unfold N2; nia).
  assert (Hq2lo : q2 * D <= N2) by (unfold q2; rewrite Z.mul_comm; apply Z.mul_div_le; lia).
  assert (Hq2hi : N2 < (q2 + 1) * D).
  { unfold q2. pose proof (Z.mul_succ_div_gt N2 D HD). lia. }
  destruct (Zdigits2_bounds q2 ltac:(lia)) as (Hdq & Hlq & Huq).
  set (d := Zdigits2 q2) in *.
  assert (Hdig : Zdigits2 (N2' / D) = d + k).
  { assert (q2 * 2 ^ k <= N2' / D).
    { apply Z.div_le_lower_bound; [lia|]. unfold N2'. nia. }
    assert (N2' / D < (q2 + 1) * 2 ^ k).
    { apply Z.div_lt_upper_bound; [lia|]. unfold N2'. nia. }
    apply Zdigits2_unique; [nia|].
    replace (d + k - 1) with (d - 1 + k) by lia.
    rewrite !Z.pow_add_r by lia. nia. }
  assert (Hq2' : 0 < N2' / D).
  { assert (q2 * 2 ^ k <= N2' / D).
    { apply Z.div_le_lower_bound; [lia|]. unfold N2'. nia. }
    nia. }
  pose proof (digits_ge q2 ltac:(lia)) as Hdp. fold d in Hdp.
  assert (Hk2 : e' + k <= rnd_exp prec emax q2 (e' + k)).
  { unfold rnd_exp, SpecFloat.fexp. fold d. lia. }
  rewrite <- (round_aux_rescale q2 (new_location D (N2 mod D)) (N2' / D)
                (new_location D (N2' mod D)) (e' + k) k ltac:(lia) Hq2' Hk Hk2
                Hdig).
  2:{ change (4 * (N2' / D) + loc_bits (new_location D (N2' mod D)))
        with (qcode N2' D).
      change (4 * q2 + loc_bits (new_location D (N2 mod D))) with (qcode N2 D).
      unfold N2'. rewrite <- (Z2Nat.id k) at 2 by lia.
      apply qcode_scale; lia. }
  replace (e' + k - k) with e' by lia.
  apply (round_aux_mono prec emax Hprec).
  - lia.
  - change (qcode N1 D <= qcode N2' D). apply qcode_mono; [exact HD|].
    split; [unfold N1; nia|]. unfold N1, N2'.
    destruct Hle as [Hlt|[Heq Hm]].
    + destruct (pow2_ge_2 k ltac:(unfold k; lia)) as [Hp2 _].
      unfold N2. nia.
    + assert (k = 0) by (unfold k; lia). unfold N2.
      replace (2 ^ k) with 1 by (subst k; rewrite H; reflexivity). nia.
  - pose proof (digits_ge (N1 / D) ltac:(lia)).
    unfold rnd_exp, SpecFloat.fexp. lia.
  - unfold rnd_exp, SpecFloat.fexp. rewrite Hdig. lia.
Qed.

End QuotientOrder.

(** ** The distance as a function of the squared distance *)

(** The position of a square root between two integers. *)
Definition sqrt_loc (q r : Z) : location :=
  if r =? 0 then loc_Exact else loc_Inexact (if r <=? q then Lt else Gt).

(** The square root of a positive integer below [2^18], before rounding:
    the integer root of the scaled radicand and the position of the rest. *)
Lemma sqrt_code n :
  1 <= n < 262144 ->
  exists q r,
    let e' := (Zdigits2 n + 1) / 2 - 24 in
    b32_sqrt (b32_of_Z n)
    = binary_round_aux prec32 emax32 false q e' (sqrt_loc q r)
    /\ n * 2 ^ (- 2 * e') = q * q + r /\ 0 <= r <= 2 * q
    /\ -23 <= e' <= -15
    /\ 8388608 <= q < 16777216.
Proof.
  intros Hn.
  assert (Hsm : small prec32 n) by (apply small32; lia).
  assert (Hnz : n <> 0) by lia.
  pose proof (of_Z_small prec32 emax32 prec32_pos emax32_ok n Hsm Hnz) as Hof.
  cbv zeta in Hof. destruct Hof as (E & (Hd0 & Hdp) & Hsh).
  rewrite Z.abs_eq in * by lia.
  set (d := Zdigits2 n) in *.
  destruct (Zdigits2_bounds n ltac:(lia)) as (_ & Hl & Hu). fold d in Hl, Hu.
  assert (Hd18 : d <= 18).
  { assert (d - 1 <= 17); [|lia]. apply pow2_lt_le; lia. }
  change (of_Z prec32 emax32 n) with (b32_of_Z n) in E.
  destruct (Z.ltb_spec n 0) as [|_]; [lia|].
  assert (Hpp : 0 < 2 ^ (prec32 - d)) by (apply Z.pow_pos_nonneg; unfold prec32; lia).
  set (mx := n * 2 ^ (prec32 - d)) in *.
  assert (Hmx : 0 < mx) by (unfold mx; nia).
  rewrite E. unfold b32_sqrt. cbn [SFsqrt]. unfold SFsqrt_core_binary.
  rewrite Z2Pos.id by assumption. rewrite Hsh.
  set (e' := Z.min (SpecFloat.fexp prec32 emax32 (Z.div2 (prec32 + (d - prec32) + 1)))
                   (Z.div2 (d - prec32))).
  assert (He' : e' = (d + 1) / 2 - 24).
  { unfold e', SpecFloat.fexp, SpecFloat.emin, prec32, emax32.
    rewrite !Z.div2_div. replace (24 + (d - 24) + 1) with (d + 1) by lia.
    Z.div_mod_to_equations. lia. }
  set (s := d - prec32 - 2 * e').
  assert (Hs : 23 <= s <= 24)
    by (unfold s, prec32; rewrite He'; Z.div_mod_to_equations; lia).
  rewrite shift_match by lia.
  pose proof (Z.sqrtrem_spec (mx * 2 ^ s)) as Hsq.
  assert (Hps : 0 < 2 ^ s) by (apply Z.pow_pos_nonneg; lia).
  destruct (Z.sqrtrem (mx * 2 ^ s)) as [q r].
  specialize (Hsq ltac:(nia)). destruct Hsq as [Hsq Hr].
  assert (Hrad : mx * 2 ^ s = n * 2 ^ (- 2 * e')).
  { unfold mx. rewrite <- Z.mul_assoc, <- Z.pow_add_r by (unfold prec32; lia).
    f_equal. f_equal. unfold s, prec32. lia. }
  assert (Hmxb : 8388608 <= mx < 16777216).
  { destruct (Zdigits2_bounds mx Hmx) as (_ & Hl' & Hu'). rewrite Hsh in Hl', Hu'.
    exact (conj Hl' Hu'). }
  assert (Hps2 : 8388608 <= 2 ^ s <= 16777216).
  { split.
    - change 8388608 with (2 ^ 23). apply Z.pow_le_mono_r; lia.
    - change 16777216 with (2 ^ 24). apply Z.pow_le_mono_r; lia. }
  exists q, r. cbv zeta. rewrite <- He'.
  split; [reflexivity|].
  rewrite <- Hrad. split; [lia|]. split; [exact Hr|].
  split; [rewrite He'; Z.div_mod_to_equations; lia|].
  split; nia.
Qed.

Lemma sqrt_loc_mono q r q' r' :
  0 <= r <= 2 * q -> 0 <= r' <= 2 * q' -> 0 <= q ->
  q * q + r <= q' * q' + r' ->
  4 * q + loc_bits (sqrt_loc q r) <= 4 * q' + loc_bits (sqrt_loc q' r').
Proof.
  intros Hr Hr' Hq H.
  assert (Hb : forall a b, 0 <= loc_bits (sqrt_loc a b) <= 3)
    by (intros; apply loc_bits_range).
  pose proof (Hb q r). pose proof (Hb q' r').
  destruct (Z_lt_le_dec q q') as [Hlt|Hge]; [lia|].
  assert (q = q') by nia. subst q'.
  assert (r <= r') by lia. unfold sqrt_loc.
  destruct (Z.eqb_spec r 0), (Z.eqb_spec r' 0), (Z.leb_spec r q),
    (Z.leb_spec r' q); cbn [loc_bits]; lia.
Qed.

Lemma half_digits a b : a <= b -> (a + 1) / 2 - 24 <= (b + 1) / 2 - 24.
Proof. intros H. Z.div_mod_to_equations. lia. Qed.

(** The rounded square root is monotone on the integers below [2^18]. *)
Lemma sqrt_mono n1 n2 :
  1 <= n1 <= n2 -> n2 < 262144 ->
  SFleb (b32_sqrt (b32_of_Z n1)) (b32_sqrt (b32_of_Z n2)) = true.
Proof.
  intros H1 H2.
  destruct (sqrt_code n1 ltac:(lia)) as (q1 & r1 & Hc1).
  destruct (sqrt_code n2 ltac:(lia)) as (q2 & r2 & Hc2).
  cbv zeta in Hc1, Hc2.
  pose proof (Zdigits2_mono n1 n2 ltac:(lia)) as Hd.
  pose proof (half_digits _ _ Hd) as He.
  set (e1 := (Zdigits2 n1 + 1) / 2 - 24) in *.
  set (e2 := (Zdigits2 n2 + 1) / 2 - 24) in *.
  destruct Hc1 as (-> & Hs1 & Hr1 & He1 & Hq1).
  destruct Hc2 as (-> & Hs2 & Hr2 & He2 & Hq2).
  pose proof (rnd_exp_24 q1 e1 Hq1 ltac:(lia)) as Hx1.
  pose proof (rnd_exp_24 q2 e2 Hq2 ltac:(lia)) as Hx2.
  destruct (Z.eq_dec e1 e2) as [Heq|Hne].
  - rewrite <- Heq in *.
    apply (round_aux_mono prec32 emax32 prec32_pos); try lia.
    apply sqrt_loc_mono; try lia.
    rewrite <- Hs1, <- Hs2.
    assert (0 < 2 ^ (- 2 * e1)) by (apply Z.pow_pos_nonneg; lia). nia.
  - apply (SFleb_trans _ (S754_finite false 8388608 (e1 + 1))).
    + assert (Hid : binary_round_aux prec32 emax32 false (8388608 * 2 ^ 1)
                      (e1 + 1 - 1) loc_Exact
                    = S754_finite false 8388608 (e1 + 1)).
      { rewrite (round_aux_scale prec32 emax32 prec32_pos); try lia.
        - apply (round_aux_id prec32 emax32 prec32_pos); [reflexivity|].
          unfold SpecFloat.emin, prec32, emax32. lia.
        - rewrite rnd_exp_24 by lia. lia. }
      rewrite <- Hid. replace (e1 + 1 - 1) with e1 by lia.
      apply (round_aux_mono prec32 emax32 prec32_pos); try lia.
      * pose proof (loc_bits_range (sqrt_loc q1 r1)). cbn [loc_bits].
        change (2 ^ 1) with 2. lia.
      * unfold rnd_exp, SpecFloat.fexp, SpecFloat.emin, prec32, emax32.
        change (Zdigits2 (8388608 * 2 ^ 1)) with 25. lia.
    + apply (SFleb_trans _ (S754_finite false 8388608 e2)).
      * apply SFleb_finite. destruct (Z.eq_dec (e1 + 1) e2); [right|left]; lia.
      * rewrite <- (round_aux_id prec32 emax32 prec32_pos 8388608 e2)
          by (try reflexivity; unfold SpecFloat.emin, prec32, emax32; lia).
        apply (round_aux_mono prec32 emax32 prec32_pos); try lia.
        -- pose proof (loc_bits_range (sqrt_loc q2 r2)). cbn [loc_bits]. lia.
        -- rewrite rnd_exp_24 by lia. lia.
Qed.

(** ** The normalised distance as a function of the squared distance *)

Lemma SFleb_lex m1 e1 m2 e2 :
  SFleb (S754_finite false m1 e1) (S754_finite false m2 e2) = true ->
  e1 < e2 \/ (e1 = e2 /\ Zpos m1 <= Zpos m2).
Proof.
  intros H. apply SFleb_key in H. unfold key_le in H. cbn [key lex_le] in H.
  lia.
Qed.

Lemma nonneg_of_bounds x y :
  SFleb x (S754_zero false) = false -> SFleb x y = true ->
  SFleb (S754_zero false) x = true.
Proof.
  destruct x as [[]|[]| |[] m e]; cbn; intros H0 H1;
    try discriminate; reflexivity.
Qed.

Lemma norm_of_mono pr n1 n2 :
  0 <= n1 <= n2 -> n2 <= 195075 ->
  SFleb (norm_of pr (b32_sqrt (b32_of_Z n1)))
        (norm_of pr (b32_sqrt (b32_of_Z n2))) = true.
Proof.
  intros H1 H2.
  destruct (Z.eq_dec n1 0) as [->|Hn1].
  { rewrite norm_zero. destruct (Z.eq_dec n2 0) as [->|Hn2].
    - rewrite norm_zero. reflexivity.
    - destruct (norm_bounds pr n2 ltac:(lia)) as [Hp Ho].
      exact (nonneg_of_bounds _ _ Hp Ho). }
  pose proof (sqrt_mono n1 n2 ltac:(lia) ltac:(lia)) as Hs.
  destruct (dist_bounds n1 ltac:(lia)) as (V1 & Hlo1 & Hhi1).
  destruct (dist_bounds n2 ltac:(lia)) as (V2 & Hlo2 & Hhi2).
  set (d1 := b32_sqrt (b32_of_Z n1)) in *.
  set (d2 := b32_sqrt (b32_of_Z n2)) in *.
  destruct pr; cbn [norm_of].
  - destruct (between_normal prec32 emax32 8388608 (-23) 14472739 (-15) d1
                prec32_pos V1 ltac:(reflexivity) Hlo1 Hhi1)
      as (m1 & e1 & E1 & Hd1 & Ho1 & _).
    destruct (between_normal prec32 emax32 8388608 (-23) 14472739 (-15) d2
                prec32_pos V2 ltac:(reflexivity) Hlo2 Hhi2)
      as (m2 & e2 & E2 & Hd2 & _ & _).
    rewrite E1, E2 in Hs |- *. rewrite max_dist_b32. unfold far32, b32_div.
    apply (SFdiv_mono prec32 emax32 prec32_pos); try assumption.
    + reflexivity.
    + unfold SpecFloat.emin, prec32, emax32. lia.
    + apply SFleb_lex, Hs.
  - assert (W1 : is_b32 one32) by reflexivity.
    assert (W2 : is_b32 far32) by reflexivity.
    assert (Hfar : SFleb (to_b64 far32) max_dist = true) by reflexivity.
    assert (B : forall d, is_b32 d -> SFleb one32 d = true ->
                  SFleb d far32 = true ->
                  exists m e, to_b64 d = S754_finite false m e
                    /\ Zdigits2 (Zpos m) = prec64 /\ -52 <= e).
    { intros d V Hlo Hhi.
      pose proof (to_b64_mono _ _ W1 V Hlo) as Hlo64.
      pose proof (to_b64_mono _ _ V W2 Hhi) as Hhi64.
      pose proof (SFleb_trans _ _ _ Hhi64 Hfar) as Hhi'.
      assert (V64 : is_b64 (to_b64 d)).
      { rewrite to_b64_scale. apply scale_round_valid, prec64_pos. }
      change (to_b64 one32) with (S754_finite false 4503599627370496 (-52))
        in Hlo64.
      rewrite max_dist_bits in Hhi'.
      destruct (between_normal prec64 emax64 4503599627370496 (-52)
                  7769992811508829 (-44) (to_b64 d) prec64_pos V64
                  ltac:(reflexivity) Hlo64 Hhi') as (m & e & Ed & Hd & Ho & _).
      exists m, e. split; [exact Ed|]. split; [exact Hd|]. lia. }
    destruct (B d1 V1 Hlo1 Hhi1) as (m1 & e1 & E1 & Hd1 & He1).
    destruct (B d2 V2 Hlo2 Hhi2) as (m2 & e2 & E2 & Hd2 & _).
    pose proof (to_b64_mono _ _ V1 V2 Hs) as Hs64.
    rewrite E1, E2 in Hs64 |- *. rewrite max_dist_bits. unfold b64_div.
    apply (SFdiv_mono prec64 emax64 prec64_pos); try assumption.
    + reflexivity.
    + unfold SpecFloat.emin, prec64, emax64. lia.
    + apply SFleb_lex, Hs64.
Qed.

(** ** Pixels in the order of their distance to the source colour *)

(** X18: under the euclidean metric, a pixel at most as far from the source
    colour as a pixel that is close is close too: the mask is a ball around
    the source colour, whatever the tolerance. *)
Theorem euclidean_closer_selected pr tol src p q :
  valid_color src -> valid_pixel p -> valid_pixel q ->
  sq_dist src p <= sq_dist src q ->
  close pr Euclidean tol src q = true ->
  close pr Euclidean tol src p = true.
Proof.
  intros Hs Hp Hq Hd. cbn [close].
  destruct (norm_int src p Hs Hp pr) as [Ep Hbp].
  destruct (norm_int src q Hs Hq pr) as [Eq Hbq].
  pose proof (norm_of_mono pr (sq_dist src p) (sq_dist src q)
                ltac:(lia) ltac:(lia)) as Hm.
  rewrite <- Ep, <- Eq in Hm.
  unfold close_euclidean. destruct pr; intros H;
    exact (SFleb_trans _ _ _ Hm H).
Qed.

Lemma euclidean_closer_selected_witness :
  close Nep50 Euclidean tol_0_3 black (Rgba 60 60 60 255) = true.
Proof.
  apply (euclidean_closer_selected Nep50 tol_0_3 black (Rgba 60 60 60 255)
           (Rgba 76 76 76 255)).
  - repeat split; cbn; lia.
  - repeat split; cbn; lia.
  - repeat split; cbn; lia.
  - vm_compute. discriminate.
  - reflexivity.
Defined.

(** X19: under the channel metric, a pixel that is, on each channel, at most
    as far from the source colour as a pixel that is close is close too. *)
Theorem channel_closer_selected pr tol src p q :
  valid_color src -> valid_pixel p -> valid_pixel q ->
  Z.abs (chR p - src.1.1) <= Z.abs (chR q - src.1.1) ->
  Z.abs (chG p - src.1.2) <= Z.abs (chG q - src.1.2) ->
  Z.abs (chB p - src.2) <= Z.abs (chB q - src.2) ->
  close pr Channel tol src q = true ->
  close pr Channel tol src p = true.
Proof.
  intros (Sr & Sg & Sb) (Pr & Pg & Pb & _) (Qr & Qg & Qb & _) Hr Hg Hb.
  cbn [close]. unfold close_channel.
  destruct (abs_diff _ _ Pr Sr) as [-> ?]. destruct (abs_diff _ _ Pg Sg) as [-> ?].
  destruct (abs_diff _ _ Pb Sb) as [-> ?]. destruct (abs_diff _ _ Qr Sr) as [-> ?].
  destruct (abs_diff _ _ Qg Sg) as [-> ?]. destruct (abs_diff _ _ Qb Sb) as [-> ?].
  intros Hc. apply andb_prop in Hc as [Hc C3]. apply andb_prop in Hc as [C1 C2].
  pose proof (of_Z_mono (Z.abs (chR p - src.1.1)) (Z.abs (chR q - src.1.1))
                ltac:(lia)) as M1.
  pose proof (of_Z_mono (Z.abs (chG p - src.1.2)) (Z.abs (chG q - src.1.2))
                ltac:(lia)) as M2.
  pose proof (of_Z_mono (Z.abs (chB p - src.2)) (Z.abs (chB q - src.2))
                ltac:(lia)) as M3.
  rewrite (SFleb_trans _ _ _ M1 C1), (SFleb_trans _ _ _ M2 C2),
    (SFleb_trans _ _ _ M3 C3).
  reflexivity.
Qed.

Lemma channel_closer_selected_witness :
  close ValueBased Channel tol_0_3 black (Rgba 6 60 15 255) = true.
Proof.
  apply (channel_closer_selected ValueBased tol_0_3 black (Rgba 6 60 15 255)
           (Rgba 76 76 76 255)).
  - repeat split; cbn; lia.
  - repeat split; cbn; lia.
  - repeat split; cbn; lia.
  - vm_compute. discriminate.
  - vm_compute. discriminate.
  - vm_compute. discriminate.
  - reflexivity.
Defined.

End DistanceProps.

(* ===================================================================== *)
(** * Part 14: the default tolerance; symmetry                             *)
(* ===================================================================== *)

Module DefaultTolerance.
Import Ieee Recolor Rounding RecolorFacts MaskFacts ToleranceFacts DistanceProps.

(** The tolerance as the comparison [norm <= tolerance] reads it. *)
Definition tol_of (pr : promotion) (tol : spec_float) : spec_float :=
  match pr with ValueBased => to_b32 tol | Nep50 => tol end.

Lemma close_euclidean_int pr tol src p :
  valid_color src -> valid_pixel p ->
  close pr Euclidean tol src p
  = SFleb (norm_of pr (b32_sqrt (b32_of_Z (sq_dist src p)))) (tol_of pr tol)
  /\ 0 <= sq_dist src p <= 195075.
Proof.
  intros Hs Hp. destruct (norm_int src p Hs Hp pr) as [E Hb].
  split; [|exact Hb]. cbn [close]. unfold close_euclidean.
  destruct pr; rewrite E; reflexivity.
Qed.

(** The last squared distance within the default tolerance, and the first
    one beyond it. *)
Lemma default_edge pr :
  SFleb (norm_of pr (b32_sqrt (b32_of_Z 17556))) (tol_of pr tol_0_3) = true
  /\ SFleb (norm_of pr (b32_sqrt (b32_of_Z 17557))) (tol_of pr tol_0_3) = false.
Proof. destruct pr; split; vm_compute; reflexivity. Qed.

(** X20: at the default tolerance 0.30 the euclidean metric selects exactly
    the colours whose squared distance to the source colour is at most 17556
    (a distance of 132.5), under both NumPy promotion rules. *)
Theorem default_tolerance_euclidean pr src p :
  valid_color src -> valid_pixel p ->
  (close pr Euclidean tol_0_3 src p = true <-> sq_dist src p <= 17556).
Proof.
  intros Hs Hp.
  destruct (close_euclidean_int pr tol_0_3 src p Hs Hp) as [-> Hb].
  destruct (default_edge pr) as [Hin Hout].
  split.
  - intros H. destruct (Z_le_gt_dec (sq_dist src p) 17556) as [|Hgt]; [assumption|].
    pose proof (norm_of_mono pr 17557 (sq_dist src p) ltac:(lia) ltac:(lia)) as Hm.
    rewrite (SFleb_trans _ _ _ Hm H) in Hout. discriminate Hout.
  - intros H.
    pose proof (norm_of_mono pr (sq_dist src p) 17556 ltac:(lia) ltac:(lia)) as Hm.
    exact (SFleb_trans _ _ _ Hm Hin).
Qed.

Lemma default_tolerance_euclidean_witness :
  close ValueBased Euclidean tol_0_3 black (Rgba 76 76 76 255) = true
  <-> sq_dist black (Rgba 76 76 76 255) <= 17556.
Proof.
  apply (default_tolerance_euclidean ValueBased black (Rgba 76 76 76 255));
    repeat split; cbn; lia.
Defined.

Lemma channel_edge :
  SFleb (b32_of_Z 76) (to_b32 (thr tol_0_3)) = true
  /\ SFleb (b32_of_Z 77) (to_b32 (thr tol_0_3)) = false.
Proof. split; vm_compute; reflexivity. Qed.

Lemma channel_within a :
  0 <= a <= 255 ->
  (SFleb (b32_of_Z a) (to_b32 (thr tol_0_3)) = true <-> a <= 76).
Proof.
  intros Ha. destruct channel_edge as [Hin Hout]. split.
  - intros H. destruct (Z_le_gt_dec a 76) as [|Hgt]; [assumption|].
    pose proof (of_Z_mono 77 a ltac:(lia)) as Hm.
    rewrite (SFleb_trans _ _ _ Hm H) in Hout. discriminate Hout.
  - intros H. exact (SFleb_trans _ _ _ (of_Z_mono a 76 ltac:(lia)) Hin).
Qed.

(** X21: at the default tolerance 0.30 the channel metric selects exactly
    the colours that differ from the source colour by at most 76 on each
    channel. *)
Theorem default_tolerance_channel pr src p :
  valid_color src -> valid_pixel p ->
  (close pr Channel tol_0_3 src p = true
   <-> Z.abs (chR p - src.1.1) <= 76 /\ Z.abs (chG p - src.1.2) <= 76
       /\ Z.abs (chB p - src.2) <= 76).
Proof.
  intros (Sr & Sg & Sb) (Pr & Pg & Pb & _). cbn [close]. unfold close_channel.
  destruct (abs_diff _ _ Pr Sr) as [-> Hr]. destruct (abs_diff _ _ Pg Sg) as [-> Hg].
  destruct (abs_diff _ _ Pb Sb) as [-> Hb].
  rewrite !andb_true_iff, !(channel_within _ Hr), !(channel_within _ Hg),
    !(channel_within _ Hb). tauto.
Qed.

Lemma default_tolerance_channel_witness :
  close Nep50 Channel tol_0_3 black (Rgba 76 0 76 255) = true
  <-> Z.abs (76 - 0) <= 76 /\ Z.abs (0 - 0) <= 76 /\ Z.abs (76 - 0) <= 76.
Proof.
  apply (default_tolerance_channel Nep50 black (Rgba 76 0 76 255));
    repeat split; cbn; lia.
Defined.

(** X22: both metrics are symmetric: a colour [c2] is close to the source
    [c1] exactly when [c1] is close to the source [c2]. *)
Theorem close_symmetric pr m tol c1 c2 a b :
  valid_color c1 -> valid_color c2 ->
  valid_channel a -> valid_channel b ->
  close pr m tol c1 (Rgba c2.1.1 c2.1.2 c2.2 a)
  = close pr m tol c2 (Rgba c1.1.1 c1.1.2 c1.2 b).
Proof.
  intros H1 H2 Ha Hb.
  assert (V1 : valid_pixel (Rgba c1.1.1 c1.1.2 c1.2 b)).
  { unfold valid_pixel, valid_color in *. cbn [chR chG chB chA]. tauto. }
  assert (V2 : valid_pixel (Rgba c2.1.1 c2.1.2 c2.2 a)).
  { unfold valid_pixel, valid_color in *. cbn [chR chG chB chA]. tauto. }
  destruct m.
  - destruct (close_euclidean_int pr tol c1 _ H1 V2) as [-> _].
    destruct (close_euclidean_int pr tol c2 _ H2 V1) as [-> _].
    assert (E : sq_dist c1 (Rgba c2.1.1 c2.1.2 c2.2 a)
                = sq_dist c2 (Rgba c1.1.1 c1.1.2 c1.2 b))
      by (unfold sq_dist; cbn [chR chG chB]; ring).
    rewrite E. reflexivity.
  - destruct H1 as (R1 & G1 & B1). destruct H2 as (R2 & G2 & B2).
    cbn [close]. unfold close_channel. cbn [chR chG chB].
    rewrite (proj1 (abs_diff _ _ R2 R1)), (proj1 (abs_diff _ _ G2 G1)),
      (proj1 (abs_diff _ _ B2 B1)), (proj1 (abs_diff _ _ R1 R2)),
      (proj1 (abs_diff _ _ G1 G2)), (proj1 (abs_diff _ _ B1 B2)).
    replace (Z.abs (c2.1.1 - c1.1.1)) with (Z.abs (c1.1.1 - c2.1.1)) by lia.
    replace (Z.abs (c2.1.2 - c1.1.2)) with (Z.abs (c1.1.2 - c2.1.2)) by lia.
    replace (Z.abs (c2.2 - c1.2)) with (Z.abs (c1.2 - c2.2)) by lia.
    reflexivity.
Qed.

Lemma close_symmetric_witness :
  close Nep50 Euclidean tol_0_3 black (Rgba 6 145 15 255)
  = close Nep50 Euclidean tol_0_3 green (Rgba 0 0 0 0).
Proof.
  apply (close_symmetric Nep50 Euclidean tol_0_3 black green 255 0);
    repeat split; cbn; lia.
Defined.

End DefaultTolerance.

(* ===================================================================== *)
(** * Part 15: the default output path of common file names                *)
(* ===================================================================== *)

Module PathProps.
Import Ieee Recolor Converter RecolorFacts ConverterFacts ConverterProps.
Open Scope string_scope.

Lemma rfind_unique (c : ascii) (p : string) (d : nat) :
  String.get d p = Some c ->
  (forall k, (d < k)%nat -> String.get k p <> Some c) ->
  rfind c p = Z.of_nat d.
Proof.
  intros Hg Hn.
  destruct (rfind_spec c p) as [(_ & Hno)|(Hr & Hg' & Hn')].
  - exfalso. exact (Hno d Hg).
  - destruct (Nat.lt_trichotomy (Z.to_nat (rfind c p)) d) as [Hlt|[Heq|Hgt]].
    + exfalso. exact (Hn' d Hlt Hg).
    + lia.
    + exfalso. exact (Hn _ Hgt Hg').
Qed.

(** The loop of [_splitext] cuts the path when a character other than a
    period stands between the last separator and the last period. *)
Lemma splitext_loop_cut (n : nat) (p : string) (f d : Z) (j : nat) (c : ascii) :
  (0 <= f)%Z -> (f <= Z.of_nat j < d)%Z -> (d - f <= Z.of_nat n)%Z ->
  String.get j p = Some c -> c <> "."%char ->
  splitext_loop n p f d = (take_str d p, drop_str d p).
Proof.
  revert f. induction n as [|n IH]; intros f Hf Hj Hn Hg Hc; [lia|].
  cbn [splitext_loop]. destruct (Z.ltb_spec f d) as [_|]; [|lia].
  destruct (String.get (Z.to_nat f) p) as [a|] eqn:Ha; [|reflexivity].
  destruct (Ascii.eqb_spec a ".") as [->|Hne].
  - apply IH; try lia; try assumption.
    destruct (Z.eq_dec f (Z.of_nat j)) as [E|]; [|lia].
    rewrite E, Nat2Z.id in Ha. congruence.
  - destruct a as [[] [] [] [] [] [] [] []]; try reflexivity.
    contradiction Hne; reflexivity.
Qed.

Lemma get_app_l (s t : string) (n : nat) :
  (n < String.length s)%nat -> String.get n (s +:+ t) = String.get n s.
Proof. intros H. symmetry. apply append_correct1, H. Qed.

Lemma get_app_r (s t : string) (n : nat) :
  String.get (String.length s + n) (s +:+ t) = String.get n t.
Proof. rewrite Nat.add_comm. symmetry. apply append_correct2. Qed.

Lemma get_some_lt (s : string) (n : nat) (c : ascii) :
  String.get n s = Some c -> (n < String.length s)%nat.
Proof.
  revert n. induction s as [|a s IH]; intros n; [discriminate|].
  destruct n as [|n]; cbn [String.get String.length]; [lia|].
  intros H. apply IH in H. lia.
Qed.

Lemma substring_app_l (s t : string) :
  substring 0 (String.length s) (s +:+ t) = s.
Proof.
  induction s as [|a s IH]; [destruct t; reflexivity|].
  change (String a s +:+ t) with (String a (s +:+ t)).
  cbn [String.length substring]. rewrite IH. reflexivity.
Qed.

Lemma substring_app_r (s t : string) :
  substring (String.length s) (String.length (s +:+ t) - String.length s)
    (s +:+ t) = t.
Proof.
  induction s as [|a s IH].
  - change ("" +:+ t) with t. cbn [String.length]. rewrite Nat.sub_0_r.
    apply substring_full.
  - change (String a s +:+ t) with (String a (s +:+ t)).
    cbn [String.length substring Nat.sub]. exact IH.
Qed.

(** X23: for a path [root.ext] whose extension holds no period and no slash
    and whose last component has a character other than a period before the
    extension, the default output path is [root_converted.png]. *)
Theorem default_output_of_stem (root ext : string) (i : nat) (c : ascii) :
  (forall k, String.get k ext <> Some "."%char
             /\ String.get k ext <> Some "/"%char) ->
  String.get i root = Some c -> c <> "."%char -> c <> "/"%char ->
  (forall j, (i < j)%nat -> String.get j root <> Some "/"%char) ->
  splitext (root +:+ "." +:+ ext) = (root, "." +:+ ext)
  /\ default_output (root +:+ "." +:+ ext) = root +:+ "_converted.png".
Proof.
  intros Hext Hi Hc1 Hc2 Hsl.
  set (p := root +:+ "." +:+ ext).
  set (d := String.length root).
  pose proof (get_some_lt _ _ _ Hi) as Hid. fold d in Hid.
  assert (Hafter : forall k x, (d < k)%nat -> String.get k p = Some x ->
                     String.get (k - d - 1) ext = Some x).
  { intros k x Hk Hx. unfold p in Hx.
    replace k with (String.length root + S (k - d - 1))%nat in Hx by (unfold d; lia).
    rewrite get_app_r in Hx. exact Hx. }
  assert (Hdot : rfind "." p = Z.of_nat d).
  { apply rfind_unique.
    - unfold p. replace d with (String.length root + 0)%nat by (unfold d; lia).
      rewrite get_app_r. reflexivity.
    - intros k Hk Hx. apply (proj1 (Hext (k - d - 1)%nat)).
      exact (Hafter k _ Hk Hx). }
  assert (Hsep : (rfind "/" p < Z.of_nat i)%Z).
  { destruct (rfind_spec "/" p) as [(-> & _)|(Hr & Hg & _)]; [lia|].
    destruct (Z_lt_le_dec (rfind "/" p) (Z.of_nat i)) as [|Hge]; [assumption|].
    exfalso. set (s := Z.to_nat (rfind "/" p)) in *.
    destruct (Nat.lt_trichotomy s d) as [Hlt|[Heq|Hgt]].
    - unfold p in Hg. rewrite get_app_l in Hg by exact Hlt.
      destruct (Nat.eq_dec s i) as [E|E].
      + rewrite E, Hi in Hg. injection Hg as ->. contradiction Hc2; reflexivity.
      + apply (Hsl s); [lia | exact Hg].
    - unfold p in Hg. rewrite Heq in Hg.
      replace d with (String.length root + 0)%nat in Hg by (unfold d; lia).
      rewrite get_app_r in Hg. discriminate Hg.
    - apply (proj2 (Hext (s - d - 1)%nat)). exact (Hafter s _ Hgt Hg). }
  assert (Hsep0 : (-1 <= rfind "/" p)%Z).
  { destruct (rfind_spec "/" p) as [(-> & _)|(Hr & _)]; lia. }
  assert (Hsplit : splitext p = (root, "." +:+ ext)).
  { unfold splitext. rewrite Hdot.
    destruct (Z.ltb_spec (rfind "/" p) (Z.of_nat d)) as [_|]; [|lia].
    rewrite (splitext_loop_cut _ p _ _ i c); try lia; try assumption.
    - unfold take_str, drop_str. rewrite Nat2Z.id. f_equal.
      + apply substring_app_l.
      + apply substring_app_r.
    - unfold p. rewrite get_app_l by exact Hid. exact Hi. }
  split; [exact Hsplit|]. unfold default_output. fold p. rewrite Hsplit.
  reflexivity.
Qed.

Lemma default_output_of_stem_witness :
  default_output "shots/photo.jpg" = "shots/photo_converted.png".
Proof.
  apply (default_output_of_stem "shots/photo" "jpg" 6 "p").
  - intros [|[|[|[|k]]]]; split; discriminate.
  - reflexivity.
  - discriminate.
  - discriminate.
  - intros j Hj. do 7 (destruct j as [|j]; [lia|]).
    do 4 (destruct j as [|j]; [discriminate|]). destruct j; discriminate.
Defined.

(** X24: a path whose last component holds no period has no extension: the
    default output path is the path followed by [_converted.png]. *)
Theorem default_output_no_extension (p : string) :
  (forall k, String.get k p = Some "."%char ->
     exists j, (k < j)%nat /\ String.get j p = Some "/"%char) ->
  splitext p = (p, "")
  /\ default_output p = p +:+ "_converted.png".
Proof.
  intros H.
  assert (Hs : splitext p = (p, "")).
  { unfold splitext.
    destruct (Z.ltb_spec (rfind "/" p) (rfind "." p)) as [Hlt|]; [|reflexivity].
    exfalso.
    destruct (rfind_spec "." p) as [(Hd & _)|(Hd & Hg & _)].
    - destruct (rfind_spec "/" p) as [(Hs & _)|(Hs & _)]; lia.
    - destruct (H _ Hg) as (j & Hj & Hgj).
      destruct (rfind_spec "/" p) as [(_ & Hno)|(Hs & _ & Hn)].
      + exact (Hno j Hgj).
      + apply (Hn j); [lia | exact Hgj]. }
  split; [exact Hs|]. unfold default_output. rewrite Hs. reflexivity.
Qed.

Lemma default_output_no_extension_witness :
  default_output "v1.2/sprite" = "v1.2/sprite_converted.png".
Proof.
  apply (default_output_no_extension "v1.2/sprite").
  intros k Hk. exists 4%nat. split; [|reflexivity].
  do 2 (destruct k as [|k]; [discriminate Hk|]).
  destruct k as [|k]; [lia|].
  do 8 (destruct k as [|k]; [discriminate Hk|]). destruct k; discriminate Hk.
Defined.

End PathProps.

(* ===================================================================== *)
(** * Part 16: the floats of the code as real numbers                      *)
(* ===================================================================== *)

(** Every rounding of the code moves a number by less than one unit of the
    result; the comparisons of the code are the comparisons of the numbers.
    From this the mask is placed between two regions of the
    specification. *)

Module RealValue.
Import Stdlib.Reals.Reals Stdlib.micromega.Lra.
Import Ieee Recolor Rounding Spec.
Local Open Scope R_scope.

(** ** Powers of two and dyadic numbers *)













(** ** One rounding moves a number by less than one unit of the result *)

Section Near.
Variables prec emax : Z.
Hypothesis Hprec : (0 < prec)%Z.

Local Abbreviation emin := (SpecFloat.emin prec emax).









End Near.




(** Rounding a number of the format gives it back. *)
Section Identity.
Variables prec emax : Z.
Hypothesis Hprec : (0 < prec)%Z.



End Identity.

(** ** The distance and the normalised distance *)









(** A quotient of two numbers with full mantissas, rounded. *)
Section Quotients.
Variables prec emax : Z.
Hypothesis Hprec : (0 < prec)%Z.

Local Abbreviation emin := (SpecFloat.emin prec emax).


End Quotients.
















(** ** The tolerance *)


Section Normal.
Variables prec emax : Z.
Hypothesis Hprec : (0 < prec)%Z.




End Normal.








(** ** The channel metric *)














End RealValue.

(* ===================================================================== *)
(** * Part 17: the contract of the recolouring                             *)
(* ===================================================================== *)

Module Contract.
Import Stdlib.Reals.Reals.
Import Ieee Recolor Converter Spec RecolorFacts ConverterFacts.
Local Open Scope string_scope.




End Contract.
